(** * gocnc: the position interpreter and the toolpath passes of package vm

    A shallow embedding of vm/positioning.go, vm/utils.go and the optimizer
    file of package vm.  Go's float64 is Rocq's primitive binary64 float, so
    every comparison and every arithmetic step below is the IEEE one the
    program performs (NaN compares false, -0 equals 0, sums round).  A Go
    panic is the [Panic] result; slices are lists. *)

From Stdlib Require Import ZArith List Bool Ascii Lia Floats.
From Stdlib Require Import Permutation.
Import ListNotations.

#[local] Set Warnings "-inexact-float".

(** ** Panics *)

(** The values the code panics with.  [RadiusDeviation] carries the two
    numbers the message is formatted from; [IndexOutOfRange] is the runtime
    panic of a slice index. *)
Inductive PanicValue : Type :=
| MoveNaN              (* "Internal failure: Move attempted with NaN value" *)
| ArcNaN               (* "Internal failure: Arc attempted with NaN value" *)
| ArcRotations         (* "Arc rotations < 1" *)
| InvalidArc           (* "Invalid arc statement" *)
| RadiusDeviation (deviation rDiff : float)
| ComplexZMotion       (* "Complex z-motion detected" *)
| MultipleDrillFeedrates
| RapidInStock
| MoveAboveStock
| NoSafetyHeight
| NoDrillFeedrate
| IncompleteFinalSet
| IndexOutOfRange.

Inductive result (A : Type) : Type :=
| Ok (a : A)
| Panic (p : PanicValue).
Arguments Ok {A} a.
Arguments Panic {A} p.

Definition bind {A B : Type} (r : result A) (f : A -> result B) : result B :=
  match r with
  | Ok a => f a
  | Panic p => Panic p
  end.

Declare Scope go_scope.
Delimit Scope go_scope with go.
Notation "x <- r ;; k" := (bind r (fun x => k))
  (at level 61, r at next level, right associativity) : go_scope.

Local Open Scope float_scope.
Local Open Scope go_scope.

(** ** float64 helpers *)

(** Go's [a != b], [a > b] and [a >= b] on float64. *)
Definition fne (a b : float) : bool := negb (a =? b).
Definition fgt (a b : float) : bool := b <? a.
Definition fge (a b : float) : bool := b <=? a.

(** [math.Pow(x, 2)], Go's own algorithm at the exponent 2: after the special
    cases (1, NaN, zero and the infinities) the fraction of [Frexp] is squared
    and brought back into [1/2, 1), and [Ldexp] puts the doubled exponent on.
    Where the square is a normal number this is the rounded product [x * x];
    where it is subnormal [Ldexp] rounds a second time. *)
Definition Pow2 (x : float) : float :=
  if x =? 1 then 1
  else if is_nan x then nan
  else if x =? 0 then 0
  else if is_infinity x then infinity
  else
    let '(x1, xe) := Z.frexp x in
    let x1 := x1 * x1 in
    let xe := Z.shiftl xe 1 in
    let '(x1, xe) := if x1 <? 0.5 then (x1 + x1, (xe - 1)%Z) else (x1, xe) in
    Z.ldexp x1 xe.

(** [float64(n)] for an [int] n. *)
Definition float64_of_int (n : Z) : float :=
  if (n <? 0)%Z then - of_uint63 (Uint63.of_Z (- n)) else of_uint63 (Uint63.of_Z n).

(** [math.Pi] as a float64. *)
Definition Pi : float := 0x1.921fb54442d18p+1.

(** A range loop that may panic part-way. *)
Fixpoint foldM {S A : Type} (f : S -> A -> result S) (l : list A) (s : S) : result S :=
  match l with
  | [] => Ok s
  | a :: l' => bind (f s a) (foldM f l')
  end.

(** [l[i]] for an [int] index. *)
Definition index {A : Type} (l : list A) (i : Z) : result A :=
  if (i <? 0)%Z then Panic IndexOutOfRange
  else match nth_error l (Z.to_nat i) with
       | Some a => Ok a
       | None => Panic IndexOutOfRange
       end.

(** ** Data model *)

(** Modelled from the spec: the motion-mode enumeration (section 3), whose
    constants are declared outside the files at hand. *)
Inductive MoveModes : Type :=
| MoveModeNone | MoveModeRapid | MoveModeLinear
| MoveModeCWArc | MoveModeCCWArc | MoveModeDwell.

Definition MoveModes_eqb (a b : MoveModes) : bool :=
  match a, b with
  | MoveModeNone, MoveModeNone | MoveModeRapid, MoveModeRapid
  | MoveModeLinear, MoveModeLinear | MoveModeCWArc, MoveModeCWArc
  | MoveModeCCWArc, MoveModeCCWArc | MoveModeDwell, MoveModeDwell => true
  | _, _ => false
  end.

(** Modelled from the spec: the modal state record (section 3), declared
    outside the files at hand; the fields are the ones the code reads. *)
Record State : Type := mkState {
  Feedrate : float;
  SpindleSpeed : float;
  MoveMode : MoveModes;
  SpindleEnabled : bool;
  SpindleClockwise : bool;
  FloodCoolant : bool;
  MistCoolant : bool;
  ToolIndex : Z;
  NextToolIndex : Z;
  DwellTime : float
}.

Definition set_MoveMode (s : State) (m : MoveModes) : State :=
  mkState (Feedrate s) (SpindleSpeed s) m (SpindleEnabled s) (SpindleClockwise s)
          (FloodCoolant s) (MistCoolant s) (ToolIndex s) (NextToolIndex s) (DwellTime s).
Definition set_Feedrate (s : State) (f : float) : State :=
  mkState f (SpindleSpeed s) (MoveMode s) (SpindleEnabled s) (SpindleClockwise s)
          (FloodCoolant s) (MistCoolant s) (ToolIndex s) (NextToolIndex s) (DwellTime s).
Definition set_SpindleEnabled (s : State) (b : bool) : State :=
  mkState (Feedrate s) (SpindleSpeed s) (MoveMode s) b (SpindleClockwise s)
          (FloodCoolant s) (MistCoolant s) (ToolIndex s) (NextToolIndex s) (DwellTime s).
Definition set_MistCoolant (s : State) (b : bool) : State :=
  mkState (Feedrate s) (SpindleSpeed s) (MoveMode s) (SpindleEnabled s) (SpindleClockwise s)
          (FloodCoolant s) b (ToolIndex s) (NextToolIndex s) (DwellTime s).
Definition set_FloodCoolant (s : State) (b : bool) : State :=
  mkState (Feedrate s) (SpindleSpeed s) (MoveMode s) (SpindleEnabled s) (SpindleClockwise s)
          b (MistCoolant s) (ToolIndex s) (NextToolIndex s) (DwellTime s).
Definition set_DwellTime (s : State) (d : float) : State :=
  mkState (Feedrate s) (SpindleSpeed s) (MoveMode s) (SpindleEnabled s) (SpindleClockwise s)
          (FloodCoolant s) (MistCoolant s) (ToolIndex s) (NextToolIndex s) d.

(** Modelled from the spec: the waypoint record (section 3), declared outside
    the files at hand; the literal [Position{vm.State, x, y, z}] of [move]
    gives the order of its fields. *)
Record Position : Type := mkPosition {
  pos_State : State;
  pos_X : float;
  pos_Y : float;
  pos_Z : float
}.

Definition set_pos_State (p : Position) (s : State) : Position :=
  mkPosition s (pos_X p) (pos_Y p) (pos_Z p).
Definition set_pos_X (p : Position) (x : float) : Position :=
  mkPosition (pos_State p) x (pos_Y p) (pos_Z p).
Definition set_pos_Y (p : Position) (y : float) : Position :=
  mkPosition (pos_State p) (pos_X p) y (pos_Z p).
Definition set_pos_Z (p : Position) (z : float) : Position :=
  mkPosition (pos_State p) (pos_X p) (pos_Y p) z.
Definition set_pos_MoveMode (p : Position) (m : MoveModes) : Position :=
  set_pos_State p (set_MoveMode (pos_State p) m).

(** Modelled from the spec: [utils.Vector], the package of which is outside
    the files at hand: a coordinate triple with componentwise difference and
    Euclidean norm ("2-D XY distance" once Z is zeroed). *)
Record Vector : Type := mkVector {
  vec_X : float;
  vec_Y : float;
  vec_Z : float
}.

Definition Diff (v o : Vector) : Vector :=
  mkVector (vec_X v - vec_X o) (vec_Y v - vec_Y o) (vec_Z v - vec_Z o).
Definition Norm (v : Vector) : float :=
  sqrt (Pow2 (vec_X v) + Pow2 (vec_Y v) + Pow2 (vec_Z v)).

(** [pos.Vector()]. *)
Definition Vector_of (p : Position) : Vector :=
  mkVector (pos_X p) (pos_Y p) (pos_Z p).

(** Modelled from the spec: the coordinate system (section 3), declared
    outside the files at hand: the offset vector of the active frame, as
    [GetCoordinateSystem] returns it, and the one-shot override flag. *)
Record CoordinateSystem : Type := mkCoordinateSystem {
  GetCoordinateSystem : Vector;
  OverrideActive : bool
}.

(** Modelled from the spec: the working planes (section 3, "one of three
    axis-pairs"). *)
Inductive Plane : Type := PlaneXY | PlaneXZ | PlaneYZ.

(** Modelled from the spec: the machine context (section 3), declared outside
    the files at hand; the fields are the ones the code reads and writes. *)
Record Machine : Type := mkMachine {
  vm_State : State;
  vm_CoordinateSystem : CoordinateSystem;
  Imperial : bool;
  AbsoluteMove : bool;
  AbsoluteArc : bool;
  MovePlane : Plane;
  MaxArcDeviation : float;
  MinArcLineLength : float;
  Positions : list Position
}.

Definition set_Positions (vm : Machine) (ps : list Position) : Machine :=
  mkMachine (vm_State vm) (vm_CoordinateSystem vm) (Imperial vm) (AbsoluteMove vm)
            (AbsoluteArc vm) (MovePlane vm) (MaxArcDeviation vm) (MinArcLineLength vm) ps.
Definition set_vm_State (vm : Machine) (s : State) : Machine :=
  mkMachine s (vm_CoordinateSystem vm) (Imperial vm) (AbsoluteMove vm)
            (AbsoluteArc vm) (MovePlane vm) (MaxArcDeviation vm) (MinArcLineLength vm)
            (Positions vm).

(** Modelled from the spec: a parsed command as the field accessor of
    section 6: single-letter words bound to numbers. *)
Definition Block : Type := list (ascii * float).

Fixpoint GetWord (stmt : Block) (address : ascii) : option float :=
  match stmt with
  | [] => None
  | (a, v) :: rest => if Ascii.eqb a address then Some v else GetWord rest address
  end.

Definition GetWordDefault (stmt : Block) (address : ascii) (def : float) : float :=
  match GetWord stmt address with
  | Some v => v
  | None => def
  end.

(** ** vm/positioning.go *)

Definition axesToMetric (vm : Machine) (x y z : float) : float * float * float :=
  if Imperial vm then (x * 25.4, y * 25.4, z * 25.4) else (x, y, z).

(** [vm.Positions[len(vm.Positions)-1]]: index -1 on an empty slice panics. *)
Definition curPos (vm : Machine) : result Position :=
  match Positions vm with
  | [] => Panic IndexOutOfRange
  | p :: ps => Ok (last ps p)
  end.

Definition move (x y z : float) (vm : Machine) : result Machine :=
  if is_nan x || is_nan y || is_nan z then Panic MoveNaN
  else Ok (set_Positions vm (Positions vm ++ [mkPosition (vm_State vm) x y z])).

(** The six results of [calcPos]. *)
Record Resolved : Type := mkResolved {
  newX : float; newY : float; newZ : float;
  newI : float; newJ : float; newK : float
}.

(** One of the three blocks of lines 47-84: an absent word keeps the previous
    coordinate; a present one is scaled and then offset. *)
Definition resolveAxis (word : option float) (imperial absoluteMove : bool)
           (prev offset : float) : float :=
  match word with
  | None => prev
  | Some v =>
      let v := if imperial then v * 25.4 else v in
      if negb absoluteMove then v + prev else v + offset
  end.

(** [calcPos].  While the override is active [vm.AbsoluteMove] is true for the
    body and the deferred function puts the old value back, so the machine
    itself is as before on return and only the results are modelled. *)
Definition calcPos (vm : Machine) (stmt : Block) : result Resolved :=
  pos <- curPos vm ;;
  let coordinateSystem := GetCoordinateSystem (vm_CoordinateSystem vm) in
  let absoluteMove :=
    if OverrideActive (vm_CoordinateSystem vm) then true else AbsoluteMove vm in
  let newX := resolveAxis (GetWord stmt "X"%char) (Imperial vm) absoluteMove
                          (pos_X pos) (vec_X coordinateSystem) in
  let newY := resolveAxis (GetWord stmt "Y"%char) (Imperial vm) absoluteMove
                          (pos_Y pos) (vec_Y coordinateSystem) in
  let newZ := resolveAxis (GetWord stmt "Z"%char) (Imperial vm) absoluteMove
                          (pos_Z pos) (vec_Z coordinateSystem) in
  let newI := GetWordDefault stmt "I"%char 0 in
  let newJ := GetWordDefault stmt "J"%char 0 in
  let newK := GetWordDefault stmt "K"%char 0 in
  let newI := if Imperial vm then newI * 25.4 else newI in
  let newJ := if Imperial vm then newJ * 25.4 else newJ in
  let newK := if Imperial vm then newK * 25.4 else newK in
  if negb (AbsoluteArc vm) then
    Ok (mkResolved newX newY newZ
                   (newI + pos_X pos) (newJ + pos_Y pos) (newK + pos_Z pos))
  else
    (* line 103 adds the Z offset to newZ, not to newK *)
    Ok (mkResolved newX newY (newZ + vec_Z coordinateSystem)
                   (newI + vec_X coordinateSystem) (newJ + vec_Y coordinateSystem) newK).

Section Arc.

(** The functions of package math without a primitive counterpart, and Go's
    conversion [int(f)], whose result outside the int range is left to the
    platform. *)
Variable Atan2 : float -> float -> float.
Variables Cos Sin Acos Ceil : float -> float.
Variable int_of_float64 : float -> Z.

(** The eight locals the plane switch of lines 135-151 assigns. *)
Record ArcFrame : Type := mkArcFrame {
  s1 : float; s2 : float; s3 : float;
  e1 : float; e2 : float; e3 : float;
  c1 : float; c2 : float
}.

Definition arcFrame (plane : Plane) (sp : Position) (x y z i j k : float) : ArcFrame :=
  match plane with
  | PlaneXY => mkArcFrame (pos_X sp) (pos_Y sp) (pos_Z sp) x y z i j
  | PlaneXZ => mkArcFrame (pos_Z sp) (pos_X sp) (pos_Y sp) z x y k i
  | PlaneYZ => mkArcFrame (pos_Y sp) (pos_Z sp) (pos_X sp) y z x j k
  end.

(** The closure [add] of the same switch. *)
Definition add (plane : Plane) (x y z : float) (vm : Machine) : result Machine :=
  match plane with
  | PlaneXY => move x y z vm
  | PlaneXZ => move y z x vm
  | PlaneYZ => move z x y vm
  end.

Definition arcRadius1 (f : ArcFrame) : float :=
  sqrt (Pow2 (c1 f - s1 f) + Pow2 (c2 f - s2 f)).
Definition arcRadius2 (f : ArcFrame) : float :=
  sqrt (Pow2 (c1 f - e1 f) + Pow2 (c2 f - e2 f)).
Definition arcDeviation (f : ArcFrame) : float :=
  abs ((arcRadius2 f - arcRadius1 f) / arcRadius1 f) * 100.
Definition arcRDiff (f : ArcFrame) : float :=
  abs (arcRadius2 f - arcRadius1 f).

(** Lines 153-165, "Perform arc verification". *)
Definition arcVerify (f : ArcFrame) : result unit :=
  if (arcRadius1 f =? 0) || (arcRadius2 f =? 0) then Panic InvalidArc
  else if (fgt (arcRDiff f) 0.005 && fgt (arcDeviation f) 0.1) || fgt (arcRDiff f) 0.5
       then Panic (RadiusDeviation (arcDeviation f) (arcRDiff f))
       else Ok tt.

(** Lines 167-184: the swept angle. *)
Definition arcAngleDiff (clockwise : bool) (theta1 theta2 rotations : float) : float :=
  let angleDiff := theta2 - theta1 in
  let angleDiff :=
    if (angleDiff <? 0) && negb clockwise then angleDiff + 2 * Pi
    else if fgt angleDiff 0 && clockwise then angleDiff - 2 * Pi
    else angleDiff in
  let rotations := rotations - 1 in
  if clockwise then angleDiff - rotations * 2 * Pi
  else angleDiff + rotations * 2 * Pi.

(** Lines 186-199: the step count. *)
Definition arcStepCount (vm : Machine) (f : ArcFrame) (angleDiff : float) : Z :=
  let radius1 := arcRadius1 f in
  let steps := 1%Z in
  let steps :=
    if MaxArcDeviation vm <? radius1
    then int_of_float64
           (Ceil (abs (angleDiff / (2 * Acos (1 - MaxArcDeviation vm / radius1)))))
    else steps in
  let arcLen := abs angleDiff * sqrt (Pow2 radius1 + Pow2 ((e3 f - s3 f) / angleDiff)) in
  let steps2 := int_of_float64 (arcLen / MinArcLineLength vm) in
  if (steps >? steps2)%Z then steps2 else steps.

(** The loop of lines 205-210, [count] iterations from index [i] on.  The
    counter and [steps] are Go [int]s; the step counts of an arc are far from
    the end of their range and they are integers without bound here. *)
Fixpoint arcLoop (count : nat) (i : Z) (plane : Plane) (f : ArcFrame)
         (theta1 angleDiff : float) (steps : Z) (vm : Machine) : result Machine :=
  match count with
  | O => Ok vm
  | S count' =>
      let angle := theta1 + angleDiff / float64_of_int steps * float64_of_int i in
      let a1 := c1 f + arcRadius1 f * Cos angle in
      let a2 := c2 f + arcRadius1 f * Sin angle in
      let a3 := s3 f + (e3 f - s3 f) / float64_of_int steps * float64_of_int i in
      vm' <- add plane a1 a2 a3 vm ;;
      arcLoop count' (i + 1) plane f theta1 angleDiff steps vm'
  end.

(** Lines 167-214: the approximation itself, once the request is verified. *)
Definition arcApproximate (clockwise : bool) (rotations : float) (plane : Plane)
           (f : ArcFrame) (vm : Machine) : result Machine :=
  let theta1 := Atan2 (s2 f - c2 f) (s1 f - c1 f) in
  let theta2 := Atan2 (e2 f - c2 f) (e1 f - c1 f) in
  let angleDiff := arcAngleDiff clockwise theta1 theta2 rotations in
  let steps := arcStepCount vm f angleDiff in
  vm <- (if (steps >? 0)%Z
         then arcLoop (Z.to_nat (steps + 1)) 0 plane f theta1 angleDiff steps vm
         else Ok vm) ;;
  add plane (e1 f) (e2 f) (e3 f) vm.

(** [arc].  The deferred function puts the old motion mode back on the way
    out; a panic leaves through [Panic] and carries no machine. *)
Definition arc (x y z i j k rotations : float) (vm : Machine) : result Machine :=
  sp <- curPos vm ;;
  let clockwise := MoveModes_eqb (MoveMode (vm_State vm)) MoveModeCWArc in
  if is_nan x || is_nan y || is_nan z || is_nan i || is_nan j || is_nan k
  then Panic ArcNaN
  else if rotations <? 1 then Panic ArcRotations
  else
    let oldState := MoveMode (vm_State vm) in
    let vm := set_vm_State vm (set_MoveMode (vm_State vm) MoveModeLinear) in
    let plane := MovePlane vm in
    let f := arcFrame plane sp x y z i j k in
    _ <- arcVerify f ;;
    vm <- arcApproximate clockwise rotations plane f vm ;;
    Ok (set_vm_State vm (set_MoveMode (vm_State vm) oldState)).

End Arc.

Definition dwell (seconds : float) (vm : Machine) : result Machine :=
  curPos <- curPos vm ;;
  let st := set_MoveMode (set_DwellTime (pos_State curPos) seconds) MoveModeDwell in
  Ok (set_Positions vm (Positions vm ++ [set_pos_State curPos st])).

(** ** vm/utils.go *)

(** The loop of [FindSafetyHeight], which [Return] repeats in lines 93-98:
    the running maximum starts from the zero value of [maxz]. *)
Definition FindSafetyHeight (vm : Machine) : float :=
  fold_left (fun maxz m => if fgt (pos_Z m) maxz then pos_Z m else maxz) (Positions vm) 0.

(** The two [if] blocks each branch of [Return] applies to its last waypoint. *)
Definition disable (disableSpindle disableCoolant : bool) (p : Position) : Position :=
  let p := if disableSpindle
           then set_pos_State p (set_SpindleEnabled (pos_State p) false) else p in
  if disableCoolant
  then set_pos_State p (set_FloodCoolant (set_MistCoolant (pos_State p) false) false)
  else p.

Definition Return (disableSpindle disableCoolant : bool) (vm : Machine) : Machine :=
  let maxz := FindSafetyHeight vm in
  match Positions vm with
  | [] => vm
  | p :: ps =>
      let lastPos := last ps p in
      if (pos_X lastPos =? 0) && (pos_Y lastPos =? 0) && (pos_Z lastPos =? 0) then
        let lastPos := disable disableSpindle disableCoolant lastPos in
        set_Positions vm (removelast (Positions vm) ++ [lastPos])
      else if (pos_X lastPos =? 0) && (pos_Y lastPos =? 0) && fne (pos_Z lastPos) 0 then
        let lastPos := set_pos_MoveMode (set_pos_Z lastPos 0) MoveModeRapid in
        let lastPos := disable disableSpindle disableCoolant lastPos in
        set_Positions vm (Positions vm ++ [lastPos])
      else if pos_Z lastPos =? maxz then
        let move1 := set_pos_MoveMode (set_pos_Y (set_pos_X lastPos 0) 0) MoveModeRapid in
        let move2 := set_pos_Z move1 0 in
        let move2 := disable disableSpindle disableCoolant move2 in
        set_Positions vm ((Positions vm ++ [move1]) ++ [move2])
      else
        let move1 := set_pos_MoveMode (set_pos_Z lastPos maxz) MoveModeRapid in
        let move2 := set_pos_Y (set_pos_X move1 0) 0 in
        let move3 := set_pos_Z move2 0 in
        let move3 := disable disableSpindle disableCoolant move3 in
        set_Positions vm (((Positions vm ++ [move1]) ++ [move2]) ++ [move3])
  end.

(** The named results of [Info]. *)
Record InfoResult : Type := mkInfo {
  minx : float; miny : float; minz : float;
  maxx : float; maxy : float; maxz : float;
  feedrates : list float
}.

(** One of the three [if / else if] updates of the loop body. *)
Definition infoAxis (v lo hi : float) : float * float :=
  if v <? lo then (v, hi)
  else if fgt v hi then (lo, v)
  else (lo, hi).

Definition infoStep (r : InfoResult) (pos : Position) : InfoResult :=
  let '(minx', maxx') := infoAxis (pos_X pos) (minx r) (maxx r) in
  let '(miny', maxy') := infoAxis (pos_Y pos) (miny r) (maxy r) in
  let '(minz', maxz') := infoAxis (pos_Z pos) (minz r) (maxz r) in
  let feedrateFound := existsb (fun feed => feed =? Feedrate (pos_State pos)) (feedrates r) in
  let feedrates' :=
    if negb feedrateFound then feedrates r ++ [Feedrate (pos_State pos)] else feedrates r in
  mkInfo minx' miny' minz' maxx' maxy' maxz' feedrates'.

Definition Info (vm : Machine) : InfoResult :=
  fold_left infoStep (Positions vm) (mkInfo 0 0 0 0 0 0 []).

(** ** The optimizer passes *)

(** *** OptDrillSpeed *)

(** The closure [fastDrill]: the deepest earlier drill at the position, the
    push on [drillStack], and the rewritten move(s). *)
Definition drillDepth (drillStack : list Position) (pos : Position) : float * bool :=
  fold_left
    (fun (acc : float * bool) m =>
       let '(depth, found) := acc in
       if (pos_X m =? pos_X pos) && (pos_Y m =? pos_Y pos)
       then if pos_Z m <? depth then (pos_Z m, true) else (depth, found)
       else (depth, found))
    drillStack (0, false).

Definition fastDrill (drillStack : list Position) (pos : Position)
  : list Position * (Position * Position * bool) :=
  let '(depth, found) := drillDepth drillStack pos in
  let drillStack := drillStack ++ [pos] in
  if found then
    if fge (pos_Z pos) depth then
      let pos := set_pos_MoveMode pos MoveModeRapid in
      (drillStack, (pos, pos, false))
    else
      let p := set_pos_MoveMode (set_pos_Z pos depth) MoveModeRapid in
      (drillStack, (p, pos, true))
  else (drillStack, (pos, pos, false)).

Record DrillState : Type := mkDrillState {
  d_lastx : float; d_lasty : float; d_lastz : float;
  d_npos : list Position;
  drillStack : list Position
}.

(** The condition of line 57. *)
Definition drillEligible (lastx lasty lastz : float) (m : Position) : bool :=
  (pos_X m =? lastx) && (pos_Y m =? lasty) && (pos_Z m <? lastz)
  && MoveModes_eqb (MoveMode (pos_State m)) MoveModeLinear.

Definition drillStep (st : DrillState) (m : Position) : DrillState :=
  if drillEligible (d_lastx st) (d_lasty st) (d_lastz st) m then
    let '(stack, (posn, poso, shouldinsert)) := fastDrill (drillStack st) m in
    let npos := if shouldinsert then d_npos st ++ [posn] else d_npos st in
    let npos := npos ++ [poso] in
    mkDrillState (pos_X m) (pos_Y m) (pos_Z m) npos stack
  else
    mkDrillState (pos_X m) (pos_Y m) (pos_Z m) (d_npos st ++ [m]) (drillStack st).

Definition drillSpeed_positions (ps : list Position) : list Position :=
  d_npos (fold_left drillStep ps (mkDrillState 0 0 0 [] [])).

Definition OptDrillSpeed (vm : Machine) : Machine :=
  set_Positions vm (drillSpeed_positions (Positions vm)).

(** *** OptRouteGrouping *)

(** [type Set []Position]. *)
Definition PSet : Type := list Position.

Record ScanState : Type := mkScanState {
  lastx : float; lasty : float; lastz : float;
  sets : list PSet;
  curSet : PSet;
  safetyHeight : float;
  drillSpeed : float;
  sequenceStarted : bool
}.

(** The label [updateLast], lines 138-142. *)
Definition updateLast (st : ScanState) (m : Position) : ScanState :=
  mkScanState (pos_X m) (pos_Y m) (pos_Z m) (sets st) (curSet st)
              (if fgt (pos_Z m) (safetyHeight st) then pos_Z m else safetyHeight st)
              (drillSpeed st) (sequenceStarted st).

(** Lines 130-136, then [updateLast]. *)
Definition regularMove (st : ScanState) (m : Position) : result ScanState :=
  if sequenceStarted st then
    if fgt (pos_Z m) 0 then Panic MoveAboveStock
    else Ok (updateLast
               (mkScanState (lastx st) (lasty st) (lastz st) (sets st) (curSet st ++ [m])
                            (safetyHeight st) (drillSpeed st) (sequenceStarted st)) m)
  else Ok (updateLast st m).

(** The body of the scan loop, lines 97-142. *)
Definition scanStep (st : ScanState) (m : Position) : result ScanState :=
  if fne (pos_Z m) (lastz st) && (fne (pos_X m) (lastx st) || fne (pos_Y m) (lasty st))
  then Panic ComplexZMotion
  else if (pos_X m =? lastx st) && (pos_Y m =? lasty st) then
    if fge (lastz st) 0 && (pos_Z m <? 0) then
      (* Down move *)
      if MoveModes_eqb (MoveMode (pos_State m)) MoveModeLinear
         && fgt (Feedrate (pos_State m)) (drillSpeed st)
      then
        if fne (drillSpeed st) 0 then Panic MultipleDrillFeedrates
        else regularMove
               (mkScanState (lastx st) (lasty st) (lastz st) (sets st) (curSet st)
                            (safetyHeight st) (Feedrate (pos_State m)) true) m
      else regularMove
             (mkScanState (lastx st) (lasty st) (lastz st) (sets st) (curSet st)
                          (safetyHeight st) (drillSpeed st) true) m
    else if (lastz st <? 0) && fge (pos_Z m) 0 then
      (* Up move: not appended to the set *)
      Ok (updateLast
            (mkScanState (lastx st) (lasty st) (lastz st)
                         (if sequenceStarted st then sets st ++ [curSet st] else sets st)
                         [] (safetyHeight st) (drillSpeed st) false) m)
    else regularMove st m
  else
    if (pos_Z m <? 0) && MoveModes_eqb (MoveMode (pos_State m)) MoveModeRapid
    then Panic RapidInStock
    else regularMove st m.

(** Lines 145-159: the checks after the scan. *)
Definition scanChecks (st : ScanState) : result unit :=
  if safetyHeight st =? 0 then Panic NoSafetyHeight
  else if drillSpeed st =? 0 then Panic NoDrillFeedrate
  else match curSet st with
       | [p] =>
           if fne (pos_Z p) (safetyHeight st) || fne (lastz st) (safetyHeight st)
              || fne (pos_X p) 0 || fne (pos_Y p) 0
           then Panic IncompleteFinalSet else Ok tt
       | [] => Ok tt
       | _ => Panic IncompleteFinalSet
       end.

(** The closure [xyDiff]. *)
Definition xyDiff (pos cur : Vector) : float :=
  let j := Diff cur pos in
  Norm (mkVector (vec_X j) (vec_Y j) 0).

(** The body of the inner loop of the sort, lines 177-189. *)
Definition selectStep (sets : list PSet) (curVec : Vector) (selectedSet : Z) (idx : nat)
  : result Z :=
  if (selectedSet =? -1)%Z then Ok (Z.of_nat idx)
  else
    s_np <- index sets (Z.of_nat idx) ;;
    np <- index s_np 0 ;;
    s_pp <- index sets selectedSet ;;
    pp <- index s_pp 0 ;;
    let diff := xyDiff (Vector_of np) curVec in
    let other := xyDiff (Vector_of pp) curVec in
    if diff <? other then Ok (Z.of_nat idx)
    else if fgt (pos_Z np) (pos_Z pp) then Ok (Z.of_nat idx)
    else Ok selectedSet.

(** [for idx, _ := range sets]. *)
Definition selectSet (sets : list PSet) (curVec : Vector) (selectedSet : Z) : result Z :=
  foldM (selectStep sets curVec) (seq 0 (length sets)) selectedSet.

(** The loop [for len(sets) > 0], lines 175-195; every round takes one set
    out, so [fuel] rounds with [fuel = len(sets)] run it to its end. *)
Fixpoint sortSets (fuel : nat) (sets : list PSet) (curVec : Vector) (selectedSet : Z)
         (sortedSets : list PSet) : result (list PSet) :=
  match sets, fuel with
  | [], _ => Ok sortedSets
  | _, O => Panic IndexOutOfRange
  | _, S fuel' =>
      selectedSet <- selectSet sets curVec selectedSet ;;
      s <- index sets selectedSet ;;
      p <- index s 0 ;;
      let curVec := Vector_of p in
      let sortedSets := sortedSets ++ [s] in
      let sets := firstn (Z.to_nat selectedSet) sets
                  ++ skipn (Z.to_nat (selectedSet + 1)) sets in
      sortSets fuel' sets curVec (-1) sortedSets
  end.

(** The closure [moveTo], lines 204-234, on the stack [newPos]. *)
Definition moveTo (tolerance safetyHeight drillSpeed : float)
           (newPos : list Position) (pos : Position) : result (list Position) :=
  curPos <- index newPos (Z.of_nat (length newPos) - 1) ;;
  if xyDiff (Vector_of curPos) (Vector_of pos) <? tolerance then
    let newPos :=
      if fne (pos_X curPos) (pos_X pos) || fne (pos_Y curPos) (pos_Y pos) then
        let step1 := set_pos_MoveMode curPos MoveModeLinear in
        let step1 := set_pos_Y (set_pos_X step1 (pos_X pos)) (pos_Y pos) in
        newPos ++ [step1]
      else newPos in
    Ok (newPos ++ [pos])
  else
    let step1 := set_pos_MoveMode (set_pos_Z curPos safetyHeight) MoveModeRapid in
    let step2 := set_pos_Y (set_pos_X step1 (pos_X pos)) (pos_Y pos) in
    let step3 := set_pos_Z step2 (pos_Z pos) in
    let step3 := set_pos_MoveMode step3 MoveModeLinear in
    let step3 := set_pos_State step3 (set_Feedrate (pos_State step3) drillSpeed) in
    Ok (((newPos ++ [step1]) ++ [step2]) ++ [step3]).

(** Lines 236-244: a set is entered with [moveTo], its other points follow. *)
Definition emitSet (tolerance safetyHeight drillSpeed : float)
           (newPos : list Position) (m : PSet) : result (list Position) :=
  match m with
  | [] => Ok newPos
  | p :: rest =>
      newPos <- moveTo tolerance safetyHeight drillSpeed newPos p ;;
      Ok (newPos ++ rest)
  end.

(** What [OptRouteGrouping] computes from the waypoints it reads, taken on
    its own: the new stack, or the panic that stops it. *)
Definition routeGrouping (tolerance : float) (positions : list Position)
  : result (list Position) :=
  st <- foldM scanStep positions (mkScanState 0 0 0 [] [] 0 0 false) ;;
  _ <- scanChecks st ;;
  sortedSets <- sortSets (length (sets st)) (sets st) (mkVector 0 0 0) 0 [] ;;
  origin <- index positions 0 ;;
  foldM (emitSet tolerance (safetyHeight st) (drillSpeed st)) sortedSets [origin].

(** The receiver of a method is a pointer to the machine: what the method
    has written by the time it panics stays written, and a deferred function
    that recovers the panic returns with the machine in that state.  An
    action gives the machine as it leaves it, beside its result or its
    panic. *)
Definition Action (A : Type) : Type := Machine -> Machine * result A.

(** A computation on local variables. *)
Definition onLocals {A : Type} (r : result A) : Action A := fun vm => (vm, r).

(** A read of [vm.Positions], and the assignment to it. *)
Definition readPositions : Action (list Position) := fun vm => (vm, Ok (Positions vm)).
Definition writePositions (ps : list Position) : Action unit :=
  fun vm => (set_Positions vm ps, Ok tt).

Definition andThen {A B : Type} (a : Action A) (k : A -> Action B) : Action B :=
  fun vm =>
    match a vm with
    | (vm', Ok x) => k x vm'
    | (vm', Panic p) => (vm', Panic p)
    end.

Notation "x <~ a ;; k" := (andThen a (fun x => k))
  (at level 61, a at next level, right associativity) : go_scope.

(** The deferred function of lines 79-83: a recovered panic becomes the
    returned error; without panic the method returns [nil]. *)
Definition recovered (body : Action unit) (vm : Machine) : Machine * option PanicValue :=
  match body vm with
  | (vm', Ok _) => (vm', None)
  | (vm', Panic r) => (vm', Some r)
  end.

(** The body of [OptRouteGrouping], lines 85-246, statement by statement:
    the scan ranges over [vm.Positions], the checks, the sort and the
    reconstruction work on local variables, line 198 reads
    [vm.Positions[0]], and line 246 assigns the new stack. *)
Definition OptRouteGrouping_body (tolerance : float) : Action unit :=
  positions <~ readPositions ;;
  st <~ onLocals (foldM scanStep positions (mkScanState 0 0 0 [] [] 0 0 false)) ;;
  _ <~ onLocals (scanChecks st) ;;
  sortedSets <~ onLocals (sortSets (length (sets st)) (sets st) (mkVector 0 0 0) 0 []) ;;
  positions <~ readPositions ;;
  origin <~ onLocals (index positions 0) ;;
  newPos <~ onLocals (foldM (emitSet tolerance (safetyHeight st) (drillSpeed st))
                            sortedSets [origin]) ;;
  writePositions newPos.

Definition OptRouteGrouping (tolerance : float) (vm : Machine)
  : Machine * option PanicValue :=
  recovered (OptRouteGrouping_body tolerance) vm.

(** *** OptBogusMoves *)

Record BogusState : Type := mkBogusState {
  xstate : float; ystate : float; zstate : float;
  lastvecX : float; lastvecY : float; lastvecZ : float;
  npos : list Position
}.

Definition isMotion (m : Position) : bool :=
  MoveModes_eqb (MoveMode (pos_State m)) MoveModeRapid
  || MoveModes_eqb (MoveMode (pos_State m)) MoveModeLinear.

(** The body of the loop, lines 277-298. *)
Definition bogusStep (st : BogusState) (m : Position) : result BogusState :=
  let dx := pos_X m - xstate st in
  let dy := pos_Y m - ystate st in
  let dz := pos_Z m - zstate st in
  if negb (MoveModes_eqb (MoveMode (pos_State m)) MoveModeRapid)
     && negb (MoveModes_eqb (MoveMode (pos_State m)) MoveModeLinear)
  then Ok (mkBogusState (pos_X m) (pos_Y m) (pos_Z m) 0 0 0 (npos st))
  else if (dx =? 0) && (dz =? 0) && (dy =? 0)
  then Ok (mkBogusState (pos_X m) (pos_Y m) (pos_Z m)
                        (lastvecX st) (lastvecY st) (lastvecZ st) (npos st))
  else
    let norm := sqrt (Pow2 dx + Pow2 dy + Pow2 dz) in
    let vecX := dx / norm in
    let vecY := dy / norm in
    let vecZ := dz / norm in
    if (lastvecX st =? vecX) && (lastvecY st =? vecY) && (lastvecZ st =? vecZ) then
      match npos st with
      | [] => Panic IndexOutOfRange
      | _ => Ok (mkBogusState (pos_X m) (pos_Y m) (pos_Z m)
                              (lastvecX st) (lastvecY st) (lastvecZ st)
                              (removelast (npos st) ++ [m]))
      end
    else Ok (mkBogusState (pos_X m) (pos_Y m) (pos_Z m) vecX vecY vecZ (npos st ++ [m])).

Definition bogusMoves (positions : list Position) : result (list Position) :=
  st <- foldM bogusStep positions (mkBogusState 0 0 0 0 0 0 []) ;;
  Ok (npos st).

Definition OptBogusMoves (vm : Machine) : result Machine :=
  npos <- bogusMoves (Positions vm) ;;
  Ok (set_Positions vm npos).

(** ** The bulk transforms of vm/utils.go *)

Definition set_SpindleSpeed (s : State) (v : float) : State :=
  mkState (Feedrate s) v (MoveMode s) (SpindleEnabled s) (SpindleClockwise s)
          (FloodCoolant s) (MistCoolant s) (ToolIndex s) (NextToolIndex s) (DwellTime s).
Definition set_SpindleClockwise (s : State) (b : bool) : State :=
  mkState (Feedrate s) (SpindleSpeed s) (MoveMode s) (SpindleEnabled s) b
          (FloodCoolant s) (MistCoolant s) (ToolIndex s) (NextToolIndex s) (DwellTime s).

(** The loops of the bulk transforms write [vm.Positions[idx]] in place and
    read nothing they have written: each is a map over the slice. *)
Definition FlipXY (vm : Machine) : Machine :=
  set_Positions vm
    (map (fun pos => set_pos_Y (set_pos_X pos (pos_Y pos)) (pos_X pos)) (Positions vm)).

Definition LimitFeedrate (feed : float) (vm : Machine) : Machine :=
  set_Positions vm
    (map (fun m => if fgt (Feedrate (pos_State m)) feed
                   then set_pos_State m (set_Feedrate (pos_State m) feed)
                   else m)
         (Positions vm)).

Definition FeedrateMultiplier (feedMultiplier : float) (vm : Machine) : Machine :=
  set_Positions vm
    (map (fun m => set_pos_State m
                     (set_Feedrate (pos_State m) (Feedrate (pos_State m) * feedMultiplier)))
         (Positions vm)).

Definition MoveMultiplier (moveMultiplier : float) (vm : Machine) : Machine :=
  set_Positions vm
    (map (fun m => mkPosition (pos_State m) (pos_X m * moveMultiplier)
                              (pos_Y m * moveMultiplier) (pos_Z m * moveMultiplier))
         (Positions vm)).

Definition EnforceSpindle (enabled clockwise : bool) (speed : float) (vm : Machine)
  : Machine :=
  set_Positions vm
    (map (fun m => set_pos_State m
                     (set_SpindleClockwise
                        (set_SpindleEnabled (set_SpindleSpeed (pos_State m) speed) enabled)
                        clockwise))
         (Positions vm)).

(** *** SetSafetyHeight *)

(** The error of [SetSafetyHeight]; its message is formatted from [nextz]. *)
Inductive SafetyHeightError : Type :=
| CollidesWithFeedHeight (nextz : float).

(** The loop of lines 68-73: the highest Z below [maxz] and above zero. *)
Definition nextLowerZ (maxz : float) (ps : list Position) : float :=
  fold_left (fun nextz m => if (pos_Z m <? maxz) && fgt (pos_Z m) nextz
                            then pos_Z m else nextz)
            ps 0.

(** The loop of lines 80-86 from the state [lastx], [lasty] on. *)
Fixpoint raiseSafetyHeight (maxz height lastx lasty : float) (ps : list Position)
  : list Position :=
  match ps with
  | [] => []
  | m :: rest =>
      (if (lastx =? pos_X m) && (lasty =? pos_Y m) && (pos_Z m =? maxz)
       then set_pos_Z m height else m)
        :: raiseSafetyHeight maxz height (pos_X m) (pos_Y m) rest
  end.

Definition SetSafetyHeight (height : float) (vm : Machine)
  : Machine * option SafetyHeightError :=
  let maxz := FindSafetyHeight vm in
  let nextz := nextLowerZ maxz (Positions vm) in
  if height <=? nextz then (vm, Some (CollidesWithFeedHeight nextz))
  else (set_Positions vm (raiseSafetyHeight maxz height 0 0 (Positions vm)), None).

(** *** OptLiftSpeed *)

(** The loop of [OptLiftSpeed] from the state [lastx], [lasty], [lastz] on;
    the write goes to the motion mode, the state is read from the copy [m]. *)
Fixpoint liftSpeed (lastx lasty lastz : float) (ps : list Position) : list Position :=
  match ps with
  | [] => []
  | m :: rest =>
      (if (pos_X m =? lastx) && (pos_Y m =? lasty) && fgt (pos_Z m) lastz
       then set_pos_MoveMode m MoveModeRapid else m)
        :: liftSpeed (pos_X m) (pos_Y m) (pos_Z m) rest
  end.

Definition OptLiftSpeed (vm : Machine) : Machine :=
  set_Positions vm (liftSpeed 0 0 0 (Positions vm)).

(** *** OptVector *)

Record VectorState : Type := mkVectorState {
  vec1 : Vector; vec2 : Vector; vec3 : Vector;
  ready : Z;
  lastMoveMode : MoveModes;
  v_npos : list Position
}.

(** The label [appendpos]. *)
Definition appendpos (st : VectorState) (m : Position) : VectorState :=
  mkVectorState (vec1 st) (vec2 st) (vec3 st) (ready st) (lastMoveMode st) (v_npos st ++ [m]).

(** Lines 342-348: the test on the window and the merge. *)
Definition vectorMerge (tolerance : float) (st : VectorState) (m : Position)
  : result VectorState :=
  let length1 := Norm (Diff (vec1 st) (vec2 st)) + Norm (Diff (vec2 st) (vec3 st)) in
  let length2 := Norm (Diff (vec1 st) (vec3 st)) in
  if length1 - length2 <? tolerance then
    match v_npos st with
    | [] => Panic IndexOutOfRange
    | _ => Ok (mkVectorState (vec1 st) (vec1 st) (vec3 st) (ready st) (lastMoveMode st)
                             (removelast (v_npos st) ++ [m]))
    end
  else Ok (appendpos st m).

(** The body of the loop, lines 315-351. *)
Definition vectorStep (tolerance : float) (st : VectorState) (m : Position)
  : result VectorState :=
  if negb (MoveModes_eqb (MoveMode (pos_State m)) MoveModeLinear)
     && negb (MoveModes_eqb (MoveMode (pos_State m)) MoveModeRapid)
  then Ok (appendpos (mkVectorState (vec1 st) (vec2 st) (vec3 st) 0 (lastMoveMode st)
                                    (v_npos st)) m)
  else
    let st :=
      if negb (MoveModes_eqb (MoveMode (pos_State m)) (lastMoveMode st))
      then mkVectorState (vec1 st) (vec2 st) (vec3 st) 0 (MoveMode (pos_State m)) (v_npos st)
      else st in
    if (ready st =? 0)%Z then
      Ok (appendpos (mkVectorState (Vector_of m) (vec2 st) (vec3 st) (ready st + 1)
                                   (lastMoveMode st) (v_npos st)) m)
    else if (ready st =? 1)%Z then
      Ok (appendpos (mkVectorState (vec1 st) (Vector_of m) (vec3 st) (ready st + 1)
                                   (lastMoveMode st) (v_npos st)) m)
    else if (ready st =? 2)%Z then
      vectorMerge tolerance
                  (mkVectorState (vec1 st) (vec2 st) (Vector_of m) (ready st + 1)
                                 (lastMoveMode st) (v_npos st)) m
    else
      vectorMerge tolerance
                  (mkVectorState (vec2 st) (vec3 st) (Vector_of m) (ready st)
                                 (lastMoveMode st) (v_npos st)) m.

(** The run of the loop from a given value of [lastMoveMode]; the variable is
    an [int] and starts at its zero value, the first of the motion modes. *)
Definition vectorPositions (mode0 : MoveModes) (tolerance : float)
           (positions : list Position) : result (list Position) :=
  st <- foldM (vectorStep tolerance) positions
              (mkVectorState (mkVector 0 0 0) (mkVector 0 0 0) (mkVector 0 0 0) 0 mode0 []) ;;
  Ok (v_npos st).

Definition OptVector (tolerance : float) (vm : Machine) : result Machine :=
  npos <- vectorPositions MoveModeNone tolerance (Positions vm) ;;
  Ok (set_Positions vm npos).

(** ** Notions the statements use *)

(** Section 4.1 read as a function: an absent word takes the previous
    coordinate as its default, and that default then goes through "the same
    relative/absolute adjustment" as a present value. *)
Definition spec_resolveAxis (word : option float) (imperial absoluteMove : bool)
           (prev offset : float) : float :=
  let v := match word with
           | None => prev
           | Some v => if imperial then v * 25.4 else v
           end in
  if negb absoluteMove then v + prev else v + offset.



Definition atOrigin (p : Position) : bool :=
  (pos_X p =? 0) && (pos_Y p =? 0) && (pos_Z p =? 0).





(** A waypoint [move] accepts: no coordinate is NaN. *)
Definition noNaN (p : Position) : bool :=
  negb (is_nan (pos_X p) || is_nan (pos_Y p) || is_nan (pos_Z p)).

(** The place of a non-NaN float in the order of the reals with the two
    infinities: the class (sign and kind) first, then exponent and mantissa,
    both negated on the negative side. *)
Definition orderKey (f : spec_float) : Z * Z * Z :=
  match f with
  | S754_infinity true => (-2, 0, 0)%Z
  | S754_finite true m e => (-1, - e, Z.neg m)%Z
  | S754_zero _ | S754_nan => (0, 0, 0)%Z
  | S754_finite false m e => (1, e, Z.pos m)%Z
  | S754_infinity false => (2, 0, 0)%Z
  end.

Definition keyLt (a b : Z * Z * Z) : Prop :=
  let '(a1, a2, a3) := a in
  let '(b1, b2, b3) := b in
  (a1 < b1 \/ (a1 = b1 /\ (a2 < b2 \/ (a2 = b2 /\ a3 < b3))))%Z.

Definition keyLe (a b : Z * Z * Z) : Prop :=
  let '(a1, a2, a3) := a in
  let '(b1, b2, b3) := b in
  (a1 < b1 \/ (a1 = b1 /\ (a2 < b2 \/ (a2 = b2 /\ a3 <= b3))))%Z.

Definition fkey (x : float) : Z * Z * Z := orderKey (Prim2SF x).

(** One axis of the [Info] loop taken on its own. *)
Definition axisFold (vals : list float) (lo hi : float) : float * float :=
  fold_left (fun acc v => infoAxis v (fst acc) (snd acc)) vals (lo, hi).

(** What the loop of [OptDrillSpeed] appends for the waypoints [ps] when it
    enters them with the given last coordinates and drill stack. *)
Fixpoint drillEmit (lastx lasty lastz : float) (stack : list Position)
         (ps : list Position) : list Position :=
  match ps with
  | [] => []
  | m :: rest =>
      if drillEligible lastx lasty lastz m then
        let '(stack', (posn, poso, shouldinsert)) := fastDrill stack m in
        (if shouldinsert then [posn] else [])
          ++ poso :: drillEmit (pos_X m) (pos_Y m) (pos_Z m) stack' rest
      else m :: drillEmit (pos_X m) (pos_Y m) (pos_Z m) stack rest
  end.

(** The test of [fastDrill] for an earlier drill at the position of [pos]. *)
Definition sameSpot (e pos : Position) : bool :=
  (pos_X e =? pos_X pos) && (pos_Y e =? pos_Y pos).

(** How the drill stack of a second run stands to that of the first: it
    holds no other drills, and for every drill below zero of the first it
    holds one below zero at the same spot. *)
Definition stackCovers (stack1 stack2 : list Position) : Prop :=
  (forall e, In e stack2 -> In e stack1) /\
  (forall e1, In e1 stack1 -> (pos_Z e1 <? 0) = true ->
              exists e2, In e2 stack2 /\ sameSpot e2 e1 = true /\ (pos_Z e2 <? 0) = true) /\
  (forall e, In e stack1 -> is_nan (pos_Z e) = false).

(** The notions of [OptBogusMoves], read off the toolpath.  The toolpath
    read so far is taken last waypoint first. *)

(** The waypoint a displacement is measured from: the last one read,
    whatever its mode, and the zero point before the first. *)
Definition headPoint (rpre : list Position) : Vector :=
  match rpre with
  | [] => mkVector 0 0 0
  | p :: _ => Vector_of p
  end.

Definition precedingPoint (pre : list Position) : Vector := headPoint (rev pre).

Definition displacement (from : Vector) (m : Position) : Vector :=
  mkVector (pos_X m - vec_X from) (pos_Y m - vec_Y from) (pos_Z m - vec_Z from).

Definition zeroLength (d : Vector) : bool :=
  (vec_X d =? 0) && (vec_Z d =? 0) && (vec_Y d =? 0).

Definition unitVector (d : Vector) : Vector :=
  let norm := sqrt (Pow2 (vec_X d) + Pow2 (vec_Y d) + Pow2 (vec_Z d)) in
  mkVector (vec_X d / norm) (vec_Y d / norm) (vec_Z d / norm).

(** Equal directions, component by component under float64 [==]. *)
Definition sameDirection (tracked vec : Vector) : bool :=
  (vec_X tracked =? vec_X vec) && (vec_Y tracked =? vec_Y vec)
  && (vec_Z tracked =? vec_Z vec).

(** The tracked direction: the unit vector of the latest rapid or linear move
    of non-zero displacement, and zero when a waypoint that is no move has
    come since, or when there has been none. *)
Fixpoint trackedFrom (rpre : list Position) : Vector :=
  match rpre with
  | [] => mkVector 0 0 0
  | m :: before =>
      if isMotion m then
        let d := displacement (headPoint before) m in
        if zeroLength d then trackedFrom before else unitVector d
      else mkVector 0 0 0
  end.

Definition trackedDirection (pre : list Position) : Vector := trackedFrom (rev pre).

(** How the state of the loop stands to the toolpath it has read: its last
    point is the preceding waypoint, and its last vector is the tracked
    direction, the same float or an equal one in every component. *)
Definition sameFloat (a b : float) : Prop := a = b \/ (a =? b) = true.

Definition bogusInv (pre : list Position) (st : BogusState) : Prop :=
  mkVector (xstate st) (ystate st) (zstate st) = precedingPoint pre /\
  sameFloat (lastvecX st) (vec_X (trackedDirection pre)) /\
  sameFloat (lastvecY st) (vec_Y (trackedDirection pre)) /\
  sameFloat (lastvecZ st) (vec_Z (trackedDirection pre)).

(** ** Sample data *)

Definition idle : State := mkState 0 0 MoveModeNone false false false false 0 0 0.
Definition feed (mode : MoveModes) (f : float) : State :=
  mkState f 12000 mode true true true false 1 0 0.
Definition origin : Position := mkPosition idle 0 0 0.
Definition rapidTo (x y z : float) : Position := mkPosition (feed MoveModeRapid 100) x y z.
Definition linearTo (x y z : float) : Position := mkPosition (feed MoveModeLinear 100) x y z.
Definition dwellAt (x y z : float) : Position :=
  mkPosition (set_DwellTime (feed MoveModeDwell 100) 2) x y z.

Definition machineOf (ps : list Position) : Machine :=
  mkMachine idle (mkCoordinateSystem (mkVector 0 0 0) false) false true false PlaneXY
            0.01 0.01 ps.

(** An absolute-arc machine in a work frame offset by (1, 2, 5), and an arc
    command with every word present. *)
Definition offsetMachine : Machine :=
  mkMachine (feed MoveModeCWArc 100) (mkCoordinateSystem (mkVector 1 2 5) false)
            false true true PlaneXY 0.01 0.01 [origin].
Definition arcBlock : Block :=
  [("X"%char, 10); ("Y"%char, 0); ("Z"%char, 2);
   ("I"%char, 3); ("J"%char, 4); ("K"%char, 1)].

(** A relative-arc machine in a frame offset by 5 in X, standing at X = 3. *)
Definition frameMachine : Machine :=
  mkMachine (feed MoveModeLinear 100) (mkCoordinateSystem (mkVector 5 0 0) false)
            false true false PlaneXY 0.01 0.01 [origin; linearTo 3 0 0].

(** Stand-ins for the math functions in worked examples: [truncate] is
    [int(f)] on the finite floats; [axisAtan2] is [math.Atan2] at the points
    of the X axis, the only ones the examples put to it. *)
Definition truncate (f : float) : Z :=
  match Prim2SF f with
  | S754_finite s m e =>
      let v := if (0 <=? e)%Z then (Z.pos m * 2 ^ e)%Z else (Z.pos m / 2 ^ (- e))%Z in
      if s then (- v)%Z else v
  | _ => 0%Z
  end.
Definition axisAtan2 (y x : float) : float := if x <? 0 then Pi else 0.
Definition unused (a : float) : float := a.

(** A machine standing at (10,0,0), about to cut a clockwise arc in the XY
    plane, with tunables that leave the arc to its end point alone. *)
Definition arcMachine : Machine :=
  mkMachine (feed MoveModeCWArc 100) (mkCoordinateSystem (mkVector 0 0 0) false)
            false true true PlaneXY 100 1000 [origin; linearTo 10 0 0].

(** Two drills at (1,0) and (5,0), the first to depth 1, the second to 0.5. *)
Definition twoDrills : list Position :=
  [origin; rapidTo 0 0 5;
   rapidTo 1 0 5; linearTo 1 0 (-1); rapidTo 1 0 5;
   rapidTo 5 0 5; linearTo 5 0 (-0.5); rapidTo 5 0 5].

(** A hole drilled to depth 2 and, after a lift, to depth 5. *)
Definition peckDrill : list Position :=
  [origin; linearTo 0 0 (-2); linearTo 0 0 1; linearTo 0 0 (-5)].

(** A hole drilled to depth 5 and, after a lift, entered again to depth 3. *)
Definition reDrill : list Position :=
  [origin; linearTo 0 0 (-5); linearTo 0 0 1; linearTo 0 0 (-3)].

(** A plunge that moves X along with Z. *)
Definition slantedPlunge : list Position :=
  [origin; rapidTo 0 0 5; linearTo 1 0 (-1); rapidTo 1 0 5].

(** A cut with a dwell and a repeated point in it. *)
Definition cutWithDwell : list Position :=
  [linearTo 1 0 0; dwellAt 1 0 0; rapidTo 1 0 0; linearTo 2 0 0].

(** A path ending below its top plane, away from the origin. *)
Definition lowEnd : list Position :=
  [origin; rapidTo 0 0 5; rapidTo 3 4 5; linearTo 3 4 (-1)].

(** The feedrate inventory of the [Info] loop taken on its own. *)
Definition feedrateFold (fs : list float) (acc : list float) : list float :=
  fold_left (fun acc f => if negb (existsb (fun feed => feed =? f) acc)
                          then acc ++ [f] else acc)
            fs acc.

(** No two entries of a list are equal as float64 values. *)
Fixpoint distinctFloats (l : list float) : Prop :=
  match l with
  | [] => True
  | a :: rest => (forall b, In b rest -> (a =? b) = false) /\ distinctFloats rest
  end.

(** The test of [OptLiftSpeed] on a waypoint and its predecessor. *)
Definition pureLift (prev m : Position) : bool :=
  (pos_X m =? pos_X prev) && (pos_Y m =? pos_Y prev) && fgt (pos_Z m) (pos_Z prev).

(** What the loop of [OptVector] keeps true of its state once it has been
    through the waypoints [processed]. *)
Definition vectorInv (processed : list Position) (st : VectorState) : Prop :=
  (0 <= ready st <= 3)%Z /\
  (length (v_npos st) <= length processed)%nat /\
  hd_error (v_npos st) = hd_error processed /\
  (forall d, last (v_npos st) d = last processed d) /\
  filter (fun p => negb (isMotion p)) (v_npos st)
  = filter (fun p => negb (isMotion p)) processed /\
  ((1 <= ready st)%Z ->
   exists l q, v_npos st = l ++ [q] /\ isMotion q = true /\ ((2 <= ready st)%Z -> l <> [])).

(** [math.Cos] and [math.Sin] at the two angles of the half circle below,
    0 and minus pi. *)
Definition axisCos (a : float) : float := if a =? 0 then 1 else -1.
Definition axisSin (a : float) : float := if a =? 0 then 0 else -0x1.1a62633145c07p-53.

(** The machine of [arcMachine] with a minimum segment length of 1, which
    leaves the half circle one step. *)
Definition stepArcMachine : Machine :=
  mkMachine (feed MoveModeCWArc 100) (mkCoordinateSystem (mkVector 0 0 0) false)
            false true true PlaneXY 100 1 [origin; linearTo 10 0 0].

(** * Properties *)

(** ** The result monad and lists *)

Lemma bind_Ok {A B : Type} (r : result A) (f : A -> result B) (b : B) :
  bind r f = Ok b -> exists a, r = Ok a /\ f a = Ok b.
Proof.
  destruct r as [a | p]; simpl; intro H.
  - exists a; split; [reflexivity | exact H].
  - discriminate.
Qed.

(** ** calcPos *)

(** In absolute arc-center mode the centre words I and J take the frame
    offset, K takes none, and the frame's Z goes onto the end point's Z. *)
Lemma calcPos_absolute_arc (vm : Machine) (stmt : Block) (pos : Position) (r : Resolved) :
  curPos vm = Ok pos -> AbsoluteArc vm = true -> calcPos vm stmt = Ok r ->
  let cs := GetCoordinateSystem (vm_CoordinateSystem vm) in
  let scale v := if Imperial vm then v * 25.4 else v in
  let absoluteMove :=
    if OverrideActive (vm_CoordinateSystem vm) then true else AbsoluteMove vm in
  newI r = scale (GetWordDefault stmt "I"%char 0) + vec_X cs /\
  newJ r = scale (GetWordDefault stmt "J"%char 0) + vec_Y cs /\
  newK r = scale (GetWordDefault stmt "K"%char 0) /\
  newZ r = resolveAxis (GetWord stmt "Z"%char) (Imperial vm) absoluteMove
                       (pos_Z pos) (vec_Z cs) + vec_Z cs.
Proof.
  intros Hpos Habs Hcalc. unfold calcPos in Hcalc.
  rewrite Hpos, Habs in Hcalc. simpl in Hcalc.
  injection Hcalc as <-. simpl. repeat split; reflexivity.
Qed.

(** C1: on the absolute-arc machine in the frame offset by (1, 2, 5), the
    command X10 Y0 Z2 I3 J4 K1 resolves to K = 1, without the frame's Z, and to
    Z = 12, the frame's Z added twice; I and J take their offsets. *)
Theorem calcPos_absolute_arc_K_unshifted :
  calcPos offsetMachine arcBlock = Ok (mkResolved 11 2 12 4 6 1).
Proof. vm_compute. reflexivity. Qed.

(** C8, as stated, fails: with X absent in absolute mode the resolved X is
    the previous 3, not the previous value shifted by the frame offset. *)
Lemma calcPos_absent_X_unadjusted :
  ~ (forall vm stmt pos r,
        curPos vm = Ok pos -> GetWord stmt "X"%char = None -> calcPos vm stmt = Ok r ->
        newX r = spec_resolveAxis None (Imperial vm)
                   (if OverrideActive (vm_CoordinateSystem vm) then true else AbsoluteMove vm)
                   (pos_X pos) (vec_X (GetCoordinateSystem (vm_CoordinateSystem vm)))).
Proof.
  intro H.
  specialize (H frameMachine [] (linearTo 3 0 0) (mkResolved 3 0 0 3 0 0)
                eq_refl eq_refl eq_refl).
  vm_compute in H.
  apply (f_equal (fun v => v =? 3)) in H. vm_compute in H. discriminate.
Qed.

(** C8, amended: an absent X, Y or Z resolves to the previous coordinate with
    no adjustment (Z in relative arc-center mode); an absent I or J resolves
    to zero plus the arc-center adjustment, and so does an absent K in
    relative arc-center mode. *)
Theorem calcPos_absent_words (vm : Machine) (stmt : Block) (pos : Position) (r : Resolved) :
  curPos vm = Ok pos -> calcPos vm stmt = Ok r ->
  let cs := GetCoordinateSystem (vm_CoordinateSystem vm) in
  (GetWord stmt "X"%char = None -> newX r = pos_X pos) /\
  (GetWord stmt "Y"%char = None -> newY r = pos_Y pos) /\
  (GetWord stmt "Z"%char = None -> AbsoluteArc vm = false -> newZ r = pos_Z pos) /\
  (GetWord stmt "I"%char = None ->
   newI r = 0 + (if AbsoluteArc vm then vec_X cs else pos_X pos)) /\
  (GetWord stmt "J"%char = None ->
   newJ r = 0 + (if AbsoluteArc vm then vec_Y cs else pos_Y pos)) /\
  (GetWord stmt "K"%char = None -> AbsoluteArc vm = false -> newK r = 0 + pos_Z pos).
Proof.
  intros Hpos Hcalc cs. unfold calcPos in Hcalc. rewrite Hpos in Hcalc. simpl in Hcalc.
  unfold GetWordDefault in Hcalc.
  repeat split; intros Hw; try intros Hrel;
    rewrite ?Hw, ?Hrel in Hcalc;
    destruct (AbsoluteArc vm), (Imperial vm); simpl in Hcalc;
    try discriminate; injection Hcalc as <-; reflexivity.
Qed.

Lemma calcPos_absent_words_witness :
  newX (mkResolved 3 0 0 3 0 0) = 3 /\ newK (mkResolved 3 0 0 3 0 0) = 0 + 0.
Proof.
  destruct (calcPos_absent_words frameMachine [] (linearTo 3 0 0)
              (mkResolved 3 0 0 3 0 0) eq_refl eq_refl)
    as [HX [_ [_ [_ [_ HK]]]]].
  split; [apply HX | apply HK]; reflexivity.
Defined.

(** ** Return *)

Lemma curPos_inv (vm : Machine) (lastPos : Position) :
  curPos vm = Ok lastPos ->
  exists p ps, Positions vm = p :: ps /\ lastPos = last ps p.
Proof.
  unfold curPos. destruct (Positions vm) as [| p ps]; intro H.
  - discriminate.
  - injection H as <-. exists p, ps. split; reflexivity.
Qed.


Lemma disable_coordinates (ds dc : bool) (p : Position) :
  pos_X (disable ds dc p) = pos_X p /\
  pos_Y (disable ds dc p) = pos_Y p /\
  pos_Z (disable ds dc p) = pos_Z p.
Proof. destruct ds, dc; repeat split; reflexivity. Qed.

Lemma disable_atOrigin (ds dc : bool) (p : Position) :
  atOrigin (disable ds dc p) = atOrigin p.
Proof.
  unfold atOrigin. destruct (disable_coordinates ds dc p) as [-> [-> ->]]. reflexivity.
Qed.



(** ** The order of float64 *)

Lemma SFcompare_key (f g : spec_float) :
  f <> S754_nan -> g <> S754_nan ->
  exists c, SFcompare f g = Some c /\
            (c = Lt <-> keyLt (orderKey f) (orderKey g)) /\
            (c = Eq <-> orderKey f = orderKey g).
Proof.
  intros Hf Hg.
  destruct f as [sf | sf | | sf mf ef], g as [sg | sg | | sg mg eg];
    try congruence; cbn [SFcompare orderKey];
    try (destruct sf); try (destruct sg);
    try (eexists; split; [reflexivity |];
         unfold keyLt; split; split; intro H;
         first [discriminate | reflexivity | lia | (exfalso; lia)
               | injection H; intros; lia]).
  - (* both negative *)
    rewrite Pos.compare_cont_spec. cbn [Pos.switch_Eq].
    eexists; split; [reflexivity |]. unfold keyLt.
    destruct (Z.compare_spec ef eg) as [He | He | He];
      [destruct (Pos.compare_spec mf mg) as [Hm | Hm | Hm] | |]; cbn [CompOpp];
      split; split; intro H;
      first [discriminate | reflexivity | lia | (exfalso; lia)
            | congruence | (injection H; intros; lia)].
  - (* both positive *)
    rewrite Pos.compare_cont_spec. cbn [Pos.switch_Eq].
    eexists; split; [reflexivity |]. unfold keyLt.
    destruct (Z.compare_spec ef eg) as [He | He | He];
      [destruct (Pos.compare_spec mf mg) as [Hm | Hm | Hm] | |];
      split; split; intro H;
      first [discriminate | reflexivity | lia | (exfalso; lia)
            | congruence | (injection H; intros; lia)].
Qed.

Ltac key_cases :=
  unfold keyLe, keyLt in *;
  repeat match goal with
         | k : (Z * Z * Z)%type |- _ => destruct k as [[? ?] ?]
         end.

Lemma keyLe_iff (a b : Z * Z * Z) : keyLe a b <-> keyLt a b \/ a = b.
Proof.
  destruct a as [[a1 a2] a3], b as [[b1 b2] b3]. unfold keyLe, keyLt. split.
  - intro H.
    assert (D : (a1 < b1 \/ (a1 = b1 /\ (a2 < b2 \/ (a2 = b2 /\ a3 < b3)))
                 \/ (a1 = b1 /\ a2 = b2 /\ a3 = b3))%Z) by lia.
    destruct D as [D | [D | [-> [-> ->]]]]; [left; lia | left; lia | right; reflexivity].
  - intros [H | H]; [lia | injection H; intros; lia].
Qed.

Lemma keyLe_refl (a : Z * Z * Z) : keyLe a a.
Proof. key_cases. lia. Qed.

Lemma keyLe_trans (a b c : Z * Z * Z) : keyLe a b -> keyLe b c -> keyLe a c.
Proof. key_cases. lia. Qed.

Lemma keyLt_le (a b : Z * Z * Z) : keyLt a b -> keyLe a b.
Proof. key_cases. lia. Qed.

Lemma keyLe_total (a b : Z * Z * Z) : ~ keyLt a b -> keyLe b a.
Proof. key_cases. lia. Qed.

Lemma not_nan_spec (x : float) : is_nan x = false -> Prim2SF x <> S754_nan.
Proof.
  unfold is_nan. rewrite eqb_spec. intros H E. rewrite E in H. discriminate.
Qed.

Lemma flt_key (x y : float) :
  is_nan x = false -> is_nan y = false ->
  ((x <? y) = true <-> keyLt (fkey x) (fkey y)).
Proof.
  intros Hx Hy. rewrite ltb_spec. unfold SFltb, fkey.
  destruct (SFcompare_key _ _ (not_nan_spec x Hx) (not_nan_spec y Hy)) as [c [-> [HLt _]]].
  rewrite <- HLt. destruct c; split; congruence.
Qed.

Lemma fle_key (x y : float) :
  is_nan x = false -> is_nan y = false ->
  ((x <=? y) = true <-> keyLe (fkey x) (fkey y)).
Proof.
  intros Hx Hy. rewrite leb_spec, keyLe_iff. unfold SFleb, fkey.
  destruct (SFcompare_key _ _ (not_nan_spec x Hx) (not_nan_spec y Hy))
    as [c [-> [HLt HEq]]].
  rewrite <- HLt, <- HEq. destruct c; split; try tauto; try congruence.
  intros [H | H]; discriminate.
Qed.

(** ** Info *)



Lemma Info_axes (ps : list Position) :
  forall r,
    let r' := fold_left infoStep ps r in
    (minx r', maxx r') = axisFold (map pos_X ps) (minx r) (maxx r) /\
    (miny r', maxy r') = axisFold (map pos_Y ps) (miny r) (maxy r) /\
    (minz r', maxz r') = axisFold (map pos_Z ps) (minz r) (maxz r).
Proof.
  induction ps as [| p ps IH]; intro r.
  - cbn. repeat split; reflexivity.
  - cbn [fold_left map]. specialize (IH (infoStep r p)).
    destruct IH as [HX [HY HZ]]. cbv zeta. rewrite HX, HY, HZ.
    unfold axisFold at 2 4 6. cbn [fold_left fst snd]. unfold infoStep.
    destruct (infoAxis (pos_X p) (minx r) (maxx r)),
             (infoAxis (pos_Y p) (miny r) (maxy r)),
             (infoAxis (pos_Z p) (minz r) (maxz r)).
    cbn. repeat split; reflexivity.
Qed.


Lemma noNaN_coordinates (p : Position) :
  noNaN p = true ->
  is_nan (pos_X p) = false /\ is_nan (pos_Y p) = false /\ is_nan (pos_Z p) = false.
Proof.
  unfold noNaN. destruct (is_nan (pos_X p)), (is_nan (pos_Y p)), (is_nan (pos_Z p));
    cbn; intro H; try discriminate; repeat split; reflexivity.
Qed.



(** ** FindSafetyHeight *)

(** The running maximum of [FindSafetyHeight]: never below its start, at
    least every Z it has seen, and either the start or one of those Z. *)
Lemma safetyFold_greatest (ps : list Position) :
  forall hi,
    (forall p, In p ps -> is_nan (pos_Z p) = false) -> is_nan hi = false ->
    let r := fold_left (fun maxz m => if fgt (pos_Z m) maxz then pos_Z m else maxz) ps hi in
    is_nan r = false /\ (hi <=? r) = true /\
    (forall p, In p ps -> (pos_Z p <=? r) = true) /\
    (r = hi \/ exists p, In p ps /\ r = pos_Z p).
Proof.
  induction ps as [| m ps IH]; intros hi Hps Hhi.
  - cbn. split; [exact Hhi |]. split; [apply fle_key; auto using keyLe_refl |].
    split; [intros p [] | left; reflexivity].
  - cbn [fold_left]. change (fgt (pos_Z m) hi) with (hi <? pos_Z m).
    assert (Hm : is_nan (pos_Z m) = false) by (apply Hps; left; reflexivity).
    assert (Hps' : forall p, In p ps -> is_nan (pos_Z p) = false)
      by (intros p Hp; apply Hps; right; exact Hp).
    destruct (hi <? pos_Z m) eqn:Hlt.
    + destruct (IH (pos_Z m) Hps' Hm) as [N [L [A E]]]. cbv zeta in *.
      assert (Hle : keyLe (fkey hi) (fkey (pos_Z m)))
        by (apply keyLt_le, (flt_key _ _ Hhi Hm), Hlt).
      repeat split; auto.
      * apply fle_key; auto. apply (fle_key _ _ Hm N) in L.
        exact (keyLe_trans _ _ _ Hle L).
      * intros p [<- | Hp]; [exact L | apply A, Hp].
      * right. destruct E as [E | [p [Hp E]]].
        -- exists m. split; [left; reflexivity | exact E].
        -- exists p. split; [right; exact Hp | exact E].
    + destruct (IH hi Hps' Hhi) as [N [L [A E]]]. cbv zeta in *.
      assert (Hle : keyLe (fkey (pos_Z m)) (fkey hi)).
      { apply keyLe_total. rewrite <- (flt_key _ _ Hhi Hm). congruence. }
      repeat split; auto.
      * intros p [<- | Hp]; [| apply A, Hp].
        apply fle_key; auto. apply (fle_key _ _ Hhi N) in L.
        exact (keyLe_trans _ _ _ Hle L).
      * destruct E as [E | [p [Hp E]]]; [left; exact E |].
        right. exists p. split; [right; exact Hp | exact E].
Qed.

(** X19: on a toolpath without NaN, [FindSafetyHeight] is the greatest of 0 and
    the Z of the waypoints; on one with a waypoint at Z = 0 or above, such as
    the origin it starts from, that is the highest Z of the path. *)
Lemma FindSafetyHeight_greatest (vm : Machine) :
  (forall p, In p (Positions vm) -> noNaN p = true) ->
  (0 <=? FindSafetyHeight vm) = true /\
  (forall p, In p (Positions vm) -> (pos_Z p <=? FindSafetyHeight vm) = true) /\
  (FindSafetyHeight vm = 0
   \/ exists p, In p (Positions vm) /\ FindSafetyHeight vm = pos_Z p).
Proof.
  intro Hwf.
  destruct (safetyFold_greatest (Positions vm) 0) as [_ [L [A E]]].
  - intros p Hp. apply noNaN_coordinates, Hwf, Hp.
  - reflexivity.
  - repeat split; auto.
Qed.

(** ** move and arc *)

Lemma move_inv (x y z : float) (vm vm' : Machine) :
  move x y z vm = Ok vm' ->
  vm' = set_Positions vm (Positions vm ++ [mkPosition (vm_State vm) x y z]).
Proof.
  unfold move. destruct (is_nan x || is_nan y || is_nan z); intro H.
  - discriminate.
  - injection H as <-. reflexivity.
Qed.

Lemma move_panic (x y z : float) (vm : Machine) (p : PanicValue) :
  move x y z vm = Panic p -> p = MoveNaN.
Proof.
  unfold move. destruct (is_nan x || is_nan y || is_nan z); intro H.
  - injection H as <-. reflexivity.
  - discriminate.
Qed.

Lemma add_inv (plane : Plane) (a b c : float) (vm vm' : Machine) :
  add plane a b c vm = Ok vm' ->
  exists q, vm' = set_Positions vm (Positions vm ++ [q]).
Proof.
  destruct plane; cbn [add]; intro H; apply move_inv in H; eexists; exact H.
Qed.

Lemma add_panic (plane : Plane) (a b c : float) (vm : Machine) (p : PanicValue) :
  add plane a b c vm = Panic p -> p = MoveNaN.
Proof. destruct plane; cbn [add]; apply move_panic. Qed.

(** The closure undoes the permutation of the plane switch: the local end
    point goes back to the requested (x, y, z). *)
Lemma add_frame_end (plane : Plane) (sp : Position) (x y z i j k : float)
      (vm vm' : Machine) :
  let f := arcFrame plane sp x y z i j k in
  add plane (e1 f) (e2 f) (e3 f) vm = Ok vm' ->
  vm' = set_Positions vm (Positions vm ++ [mkPosition (vm_State vm) x y z]).
Proof. destruct plane; cbn; apply move_inv. Qed.

Lemma add_frame_end_succeeds (plane : Plane) (sp : Position) (x y z i j k : float)
      (vm : Machine) :
  is_nan x || is_nan y || is_nan z = false ->
  let f := arcFrame plane sp x y z i j k in
  exists vm', add plane (e1 f) (e2 f) (e3 f) vm = Ok vm'.
Proof.
  intro Hnan.
  assert (Hx : is_nan x = false /\ is_nan y = false /\ is_nan z = false).
  { destruct (is_nan x), (is_nan y), (is_nan z); try discriminate; auto. }
  destruct Hx as [Hx [Hy Hz]].
  destruct plane; cbn; unfold move; rewrite Hx, Hy, Hz; cbn; eexists; reflexivity.
Qed.

Section ArcProperties.

Variable Atan2 : float -> float -> float.
Variables Cos Sin Acos Ceil : float -> float.
Variable int_of_float64 : float -> Z.

Lemma arcLoop_inv (count : nat) :
  forall i plane f theta1 angleDiff steps vm vm',
    arcLoop Cos Sin count i plane f theta1 angleDiff steps vm = Ok vm' ->
    exists pts, vm' = set_Positions vm (Positions vm ++ pts).
Proof.
  induction count as [| count IH]; intros i plane f theta1 angleDiff steps vm vm' H.
  - injection H as <-. exists []. rewrite app_nil_r. destruct vm; reflexivity.
  - cbn [arcLoop] in H. apply bind_Ok in H. destruct H as [vm1 [Hadd Hrest]].
    apply add_inv in Hadd. destruct Hadd as [q ->].
    apply IH in Hrest. destruct Hrest as [pts ->].
    exists (q :: pts). cbn [set_Positions Positions]. rewrite <- app_assoc. reflexivity.
Qed.

Lemma arcLoop_panic (count : nat) :
  forall i plane f theta1 angleDiff steps vm p,
    arcLoop Cos Sin count i plane f theta1 angleDiff steps vm = Panic p -> p = MoveNaN.
Proof.
  induction count as [| count IH]; intros i plane f theta1 angleDiff steps vm p H.
  - discriminate.
  - cbn [arcLoop] in H.
    destruct (add plane _ _ _ vm) as [vm1 | q] eqn:Hadd; cbn [bind] in H.
    + exact (IH _ _ _ _ _ _ _ _ H).
    + injection H as <-. exact (add_panic _ _ _ _ _ _ Hadd).
Qed.

Lemma arcApproximate_panic (clockwise : bool) (rotations : float) (plane : Plane)
      (f : ArcFrame) (vm : Machine) (p : PanicValue) :
  arcApproximate Atan2 Cos Sin Acos Ceil int_of_float64 clockwise rotations plane f vm
  = Panic p ->
  p = MoveNaN.
Proof.
  unfold arcApproximate. cbv zeta.
  destruct (_ >? 0)%Z.
  - destruct (arcLoop _ _ _ _ _ _ _ _ _ _) as [vm1 | q] eqn:Hloop; cbn [bind]; intro H.
    + exact (add_panic _ _ _ _ _ _ H).
    + injection H as <-. exact (arcLoop_panic _ _ _ _ _ _ _ _ _ Hloop).
  - cbn [bind]. apply add_panic.
Qed.

(** C6: whenever [arc] returns, in any plane and for any step count, the
    toolpath is the old one, the interpolated points, and last a waypoint
    whose position is the requested (x, y, z) itself. *)
Theorem arc_last_waypoint_is_target (x y z i j k rotations : float) (vm vm' : Machine) :
  arc Atan2 Cos Sin Acos Ceil int_of_float64 x y z i j k rotations vm = Ok vm' ->
  exists pts final,
    Positions vm' = Positions vm ++ pts ++ [final] /\
    pos_X final = x /\ pos_Y final = y /\ pos_Z final = z /\
    MoveMode (pos_State final) = MoveModeLinear.
Proof.
  unfold arc. intro H.
  apply bind_Ok in H. destruct H as [sp [_ H]].
  destruct (is_nan x || is_nan y || is_nan z || is_nan i || is_nan j || is_nan k);
    [discriminate |].
  destruct (rotations <? 1); [discriminate |].
  apply bind_Ok in H. destruct H as [[] [_ H]].
  apply bind_Ok in H. destruct H as [vm2 [Happrox H]].
  injection H as <-.
  unfold arcApproximate in Happrox. cbv zeta in Happrox.
  apply bind_Ok in Happrox. destruct Happrox as [vm1 [Hloop Hend]].
  cbn [MovePlane set_vm_State] in Hend. apply add_frame_end in Hend. subst vm2.
  assert (Hpts : exists pts,
             vm1 = set_Positions
                     (set_vm_State vm (set_MoveMode (vm_State vm) MoveModeLinear))
                     (Positions vm ++ pts)).
  { destruct (_ >? 0)%Z in Hloop.
    - apply arcLoop_inv in Hloop. exact Hloop.
    - injection Hloop as <-. exists []. rewrite app_nil_r. reflexivity. }
  destruct Hpts as [pts ->].
  exists pts, (mkPosition (set_MoveMode (vm_State vm) MoveModeLinear) x y z).
  cbn. rewrite <- app_assoc. repeat split; reflexivity.
Qed.

(** A request that passes the checks and whose interpolation loop runs
    through does return: the closing [add] cannot panic. *)
Lemma arc_returns (x y z i j k rotations : float) (vm : Machine) (sp : Position) :
  curPos vm = Ok sp ->
  is_nan x || is_nan y || is_nan z || is_nan i || is_nan j || is_nan k = false ->
  (rotations <? 1) = false ->
  let vml := set_vm_State vm (set_MoveMode (vm_State vm) MoveModeLinear) in
  let f := arcFrame (MovePlane vm) sp x y z i j k in
  let clockwise := MoveModes_eqb (MoveMode (vm_State vm)) MoveModeCWArc in
  let theta1 := Atan2 (s2 f - c2 f) (s1 f - c1 f) in
  let theta2 := Atan2 (e2 f - c2 f) (e1 f - c1 f) in
  let angleDiff := arcAngleDiff clockwise theta1 theta2 rotations in
  let steps := arcStepCount Acos Ceil int_of_float64 vml f angleDiff in
  arcVerify f = Ok tt ->
  ((steps >? 0)%Z = true ->
   exists vm1, arcLoop Cos Sin (Z.to_nat (steps + 1)) 0 (MovePlane vm) f
                       theta1 angleDiff steps vml = Ok vm1) ->
  exists vm', arc Atan2 Cos Sin Acos Ceil int_of_float64 x y z i j k rotations vm = Ok vm'.
Proof.
  intros Hcur Hnan Hrot vml f clockwise theta1 theta2 angleDiff steps Hver Hloop.
  unfold arc. rewrite Hcur. cbn [bind]. rewrite Hnan, Hrot.
  cbn [MovePlane set_vm_State].
  fold vml. fold f. rewrite Hver. cbn [bind].
  unfold arcApproximate. cbv zeta.
  fold clockwise. fold theta1. fold theta2. fold angleDiff. fold steps.
  assert (Hxyz : is_nan x || is_nan y || is_nan z = false).
  { destruct (is_nan x), (is_nan y), (is_nan z); try discriminate; reflexivity. }
  destruct (steps >? 0)%Z.
  - destruct (Hloop eq_refl) as [vm1 ->]. cbn [bind].
    destruct (add_frame_end_succeeds (MovePlane vm) sp x y z i j k vm1 Hxyz) as [vm2 E].
    fold f in E. rewrite E. cbn [bind]. eexists; reflexivity.
  - cbn [bind].
    destruct (add_frame_end_succeeds (MovePlane vm) sp x y z i j k vml Hxyz) as [vm2 E].
    fold f in E. rewrite E. cbn [bind]. eexists; reflexivity.
Qed.

(** C5: for a request that reaches the arc verification, [arc] stops with
    one of the two verification panics exactly when a radius is zero, or
    the radii differ by more than 0.005 and by more than 0.1 percent, or
    differ by more than 0.5. *)
Theorem arc_radius_validation (x y z i j k rotations : float) (vm : Machine)
        (sp : Position) :
  curPos vm = Ok sp ->
  is_nan x || is_nan y || is_nan z || is_nan i || is_nan j || is_nan k = false ->
  (rotations <? 1) = false ->
  let f := arcFrame (MovePlane vm) sp x y z i j k in
  let radius1 := sqrt (Pow2 (c1 f - s1 f) + Pow2 (c2 f - s2 f)) in
  let radius2 := sqrt (Pow2 (c1 f - e1 f) + Pow2 (c2 f - e2 f)) in
  let run := arc Atan2 Cos Sin Acos Ceil int_of_float64 x y z i j k rotations vm in
  (run = Panic InvalidArc
   \/ exists deviation rDiff, run = Panic (RadiusDeviation deviation rDiff))
  <->
  ((radius1 =? 0) = true \/ (radius2 =? 0) = true
   \/ ((0.005 <? abs (radius2 - radius1)) = true
       /\ (0.1 <? abs ((radius2 - radius1) / radius1) * 100) = true)
   \/ (0.5 <? abs (radius2 - radius1)) = true).
Proof.
  intros Hcur Hnan Hrot f radius1 radius2 run.
  unfold run, arc. rewrite Hcur. cbn [bind]. rewrite Hnan, Hrot.
  cbn [MovePlane set_vm_State]. fold f.
  change radius1 with (arcRadius1 f). change radius2 with (arcRadius2 f).
  change (abs (arcRadius2 f - arcRadius1 f)) with (arcRDiff f).
  change (abs ((arcRadius2 f - arcRadius1 f) / arcRadius1 f) * 100) with (arcDeviation f).
  unfold arcVerify, fgt.
  destruct (arcRadius1 f =? 0); [cbn; split; auto |].
  destruct (arcRadius2 f =? 0); [cbn; split; auto |].
  destruct (0.005 <? arcRDiff f), (0.1 <? arcDeviation f), (0.5 <? arcRDiff f);
    cbn [orb andb bind];
    lazymatch goal with
    | |- (Panic _ = _ \/ _) <-> _ =>
        split;
        [ intros _;
          first [ now (right; right; left; split) | now (right; right; right) ]
        | intros _; right; eexists; eexists; reflexivity ]
    | |- _ =>
        split;
        [ intros [H | [d [r H]]]; exfalso;
          destruct (arcApproximate _ _ _ _ _ _ _ _ _ _ _) as [vm2 | q] eqn:Happrox;
          cbn [bind] in H;
          [ discriminate
          | injection H as ->; apply arcApproximate_panic in Happrox; discriminate
          | discriminate
          | injection H as ->; apply arcApproximate_panic in Happrox; discriminate ]
        | intros [H | [H | [[H1 H2] | H]]]; discriminate ]
    end.
Qed.

End ArcProperties.

(** Start radius 10, end radius 10.6: the request is rejected. *)
Lemma arc_radius_validation_witness :
  let run := arc axisAtan2 unused unused unused unused truncate 10.6 0 0 0 0 0 1 arcMachine in
  run = Panic InvalidArc
  \/ exists deviation rDiff, run = Panic (RadiusDeviation deviation rDiff).
Proof.
  apply (proj2 (arc_radius_validation axisAtan2 unused unused unused unused truncate
                  10.6 0 0 0 0 0 1 arcMachine (linearTo 10 0 0) eq_refl eq_refl eq_refl)).
  right; right; right. vm_compute. reflexivity.
Defined.

(** A clockwise half circle from (10,0,0) to (-10,0,0) about the origin. *)
Lemma arc_last_waypoint_is_target_witness :
  exists pts final,
    Positions (set_Positions arcMachine (Positions arcMachine ++ [linearTo (-10) 0 0]))
    = Positions arcMachine ++ pts ++ [final] /\
    pos_X final = -10 /\ pos_Y final = 0 /\ pos_Z final = 0 /\
    MoveMode (pos_State final) = MoveModeLinear.
Proof.
  apply (arc_last_waypoint_is_target axisAtan2 unused unused unused unused truncate
           (-10) 0 0 0 0 0 1 arcMachine).
  vm_compute. reflexivity.
Defined.

(** ** OptRouteGrouping *)

(** The method in one step: it computes the new stack from the waypoints of
    the machine and assigns it, or returns the panic as its error. *)
Lemma OptRouteGrouping_run (tolerance : float) (vm : Machine) :
  OptRouteGrouping tolerance vm
  = match routeGrouping tolerance (Positions vm) with
    | Ok newPos => (set_Positions vm newPos, None)
    | Panic r => (vm, Some r)
    end.
Proof.
  unfold OptRouteGrouping, recovered, OptRouteGrouping_body, routeGrouping,
    andThen, onLocals, readPositions, writePositions.
  destruct (foldM scanStep (Positions vm) (mkScanState 0 0 0 [] [] 0 0 false))
    as [st | p]; cbn [bind]; [| reflexivity].
  destruct (scanChecks st) as [[] | p]; cbn [bind]; [| reflexivity].
  destruct (sortSets (length (sets st)) (sets st) (mkVector 0 0 0) 0 [])
    as [sortedSets | p]; cbn [bind]; [| reflexivity].
  destruct (index (Positions vm) 0) as [o | p]; cbn [bind]; [| reflexivity].
  destruct (foldM (emitSet tolerance (safetyHeight st) (drillSpeed st)) sortedSets [o])
    as [newPos | p]; reflexivity.
Qed.

(** The pass replaces the toolpath only on the way out without error. *)
Lemma OptRouteGrouping_success (tolerance : float) (vm vm' : Machine) :
  OptRouteGrouping tolerance vm = (vm', None) ->
  exists newPos, routeGrouping tolerance (Positions vm) = Ok newPos /\
                 vm' = set_Positions vm newPos.
Proof.
  rewrite OptRouteGrouping_run.
  destruct (routeGrouping tolerance (Positions vm)) as [newPos | r]; intro H.
  - injection H as <-. exists newPos. split; reflexivity.
  - discriminate.
Qed.

(** Each structural failure the scan looks for is reported as its error. *)
Lemma OptRouteGrouping_rejections :
  snd (OptRouteGrouping 0.1 (machineOf slantedPlunge)) = Some ComplexZMotion /\
  snd (OptRouteGrouping 0.1 (machineOf [origin; rapidTo 0 0 5; rapidTo 0 0 (-1);
                                        rapidTo 1 0 (-1); rapidTo 1 0 5]))
  = Some RapidInStock /\
  snd (OptRouteGrouping 0.1 (machineOf [origin; rapidTo 0 0 5; linearTo 0 0 (-1);
                                        linearTo 1 0 (-1)]))
  = Some IncompleteFinalSet /\
  snd (OptRouteGrouping 0.1 (machineOf [origin; linearTo 1 0 0])) = Some NoSafetyHeight /\
  snd (OptRouteGrouping 0.1 (machineOf [])) = Some NoSafetyHeight.
Proof. vm_compute. repeat split; reflexivity. Qed.

(** C2: on the two drills, with the tool at the origin, the group at
    distance 1 is passed over for the group at distance 5, whose first point
    is shallower: the first round of the sort selects index 1, and the
    rebuilt toolpath goes to X = 5 first. *)
Theorem selectSet_takes_shallower_farther_group :
  exists st,
    foldM scanStep twoDrills (mkScanState 0 0 0 [] [] 0 0 false) = Ok st /\
    sets st = [[linearTo 1 0 (-1)]; [linearTo 5 0 (-0.5)]] /\
    xyDiff (Vector_of (linearTo 1 0 (-1))) (mkVector 0 0 0) = 1 /\
    xyDiff (Vector_of (linearTo 5 0 (-0.5))) (mkVector 0 0 0) = 5 /\
    selectSet (sets st) (mkVector 0 0 0) 0 = Ok 1%Z /\
    exists newPos,
      routeGrouping 0.1 twoDrills = Ok newPos /\
      map (fun p => (pos_X p, pos_Y p, pos_Z p)) newPos
      = [(0, 0, 0); (0, 0, 5); (5, 0, 5); (5, 0, -0.5); (5, 0, 5); (1, 0, 5); (1, 0, -1)].
Proof.
  eexists. split; [vm_compute; reflexivity |].
  cbn [sets]. repeat split; try (vm_compute; reflexivity).
  eexists. split; vm_compute; reflexivity.
Qed.

(** ** OptDrillSpeed *)

Lemma drillStep_emit (ps : list Position) :
  forall st,
    d_npos (fold_left drillStep ps st)
    = d_npos st ++ drillEmit (d_lastx st) (d_lasty st) (d_lastz st) (drillStack st) ps.
Proof.
  induction ps as [| m rest IH]; intro st.
  - cbn. rewrite app_nil_r. reflexivity.
  - cbn [fold_left drillEmit]. rewrite IH. unfold drillStep.
    destruct (drillEligible (d_lastx st) (d_lasty st) (d_lastz st) m).
    + destruct (fastDrill (drillStack st) m) as [stack' [[posn poso] shouldinsert]].
      cbn [d_npos d_lastx d_lasty d_lastz drillStack].
      destruct shouldinsert; cbn [app]; rewrite <- ?app_assoc; reflexivity.
    + cbn [d_npos d_lastx d_lasty d_lastz drillStack]. rewrite <- app_assoc. reflexivity.
Qed.

Lemma drillSpeed_positions_emit (ps : list Position) :
  drillSpeed_positions ps = drillEmit 0 0 0 [] ps.
Proof. unfold drillSpeed_positions. rewrite drillStep_emit. reflexivity. Qed.

Lemma drillEmit_length (ps : list Position) :
  forall lx ly lz stack, (length ps <= length (drillEmit lx ly lz stack ps))%nat.
Proof.
  induction ps as [| m rest IH]; intros lx ly lz stack.
  - cbn. lia.
  - cbn [drillEmit]. destruct (drillEligible lx ly lz m).
    + destruct (fastDrill stack m) as [stack' [[posn poso] shouldinsert]].
      rewrite length_app. cbn [length].
      specialize (IH (pos_X m) (pos_Y m) (pos_Z m) stack'). lia.
    + cbn [length]. specialize (IH (pos_X m) (pos_Y m) (pos_Z m) stack). lia.
Qed.

(** The search of [fastDrill], one step at a time. *)
Lemma drillDepth_found_stays (pos : Position) (stack : list Position) :
  forall d,
    snd (fold_left
           (fun (acc : float * bool) m =>
              let '(depth, found) := acc in
              if (pos_X m =? pos_X pos) && (pos_Y m =? pos_Y pos)
              then if pos_Z m <? depth then (pos_Z m, true) else (depth, found)
              else (depth, found))
           stack (d, true)) = true.
Proof.
  induction stack as [| m stack IH]; intro d.
  - reflexivity.
  - cbn [fold_left].
    destruct ((pos_X m =? pos_X pos) && (pos_Y m =? pos_Y pos)); [| apply IH].
    destruct (pos_Z m <? d); apply IH.
Qed.

(** Nothing is found exactly when no earlier drill at the position went
    below zero. *)
Lemma drillDepth_not_found (pos : Position) (stack : list Position) :
  snd (drillDepth stack pos) = false <->
  forall m, In m stack ->
            (pos_X m =? pos_X pos) && (pos_Y m =? pos_Y pos) = true ->
            (pos_Z m <? 0) = false.
Proof.
  unfold drillDepth. generalize 0 as d.
  induction stack as [| m stack IH]; intro d.
  - cbn. split; [intros _ m [] | reflexivity].
  - cbn [fold_left].
    destruct ((pos_X m =? pos_X pos) && (pos_Y m =? pos_Y pos)) eqn:Hm;
      [destruct (pos_Z m <? d) eqn:Hz |].
    + rewrite drillDepth_found_stays. split; [discriminate |].
      intro H. rewrite <- Hz. apply (H m); [left; reflexivity | exact Hm].
    + rewrite IH. split.
      * intros H m' [<- | Hin]; [intros _; exact Hz | apply H; exact Hin].
      * intros H m' Hin. apply H. right. exact Hin.
    + rewrite IH. split.
      * intros H m' [<- | Hin]; [rewrite Hm; discriminate | apply H; exact Hin].
      * intros H m' Hin. apply H. right. exact Hin.
Qed.

Lemma drillDepth_not_found_value (pos : Position) (stack : list Position) :
  snd (drillDepth stack pos) = false -> drillDepth stack pos = (0, false).
Proof.
  unfold drillDepth. generalize 0 as d.
  induction stack as [| m stack IH]; intro d.
  - reflexivity.
  - cbn [fold_left].
    destruct ((pos_X m =? pos_X pos) && (pos_Y m =? pos_Y pos)); [| apply IH].
    destruct (pos_Z m <? d); [| apply IH].
    rewrite drillDepth_found_stays. discriminate.
Qed.

Lemma rapid_not_eligible (lx ly lz : float) (m : Position) :
  drillEligible lx ly lz (set_pos_MoveMode m MoveModeRapid) = false.
Proof. unfold drillEligible. cbn. apply andb_false_r. Qed.

(** A second run over what a run without split emitted, entered with the same
    last coordinates and a stack holding no more drills, emits it unchanged. *)
Lemma drillEmit_idempotent (ps : list Position) :
  forall lx ly lz stack1 stack2,
    (forall m, In m stack2 -> In m stack1) ->
    length (drillEmit lx ly lz stack1 ps) = length ps ->
    drillEmit lx ly lz stack2 (drillEmit lx ly lz stack1 ps)
    = drillEmit lx ly lz stack1 ps.
Proof.
  induction ps as [| m rest IH]; intros lx ly lz stack1 stack2 Hsub Hlen.
  - reflexivity.
  - cbn [drillEmit] in *.
    destruct (drillEligible lx ly lz m) eqn:Hel.
    + unfold fastDrill in *.
      destruct (drillDepth stack1 m) as [depth found] eqn:Hd1.
      destruct found.
      * destruct (fge (pos_Z m) depth).
        -- (* all of it drilled before: the move went rapid *)
           cbn [app length] in *. cbn [drillEmit].
           rewrite rapid_not_eligible. f_equal.
           apply (IH (pos_X m) (pos_Y m) (pos_Z m)).
           ++ intros m' Hin. apply in_or_app. left. apply Hsub, Hin.
           ++ lia.
        -- (* a split: one waypoint more than came in *)
           cbn [app length] in Hlen.
           pose proof (drillEmit_length rest (pos_X m) (pos_Y m) (pos_Z m) (stack1 ++ [m])).
           lia.
      * (* no earlier drill here: the move stayed as it was *)
        cbn [app length] in *. cbn [drillEmit]. rewrite Hel.
        assert (Hd2 : drillDepth stack2 m = (0, false)).
        { apply drillDepth_not_found_value. apply drillDepth_not_found.
          intros m' Hin. apply (proj1 (drillDepth_not_found m stack1)).
          - rewrite Hd1. reflexivity.
          - apply Hsub, Hin. }
        unfold fastDrill. rewrite Hd2. cbn [app]. f_equal.
        apply IH.
        -- intros m' Hin. apply in_app_or in Hin. apply in_or_app.
           destruct Hin as [Hin | Hin]; [left; apply Hsub, Hin | right; exact Hin].
        -- lia.
    + cbn [length] in Hlen. cbn [drillEmit]. rewrite Hel. f_equal.
      apply IH; [exact Hsub | lia].
Qed.

(** ** OptBogusMoves *)

(** C7, as stated, fails: of the cut with a dwell and a repeated point only
    the two cutting moves come out; the dwell, which is no move at all, and
    the zero-length rapid, which has no direction, are both gone. *)
Lemma OptBogusMoves_drops_dwell_and_zero_length :
  bogusMoves cutWithDwell = Ok [linearTo 1 0 0; linearTo 2 0 0] /\
  In (dwellAt 1 0 0) cutWithDwell /\ In (rapidTo 1 0 0) cutWithDwell /\
  ~ In (dwellAt 1 0 0) [linearTo 1 0 0; linearTo 2 0 0] /\
  ~ In (rapidTo 1 0 0) [linearTo 1 0 0; linearTo 2 0 0].
Proof.
  split; [vm_compute; reflexivity |].
  split; [cbn; tauto |]. split; [cbn; tauto |].
  split; intros [H | [H | []]]; discriminate.
Qed.

Lemma In_removelast {A : Type} (l : list A) (a : A) : In a (removelast l) -> In a l.
Proof.
  induction l as [| b l IH]; [intros [] |].
  destruct l as [| c l]; [intros [] |].
  change (removelast (b :: c :: l)) with (b :: removelast (c :: l)).
  intros [<- | H]; [left; reflexivity | right; apply IH, H].
Qed.

Lemma bogusStep_npos (st st' : BogusState) (m : Position) :
  bogusStep st m = Ok st' ->
  forall p, In p (npos st') -> In p (npos st) \/ (p = m /\ isMotion m = true).
Proof.
  unfold bogusStep, isMotion. cbv zeta.
  destruct (MoveModes_eqb (MoveMode (pos_State m)) MoveModeRapid) eqn:HR,
           (MoveModes_eqb (MoveMode (pos_State m)) MoveModeLinear) eqn:HL;
    cbn [negb andb orb];
    try (destruct ((pos_X m - xstate st =? 0) && (pos_Z m - zstate st =? 0)
                   && (pos_Y m - ystate st =? 0));
         [| match goal with
            | |- (if ?c then _ else _) = _ -> _ => destruct c
            end;
            [destruct (npos st) as [| q0 l0] eqn:Hn; [discriminate |] |]]);
    intro H; injection H as <-; cbn [npos]; intros p Hin;
    try (left; exact Hin);
    apply in_app_or in Hin; destruct Hin as [Hin | [<- | []]];
    try (left; first [exact Hin | apply In_removelast, Hin]);
    right; split; reflexivity.
Qed.

(** X20: every waypoint [OptBogusMoves] puts out is a rapid or linear
    waypoint that came in: the pass invents no waypoint and lets no dwell
    through. *)
Lemma bogusMoves_output (ps out : list Position) :
  bogusMoves ps = Ok out ->
  forall p, In p out -> In p ps /\ isMotion p = true.
Proof.
  unfold bogusMoves. intro H. apply bind_Ok in H. destruct H as [st [Hfold H]].
  injection H as <-.
  assert (G : forall ps st0 st,
             foldM bogusStep ps st0 = Ok st ->
             forall p, In p (npos st) ->
                       In p (npos st0) \/ (In p ps /\ isMotion p = true)).
  { clear. induction ps as [| m ps IH]; intros st0 st Hfold p Hin.
    - injection Hfold as <-. left. exact Hin.
    - cbn [foldM] in Hfold. apply bind_Ok in Hfold. destruct Hfold as [st1 [Hstep Hrest]].
      destruct (IH _ _ Hrest p Hin) as [H1 | [H1 H2]].
      + destruct (bogusStep_npos _ _ _ Hstep p H1) as [H0 | [-> Hm]].
        * left. exact H0.
        * right. split; [left; reflexivity | exact Hm].
      + right. split; [right; exact H1 | exact H2]. }
  intros p Hin. destruct (G _ _ _ Hfold p Hin) as [[] | H]. exact H.
Qed.

(** Three moves along one line come out as the last of them. *)
Lemma bogusMoves_collinear :
  bogusMoves [linearTo 1 0 0; linearTo 2 0 0; linearTo 3 0 0] = Ok [linearTo 3 0 0].
Proof. vm_compute. reflexivity. Qed.

(** A move so long that its squared length overflows has the zero vector for
    its direction; met first, it overwrites the last waypoint of an empty
    list, and the pass panics. *)
Lemma bogusMoves_overflow_panics :
  bogusMoves [linearTo 1e200 0 0] = Panic IndexOutOfRange.
Proof. vm_compute. reflexivity. Qed.

(** ** The sort of OptRouteGrouping runs to its end *)

Lemma index_in_range {A : Type} (l : list A) (i : Z) :
  (0 <= i < Z.of_nat (length l))%Z -> exists a, index l i = Ok a /\ In a l.
Proof.
  intro Hi. unfold index.
  destruct (i <? 0)%Z eqn:Hneg; [apply Z.ltb_lt in Hneg; lia |].
  destruct (nth_error l (Z.to_nat i)) as [a |] eqn:Hnth.
  - exists a. split; [reflexivity | exact (nth_error_In _ _ Hnth)].
  - apply nth_error_None in Hnth. lia.
Qed.

Lemma index_first {A : Type} (l : list A) : l <> [] -> exists a, index l 0 = Ok a.
Proof. destruct l as [| a l]; [congruence | intros _; exists a; reflexivity]. Qed.

(** The scan closes a set only after it has put a waypoint in it. *)
Lemma scanStep_sets_nonempty (st st' : ScanState) (m : Position) :
  scanStep st m = Ok st' ->
  (sequenceStarted st = true -> curSet st <> []) /\ Forall (fun s => s <> []) (sets st) ->
  (sequenceStarted st' = true -> curSet st' <> []) /\ Forall (fun s => s <> []) (sets st').
Proof.
  intros Hstep [Hcur Hsets]. revert Hstep. unfold scanStep, regularMove.
  repeat match goal with
         | |- (if ?c then _ else _) = _ -> _ => destruct c eqn:?
         end;
    intro H; try discriminate; injection H as <-; cbn;
    (split; [ try discriminate; try exact Hcur; try (intros _; destruct (curSet st); discriminate)
            | try exact Hsets ]).
  all: try (destruct (sequenceStarted st) eqn:Hss;
            [ apply Forall_app; split;
              [exact Hsets | constructor; [apply Hcur; reflexivity | constructor]]
            | exact Hsets ]).
  all: intro; congruence.
Qed.

Lemma scan_sets_nonempty (ps : list Position) :
  forall st st',
    foldM scanStep ps st = Ok st' ->
    (sequenceStarted st = true -> curSet st <> []) /\ Forall (fun s => s <> []) (sets st) ->
    Forall (fun s => s <> []) (sets st').
Proof.
  induction ps as [| m ps IH]; intros st st' Hfold Hinv.
  - injection Hfold as <-. apply Hinv.
  - cbn [foldM] in Hfold. apply bind_Ok in Hfold. destruct Hfold as [st1 [Hstep Hrest]].
    exact (IH _ _ Hrest (scanStep_sets_nonempty _ _ _ Hstep Hinv)).
Qed.

Section SortRuns.

Variable sets0 : list PSet.
Variable curVec : Vector.
Hypothesis sets0_nonempty : Forall (fun s => s <> []) sets0.

Lemma selectStep_in_range (selectedSet : Z) (idx : nat) :
  (idx < length sets0)%nat ->
  (selectedSet = -1 \/ 0 <= selectedSet < Z.of_nat (length sets0))%Z ->
  exists k, selectStep sets0 curVec selectedSet idx = Ok k
            /\ (0 <= k < Z.of_nat (length sets0))%Z.
Proof.
  intros Hidx Hsel. unfold selectStep.
  destruct (selectedSet =? -1)%Z eqn:Hm.
  - eexists. split; [reflexivity | lia].
  - apply Z.eqb_neq in Hm. assert (Hr : (0 <= selectedSet < Z.of_nat (length sets0))%Z) by lia.
    rewrite Forall_forall in sets0_nonempty.
    destruct (index_in_range sets0 (Z.of_nat idx)) as [s_np [-> Hin1]]; [lia |].
    cbn [bind].
    destruct (index_first s_np (sets0_nonempty _ Hin1)) as [np ->]. cbn [bind].
    destruct (index_in_range sets0 selectedSet Hr) as [s_pp [-> Hin2]]. cbn [bind].
    destruct (index_first s_pp (sets0_nonempty _ Hin2)) as [pp ->]. cbn [bind].
    destruct (_ <? _); [eexists; split; [reflexivity | lia] |].
    destruct (fgt _ _); eexists; (split; [reflexivity | lia]).
Qed.

Lemma selectLoop_in_range (idxs : list nat) :
  Forall (fun idx => (idx < length sets0)%nat) idxs ->
  forall selectedSet,
    (0 <= selectedSet < Z.of_nat (length sets0))%Z ->
    exists k, foldM (selectStep sets0 curVec) idxs selectedSet = Ok k
              /\ (0 <= k < Z.of_nat (length sets0))%Z.
Proof.
  induction idxs as [| idx idxs IH]; intros Hall selectedSet Hsel.
  - exists selectedSet. split; [reflexivity | exact Hsel].
  - inversion Hall as [| ? ? Hidx Hrest]; subst. cbn [foldM].
    destruct (selectStep_in_range selectedSet idx Hidx (or_intror Hsel)) as [k [-> Hk]].
    cbn [bind]. exact (IH Hrest k Hk).
Qed.

Lemma selectSet_in_range (selectedSet : Z) :
  sets0 <> [] ->
  (selectedSet = -1 \/ 0 <= selectedSet < Z.of_nat (length sets0))%Z ->
  exists k, selectSet sets0 curVec selectedSet = Ok k
            /\ (0 <= k < Z.of_nat (length sets0))%Z.
Proof.
  intros Hne Hsel. unfold selectSet.
  assert (Hpos : (0 < length sets0)%nat).
  { destruct (length sets0) eqn:E; [apply length_zero_iff_nil in E; congruence | lia]. }
  destruct (selectStep_in_range selectedSet 0 Hpos Hsel) as [k [Hk Hr]].
  assert (Hseq : seq 0 (length sets0) = 0%nat :: seq 1 (length sets0 - 1)).
  { destruct (length sets0) as [| n]; [lia |].
    replace (S n - 1)%nat with n by lia. reflexivity. }
  rewrite Hseq. cbn [foldM]. rewrite Hk. cbn [bind].
  apply selectLoop_in_range; [| exact Hr].
  apply Forall_forall. intros idx Hin. apply in_seq in Hin. lia.
Qed.

End SortRuns.

(** With one round of fuel for every set the sort returns: the selection
    stays inside the slice and every round takes one set out. *)
Lemma sortSets_returns (fuel : nat) :
  forall sets curVec selectedSet sortedSets,
    length sets = fuel ->
    Forall (fun s => s <> []) sets ->
    (selectedSet = -1 \/ 0 <= selectedSet < Z.of_nat (length sets) \/ sets = [])%Z ->
    exists sorted, sortSets fuel sets curVec selectedSet sortedSets = Ok sorted.
Proof.
  induction fuel as [| fuel IH]; intros sets curVec selectedSet sortedSets Hlen Hne Hsel.
  - destruct sets; [| discriminate]. eexists; reflexivity.
  - destruct sets as [| s rest] eqn:E; [discriminate |]. rewrite <- E in *.
    assert (Hn : sets <> []) by (rewrite E; discriminate).
    assert (Hsel' : (selectedSet = -1 \/ 0 <= selectedSet < Z.of_nat (length sets))%Z)
      by (destruct Hsel as [H | [H | H]]; [left; exact H | right; exact H | congruence]).
    destruct (selectSet_in_range sets curVec Hne selectedSet Hn Hsel') as [k [Hk Hr]].
    assert (Hstep : sortSets (S fuel) sets curVec selectedSet sortedSets
                    = (selectedSet <- selectSet sets curVec selectedSet ;;
                       s <- index sets selectedSet ;;
                       p <- index s 0 ;;
                       sortSets fuel
                                (firstn (Z.to_nat selectedSet) sets
                                 ++ skipn (Z.to_nat (selectedSet + 1)) sets)
                                (Vector_of p) (-1) (sortedSets ++ [s]))%go).
    { rewrite E. reflexivity. }
    rewrite Hstep, Hk. cbn [bind].
    destruct (index_in_range sets k Hr) as [sk [-> Hin]]. cbn [bind].
    rewrite Forall_forall in Hne.
    destruct (index_first sk (Hne _ Hin)) as [p ->]. cbn [bind].
    apply IH.
    + unfold PSet in *. rewrite length_app, length_firstn, length_skipn. lia.
    + apply Forall_forall. intros s' Hin'. apply Hne.
      apply in_app_or in Hin'. destruct Hin' as [H | H].
      * rewrite <- (firstn_skipn (Z.to_nat k) sets). apply in_or_app. left. exact H.
      * rewrite <- (firstn_skipn (Z.to_nat (k + 1)) sets). apply in_or_app. right. exact H.
    + left. reflexivity.
Qed.

(** After a scan without panic the sort of its sets returns. *)
Lemma routeGrouping_sort_returns (positions : list Position) (st : ScanState) :
  foldM scanStep positions (mkScanState 0 0 0 [] [] 0 0 false) = Ok st ->
  exists sortedSets,
    sortSets (length (sets st)) (sets st) (mkVector 0 0 0) 0 [] = Ok sortedSets.
Proof.
  intro Hscan. apply sortSets_returns.
  - reflexivity.
  - apply (scan_sets_nonempty positions _ _ Hscan). split; [discriminate | constructor].
  - destruct (sets st) as [| s rest]; [right; right; reflexivity |].
    right; left. cbn [length]. lia.
Qed.

(** The second test of the selection is reached whenever the candidate is not
    strictly nearer, at equal distance or farther: a candidate that starts
    higher then takes the place of the selected set. *)
Lemma selectStep_shallower_wins (sets : list PSet) (curVec : Vector) (selectedSet : Z)
      (idx : nat) (s_np s_pp : PSet) (np pp : Position) :
  selectedSet <> (-1)%Z ->
  index sets (Z.of_nat idx) = Ok s_np -> index s_np 0 = Ok np ->
  index sets selectedSet = Ok s_pp -> index s_pp 0 = Ok pp ->
  (xyDiff (Vector_of np) curVec <? xyDiff (Vector_of pp) curVec) = false ->
  fgt (pos_Z np) (pos_Z pp) = true ->
  selectStep sets curVec selectedSet idx = Ok (Z.of_nat idx).
Proof.
  intros Hsel H1 H2 H3 H4 Hfar Hz. unfold selectStep.
  apply Z.eqb_neq in Hsel. rewrite Hsel, H1. cbn [bind]. rewrite H2. cbn [bind].
  rewrite H3. cbn [bind]. rewrite H4. cbn [bind]. rewrite Hfar, Hz. reflexivity.
Qed.

(** ** A second run of OptDrillSpeed repeats every split *)

Lemma not_nan_of_spec (x : float) : Prim2SF x <> S754_nan -> is_nan x = false.
Proof.
  intro H. unfold is_nan. rewrite eqb_spec. unfold SFeqb.
  destruct (SFcompare_key _ _ H H) as [c [-> [_ HEq]]].
  pose proof (proj2 HEq eq_refl) as E. rewrite E. reflexivity.
Qed.

Lemma compare_not_nan (x y : float) (c : comparison) :
  SFcompare (Prim2SF x) (Prim2SF y) = Some c -> is_nan x = false /\ is_nan y = false.
Proof.
  intro H. split; apply not_nan_of_spec; intro E; rewrite E in H.
  - discriminate.
  - destruct (Prim2SF x); discriminate.
Qed.

Lemma flt_not_nan (x y : float) : (x <? y) = true -> is_nan x = false /\ is_nan y = false.
Proof.
  rewrite ltb_spec. unfold SFltb.
  destruct (SFcompare (Prim2SF x) (Prim2SF y)) as [c |] eqn:E; [| discriminate].
  intros _. exact (compare_not_nan x y c E).
Qed.

Lemma feq_not_nan (x y : float) : (x =? y) = true -> is_nan x = false /\ is_nan y = false.
Proof.
  rewrite eqb_spec. unfold SFeqb.
  destruct (SFcompare (Prim2SF x) (Prim2SF y)) as [c |] eqn:E; [| discriminate].
  intros _. exact (compare_not_nan x y c E).
Qed.

Lemma feq_key (x y : float) :
  (x =? y) = true <-> is_nan x = false /\ is_nan y = false /\ fkey x = fkey y.
Proof.
  split.
  - intro H. destruct (feq_not_nan x y H) as [Hx Hy]. repeat split; auto.
    rewrite eqb_spec in H. unfold SFeqb in H. unfold fkey.
    destruct (SFcompare_key _ _ (not_nan_spec x Hx) (not_nan_spec y Hy))
      as [c [Hc [_ HEq]]].
    rewrite Hc in H. apply HEq. destruct c; [reflexivity | discriminate | discriminate].
  - intros [Hx [Hy Hk]]. rewrite eqb_spec. unfold SFeqb.
    destruct (SFcompare_key _ _ (not_nan_spec x Hx) (not_nan_spec y Hy))
      as [c [-> [_ HEq]]].
    rewrite (proj2 HEq Hk). reflexivity.
Qed.

Lemma feq_refl (x : float) : is_nan x = false -> (x =? x) = true.
Proof. intro H. apply feq_key. auto. Qed.

Lemma feq_sym (x y : float) : (x =? y) = true -> (y =? x) = true.
Proof. rewrite !feq_key. intros [Hx [Hy Hk]]. auto. Qed.

Lemma feq_trans (x y z : float) : (x =? y) = true -> (y =? z) = true -> (x =? z) = true.
Proof.
  rewrite !feq_key. intros [Hx [Hy Hk]] [_ [Hz Hk']]. repeat split; auto. congruence.
Qed.

Lemma keyLe_lt_absurd (a b : Z * Z * Z) : keyLe a b -> keyLt b a -> False.
Proof. key_cases. lia. Qed.

Lemma keyLt_le_trans (a b c : Z * Z * Z) : keyLt a b -> keyLe b c -> keyLt a c.
Proof. key_cases. lia. Qed.

Lemma sameSpot_trans (a b c : Position) :
  sameSpot a b = true -> sameSpot b c = true -> sameSpot a c = true.
Proof.
  unfold sameSpot. intros H1 H2.
  apply andb_true_iff in H1. apply andb_true_iff in H2.
  destruct H1 as [X1 Y1], H2 as [X2 Y2]. apply andb_true_iff.
  split; eapply feq_trans; eassumption.
Qed.

(** The depth [fastDrill] finds: at most zero, at most the Z of every earlier
    drill at the spot, and, once found, the Z of one of them below zero. *)
Lemma drillDepth_least (pos : Position) (stack : list Position) :
  (forall e, In e stack -> is_nan (pos_Z e) = false) ->
  forall depth found,
    drillDepth stack pos = (depth, found) ->
    is_nan depth = false /\
    (forall e, In e stack -> sameSpot e pos = true ->
               keyLe (fkey depth) (fkey (pos_Z e))) /\
    (found = true ->
     exists e, In e stack /\ sameSpot e pos = true /\ depth = pos_Z e
               /\ (pos_Z e <? 0) = true).
Proof.
  unfold drillDepth.
  assert (G : forall stack seen d f,
             (forall e, In e stack -> is_nan (pos_Z e) = false) ->
             is_nan d = false -> keyLe (fkey d) (fkey 0) ->
             (f = true ->
              exists e, In e seen /\ sameSpot e pos = true /\ d = pos_Z e
                        /\ (pos_Z e <? 0) = true) ->
             forall depth found,
               fold_left
                 (fun (acc : float * bool) m =>
                    let '(depth, found) := acc in
                    if (pos_X m =? pos_X pos) && (pos_Y m =? pos_Y pos)
                    then if pos_Z m <? depth then (pos_Z m, true) else (depth, found)
                    else (depth, found))
                 stack (d, f) = (depth, found) ->
               is_nan depth = false /\ keyLe (fkey depth) (fkey d) /\
               (forall e, In e stack -> sameSpot e pos = true ->
                          keyLe (fkey depth) (fkey (pos_Z e))) /\
               (found = true ->
                exists e, In e (seen ++ stack) /\ sameSpot e pos = true /\ depth = pos_Z e
                          /\ (pos_Z e <? 0) = true)).
  { clear stack.
    induction stack as [| m stack IH]; intros seen d f Hnan Hd Hd0 Hf depth found Hfold.
    - injection Hfold as <- <-. rewrite app_nil_r.
      repeat split; auto using keyLe_refl. intros e [].
    - cbn [fold_left] in Hfold. fold (sameSpot m pos) in Hfold.
      assert (Hm : is_nan (pos_Z m) = false) by (apply Hnan; left; reflexivity).
      assert (Hnan' : forall e, In e stack -> is_nan (pos_Z e) = false)
        by (intros e He; apply Hnan; right; exact He).
      assert (Happ : seen ++ m :: stack = (seen ++ [m]) ++ stack)
        by (rewrite <- app_assoc; reflexivity).
      rewrite Happ.
      destruct (sameSpot m pos) eqn:Hspot; [destruct (pos_Z m <? d) eqn:Hlt |].
      + (* a deeper drill at the spot *)
        assert (Kmd : keyLt (fkey (pos_Z m)) (fkey d)) by (apply (flt_key _ _ Hm Hd), Hlt).
        assert (Km0 : keyLt (fkey (pos_Z m)) (fkey 0))
          by exact (keyLt_le_trans _ _ _ Kmd Hd0).
        destruct (IH (seen ++ [m]) (pos_Z m) true Hnan' Hm (keyLt_le _ _ Km0)) with
          (depth := depth) (found := found) as [N [L [A E]]]; [| exact Hfold |].
        { intros _. exists m. split; [apply in_or_app; right; left; reflexivity |].
          split; [exact Hspot |]. split; [reflexivity |].
          apply (flt_key (pos_Z m) 0 Hm eq_refl). exact Km0. }
        repeat split; auto.
        * exact (keyLe_trans _ _ _ L (keyLt_le _ _ Kmd)).
        * intros e [<- | He] Hs; [exact L | apply A; assumption].
      + (* a drill at the spot, not deeper *)
        assert (Kdm : keyLe (fkey d) (fkey (pos_Z m))).
        { apply keyLe_total. rewrite <- (flt_key _ _ Hm Hd). congruence. }
        destruct (IH (seen ++ [m]) d f Hnan' Hd Hd0) with
          (depth := depth) (found := found) as [N [L [A E]]]; [| exact Hfold |].
        { intro Hf'. destruct (Hf Hf') as [e [He Hrest]].
          exists e. split; [apply in_or_app; left; exact He | exact Hrest]. }
        repeat split; auto.
        intros e [<- | He] Hs; [exact (keyLe_trans _ _ _ L Kdm) | apply A; assumption].
      + (* a drill elsewhere *)
        destruct (IH (seen ++ [m]) d f Hnan' Hd Hd0) with
          (depth := depth) (found := found) as [N [L [A E]]]; [| exact Hfold |].
        { intro Hf'. destruct (Hf Hf') as [e [He Hrest]].
          exists e. split; [apply in_or_app; left; exact He | exact Hrest]. }
        repeat split; auto.
        intros e [<- | He] Hs; [congruence | apply A; assumption]. }
  intros Hnan depth found Hfold.
  destruct (G stack [] 0 false Hnan eq_refl (keyLe_refl _)) with
    (depth := depth) (found := found) as [N [_ [A E]]]; [discriminate | exact Hfold |].
  repeat split; auto.
Qed.

Lemma drillEligible_inv (lx ly lz : float) (m : Position) :
  drillEligible lx ly lz m = true ->
  is_nan (pos_X m) = false /\ is_nan (pos_Y m) = false /\ is_nan (pos_Z m) = false /\
  MoveModes_eqb (MoveMode (pos_State m)) MoveModeLinear = true.
Proof.
  unfold drillEligible. intro H.
  apply andb_true_iff in H. destruct H as [H HL].
  apply andb_true_iff in H. destruct H as [H HZ].
  apply andb_true_iff in H. destruct H as [HX HY].
  repeat split; try exact HL.
  - exact (proj1 (feq_not_nan _ _ HX)).
  - exact (proj1 (feq_not_nan _ _ HY)).
  - exact (proj1 (flt_not_nan _ _ HZ)).
Qed.

Lemma stackCovers_push_both (stack1 stack2 : list Position) (m : Position) :
  is_nan (pos_X m) = false -> is_nan (pos_Y m) = false -> is_nan (pos_Z m) = false ->
  stackCovers stack1 stack2 -> stackCovers (stack1 ++ [m]) (stack2 ++ [m]).
Proof.
  intros HX HY HZ [Hin [Hcov Hnan]]. repeat split.
  - intros e He. apply in_app_or in He. apply in_or_app.
    destruct He as [He | He]; [left; apply Hin, He | right; exact He].
  - intros e1 He1 Hneg. apply in_app_or in He1. destruct He1 as [He1 | [<- | []]].
    + destruct (Hcov e1 He1 Hneg) as [e2 [He2 Hrest]].
      exists e2. split; [apply in_or_app; left; exact He2 | exact Hrest].
    + exists m. split; [apply in_or_app; right; left; reflexivity |].
      split; [| exact Hneg]. unfold sameSpot. rewrite !feq_refl by assumption. reflexivity.
  - intros e He. apply in_app_or in He. destruct He as [He | [<- | []]];
      [apply Hnan, He | exact HZ].
Qed.

Lemma stackCovers_push_first (stack1 stack2 : list Position) (m e : Position) :
  is_nan (pos_Z m) = false ->
  In e stack1 -> sameSpot e m = true -> (pos_Z e <? 0) = true ->
  stackCovers stack1 stack2 -> stackCovers (stack1 ++ [m]) stack2.
Proof.
  intros HZ He Hspot Hneg [Hin [Hcov Hnan]]. repeat split.
  - intros e' He'. apply in_or_app. left. apply Hin, He'.
  - intros e1 He1 Hneg1. apply in_app_or in He1. destruct He1 as [He1 | [<- | []]].
    + exact (Hcov e1 He1 Hneg1).
    + destruct (Hcov e He Hneg) as [e2 [He2 [Hs2 Hn2]]].
      exists e2. repeat split; auto. exact (sameSpot_trans _ _ _ Hs2 Hspot).
  - intros e' He'. apply in_app_or in He'. destruct He' as [He' | [<- | []]];
      [apply Hnan, He' | exact HZ].
Qed.

(** Run over what a first run emitted, from the same last coordinates and a
    stack that covers the first one, a second run inserts exactly as many
    waypoints as the first run did. *)
Lemma drillEmit_second_run_length (ps : list Position) :
  forall lx ly lz stack1 stack2,
    stackCovers stack1 stack2 ->
    (length (drillEmit lx ly lz stack2 (drillEmit lx ly lz stack1 ps)) + length ps
     = 2 * length (drillEmit lx ly lz stack1 ps))%nat.
Proof.
  induction ps as [| m rest IH]; intros lx ly lz stack1 stack2 Hcov.
  - reflexivity.
  - cbn [drillEmit].
    destruct (drillEligible lx ly lz m) eqn:Hel.
    2:{ cbn [drillEmit length]. rewrite Hel. cbn [length].
        specialize (IH (pos_X m) (pos_Y m) (pos_Z m) stack1 stack2 Hcov). lia. }
    destruct (drillEligible_inv _ _ _ _ Hel) as [HX [HY [HZ HL]]].
    pose proof Hcov as [Hin [Hcover Hnan]].
    unfold fastDrill.
    destruct (drillDepth stack1 m) as [d found1] eqn:Hd1.
    destruct (drillDepth_least m stack1 Hnan d found1 Hd1) as [Nd [Ad Ed]].
    destruct found1.
    + destruct (Ed eq_refl) as [e [He [Hspot [Hde Hneg]]]].
      destruct (fge (pos_Z m) d) eqn:Hge.
      * (* rapid all the way: the second run passes it by *)
        cbn [app length drillEmit]. rewrite rapid_not_eligible. cbn [length].
        specialize (IH (pos_X m) (pos_Y m) (pos_Z m) (stack1 ++ [m]) stack2
                       (stackCovers_push_first _ _ _ _ HZ He Hspot Hneg Hcov)).
        cbn [pos_X pos_Y pos_Z set_pos_MoveMode set_pos_State]. lia.
      * (* a split: the second run splits the remainder again *)
        assert (Kmd : keyLt (fkey (pos_Z m)) (fkey d)).
        { destruct (flt_key (pos_Z m) d HZ Nd) as [_ K].
          destruct (pos_Z m <? d) eqn:Hlt; [apply (flt_key _ _ HZ Nd), Hlt |].
          exfalso. unfold fge in Hge.
          assert (Hle : (d <=? pos_Z m) = true).
          { apply fle_key; auto. apply keyLe_total.
            rewrite <- (flt_key _ _ HZ Nd). congruence. }
          congruence. }
        cbn [app length drillEmit]. rewrite rapid_not_eligible.
        cbn [pos_X pos_Y pos_Z set_pos_MoveMode set_pos_State set_pos_Z drillEmit].
        assert (Hel2 : drillEligible (pos_X m) (pos_Y m) d m = true).
        { unfold drillEligible. rewrite !feq_refl by assumption. rewrite HL.
          rewrite (proj2 (flt_key _ _ HZ Nd) Kmd). reflexivity. }
        rewrite Hel2. unfold fastDrill.
        destruct (drillDepth stack2 m) as [d2 found2] eqn:Hd2.
        assert (Hnan2 : forall e', In e' stack2 -> is_nan (pos_Z e') = false)
          by (intros e' He'; apply Hnan, Hin, He').
        destruct (drillDepth_least m stack2 Hnan2 d2 found2 Hd2) as [Nd2 [Ad2 Ed2]].
        assert (Hf2 : found2 = true).
        { destruct found2; [reflexivity | exfalso].
          destruct (Hcover e He Hneg) as [e2 [He2 [Hs2 Hn2]]].
          assert (Hnf : snd (drillDepth stack2 m) = false) by (rewrite Hd2; reflexivity).
          rewrite drillDepth_not_found in Hnf.
          specialize (Hnf e2 He2 (sameSpot_trans _ _ _ Hs2 Hspot)). congruence. }
        subst found2.
        destruct (Ed2 eq_refl) as [e2 [He2 [Hs2 [Hde2 _]]]].
        assert (Hge2 : fge (pos_Z m) d2 = false).
        { unfold fge. destruct (d2 <=? pos_Z m) eqn:Hle; [exfalso | reflexivity].
          apply (fle_key _ _ Nd2 HZ) in Hle.
          assert (Kd : keyLe (fkey d) (fkey d2))
            by (rewrite Hde2; apply Ad; [apply Hin, He2 | exact Hs2]).
          exact (keyLe_lt_absurd _ _ (keyLe_trans _ _ _ Kd Hle) Kmd). }
        rewrite Hge2. cbn [app length].
        specialize (IH (pos_X m) (pos_Y m) (pos_Z m) (stack1 ++ [m]) (stack2 ++ [m])
                       (stackCovers_push_both _ _ _ HX HY HZ Hcov)).
        lia.
    + (* no earlier drill at the spot: both runs leave the move alone *)
      cbn [app length drillEmit]. rewrite Hel.
      assert (Hd2 : drillDepth stack2 m = (0, false)).
      { apply drillDepth_not_found_value. apply drillDepth_not_found.
        intros e He. apply (proj1 (drillDepth_not_found m stack1)).
        - rewrite Hd1. reflexivity.
        - apply Hin, He. }
      unfold fastDrill. rewrite Hd2. cbn [app length].
      specialize (IH (pos_X m) (pos_Y m) (pos_Z m) (stack1 ++ [m]) (stack2 ++ [m])
                     (stackCovers_push_both _ _ _ HX HY HZ Hcov)).
      lia.
Qed.

(** The second run of [OptDrillSpeed] adds as many waypoints as the first. *)
Lemma OptDrillSpeed_second_run_grows (vm : Machine) :
  (length (Positions (OptDrillSpeed (OptDrillSpeed vm))) + length (Positions vm)
   = 2 * length (Positions (OptDrillSpeed vm)))%nat.
Proof.
  unfold OptDrillSpeed. cbn [Positions set_Positions].
  rewrite !drillSpeed_positions_emit. apply drillEmit_second_run_length.
  repeat split; intros e [].
Qed.

(** C3, as stated, fails: on the hole drilled to 2 and then to 5 the first
    run splits the second plunge, and the second run splits it again. *)
Lemma OptDrillSpeed_twice_differs :
  ~ (forall vm, Positions (OptDrillSpeed (OptDrillSpeed vm)) = Positions (OptDrillSpeed vm)).
Proof.
  intro H. specialize (H (machineOf peckDrill)).
  apply (f_equal (@length Position)) in H. vm_compute in H. discriminate.
Qed.

(** C3, amended: a second run of the pass changes nothing exactly on the
    toolpaths on which the first run splits no move, that is, emits as many
    waypoints as it was given. *)
Theorem OptDrillSpeed_idempotent_iff_no_split (vm : Machine) :
  Positions (OptDrillSpeed (OptDrillSpeed vm)) = Positions (OptDrillSpeed vm)
  <-> length (Positions (OptDrillSpeed vm)) = length (Positions vm).
Proof.
  split.
  - intro Heq. apply (f_equal (@length Position)) in Heq.
    pose proof (OptDrillSpeed_second_run_grows vm). lia.
  - unfold OptDrillSpeed. cbn [Positions set_Positions].
    rewrite !drillSpeed_positions_emit. intro Hlen.
    apply drillEmit_idempotent; [intros m Hin; exact Hin | exact Hlen].
Qed.

(** The second plunge of [reDrill] goes rapid, nothing is split. *)
Lemma OptDrillSpeed_idempotent_iff_no_split_witness :
  Positions (OptDrillSpeed (OptDrillSpeed (machineOf reDrill)))
  = Positions (OptDrillSpeed (machineOf reDrill)).
Proof.
  apply (proj2 (OptDrillSpeed_idempotent_iff_no_split (machineOf reDrill))).
  vm_compute. reflexivity.
Defined.

Lemma OptDrillSpeed_reDrill :
  map (fun p => (MoveMode (pos_State p), pos_Z p)) (Positions (OptDrillSpeed (machineOf reDrill)))
  = [(MoveModeNone, 0); (MoveModeLinear, -5); (MoveModeLinear, 1); (MoveModeRapid, -3)].
Proof. vm_compute. reflexivity. Qed.

Lemma OptDrillSpeed_peckDrill :
  map (fun p => (MoveMode (pos_State p), pos_Z p))
      (Positions (OptDrillSpeed (machineOf peckDrill)))
  = [(MoveModeNone, 0); (MoveModeLinear, -2); (MoveModeLinear, 1);
     (MoveModeRapid, -2); (MoveModeLinear, -5)] /\
  map (fun p => (MoveMode (pos_State p), pos_Z p))
      (Positions (OptDrillSpeed (OptDrillSpeed (machineOf peckDrill))))
  = [(MoveModeNone, 0); (MoveModeLinear, -2); (MoveModeLinear, 1);
     (MoveModeRapid, -2); (MoveModeRapid, -2); (MoveModeLinear, -5)].
Proof. vm_compute. split; reflexivity. Qed.

(** * Further properties of the code *)

(** ** The bulk transforms *)

Lemma flt_irrefl (x : float) : (x <? x) = false.
Proof.
  destruct (is_nan x) eqn:Hn.
  - destruct (x <? x) eqn:H; [| reflexivity].
    destruct (flt_not_nan _ _ H) as [Hx _]. congruence.
  - destruct (x <? x) eqn:H; [| reflexivity].
    apply (flt_key _ _ Hn Hn) in H. exfalso.
    exact (keyLe_lt_absurd _ _ (keyLe_refl _) H).
Qed.

(** X1: flipping the axes twice gives the machine back. *)
Theorem FlipXY_involutive (vm : Machine) : FlipXY (FlipXY vm) = vm.
Proof.
  destruct vm as [st cs imp am aa pl dev len ps]. unfold FlipXY, set_Positions. simpl.
  f_equal. rewrite map_map. transitivity (map (fun pos : Position => pos) ps).
  - apply map_ext. intros [s x y z]. reflexivity.
  - apply map_id.
Qed.

Lemma Info_feedrates (ps : list Position) :
  forall r,
    feedrates (fold_left infoStep ps r)
    = feedrateFold (map (fun p => Feedrate (pos_State p)) ps) (feedrates r).
Proof.
  induction ps as [| p ps IH]; intro r.
  - reflexivity.
  - cbn [fold_left map]. rewrite IH. unfold feedrateFold at 2. cbn [fold_left].
    unfold infoStep.
    destruct (infoAxis (pos_X p) (minx r) (maxx r)),
             (infoAxis (pos_Y p) (miny r) (maxy r)),
             (infoAxis (pos_Z p) (minz r) (maxz r)).
    reflexivity.
Qed.

(** X2: the bounding box of the flipped toolpath is the flipped bounding box:
    the X range and the Y range change places, the Z range and the feedrates
    stay. *)
Theorem Info_FlipXY (vm : Machine) :
  Info (FlipXY vm)
  = mkInfo (miny (Info vm)) (minx (Info vm)) (minz (Info vm))
           (maxy (Info vm)) (maxx (Info vm)) (maxz (Info vm)) (feedrates (Info vm)).
Proof.
  unfold Info, FlipXY. cbn [Positions set_Positions].
  set (flip := fun pos => set_pos_Y (set_pos_X pos (pos_Y pos)) (pos_X pos)).
  set (r0 := mkInfo 0 0 0 0 0 0 []).
  destruct (Info_axes (map flip (Positions vm)) r0) as [HX [HY HZ]].
  destruct (Info_axes (Positions vm) r0) as [HX' [HY' HZ']].
  pose proof (Info_feedrates (map flip (Positions vm)) r0) as HF.
  pose proof (Info_feedrates (Positions vm) r0) as HF'.
  rewrite !map_map in HX, HY, HZ, HF. cbn [flip pos_X pos_Y pos_Z pos_State set_pos_X set_pos_Y] in *.
  change (map (fun x => pos_Y x) (Positions vm)) with (map pos_Y (Positions vm)) in HX.
  change (map (fun x => pos_X x) (Positions vm)) with (map pos_X (Positions vm)) in HY.
  change (map (fun x => pos_Z x) (Positions vm)) with (map pos_Z (Positions vm)) in HZ.
  cbn [r0 minx miny minz maxx maxy maxz feedrates] in *.
  rewrite <- HY' in HX. rewrite <- HX' in HY. rewrite <- HZ' in HZ. rewrite <- HF' in HF.
  injection HX as HX1 HX2. injection HY as HY1 HY2. injection HZ as HZ1 HZ2.
  destruct (fold_left infoStep (map flip (Positions vm)) r0) as [a b c d e f g].
  cbn in *. subst. reflexivity.
Qed.

Lemma distinctFloats_snoc (acc : list float) (f : float) :
  distinctFloats acc -> (forall a, In a acc -> (a =? f) = false) ->
  distinctFloats (acc ++ [f]).
Proof.
  induction acc as [| a acc IH]; intros Hd Hf.
  - cbn. split; [intros b [] | exact I].
  - destruct Hd as [Ha Hd]. cbn [app distinctFloats]. split.
    + intros b Hb. apply in_app_or in Hb. destruct Hb as [Hb | [<- | []]].
      * apply Ha, Hb.
      * apply Hf. left. reflexivity.
    + apply IH; [exact Hd |]. intros b Hb. apply Hf. right. exact Hb.
Qed.

Lemma feedrateFold_spec (fs : list float) :
  forall acc,
    distinctFloats acc ->
    distinctFloats (feedrateFold fs acc) /\
    (forall a, In a acc -> In a (feedrateFold fs acc)) /\
    (forall a, In a (feedrateFold fs acc) -> In a acc \/ In a fs) /\
    (forall f, In f fs -> is_nan f = false ->
               exists a, In a (feedrateFold fs acc) /\ (a =? f) = true).
Proof.
  induction fs as [| f fs IH]; intros acc Hd.
  - cbn. repeat split; auto. intros f [].
  - unfold feedrateFold. cbn [fold_left]. fold (feedrateFold fs).
    destruct (existsb (fun feed => feed =? f) acc) eqn:Hex; cbn [negb].
    + destruct (IH acc Hd) as [D [K [S C]]]. repeat split; auto.
      * intros a Ha. destruct (S a Ha); [left | right; right]; assumption.
      * intros g [<- | Hg] Hn; [| apply C; assumption].
        apply existsb_exists in Hex. destruct Hex as [a [Ha Heq]].
        exists a. split; [apply K, Ha | exact Heq].
    + assert (Hnone : forall a, In a acc -> (a =? f) = false).
      { intros a Ha. destruct (a =? f) eqn:E; [| reflexivity].
        assert (existsb (fun feed => feed =? f) acc = true)
          by (apply existsb_exists; exists a; split; assumption).
        congruence. }
      destruct (IH (acc ++ [f]) (distinctFloats_snoc acc f Hd Hnone)) as [D [K [S C]]].
      repeat split; auto.
      * intros a Ha. apply K. apply in_or_app. left. exact Ha.
      * intros a Ha. destruct (S a Ha) as [H | H]; [| right; right; exact H].
        apply in_app_or in H. destruct H as [H | [<- | []]];
          [left; exact H | right; left; reflexivity].
      * intros g [<- | Hg] Hn; [| apply C; assumption].
        exists f. split; [apply K, in_or_app; right; left; reflexivity |].
        apply feq_refl, Hn.
Qed.

(** X3: the feedrates [Info] returns are pairwise different as float64
    values, each is the feedrate of a waypoint, and every waypoint's feedrate
    other than NaN is among them. *)
Theorem Info_feedrates_inventory (vm : Machine) :
  distinctFloats (feedrates (Info vm)) /\
  (forall f, In f (feedrates (Info vm)) ->
             exists p, In p (Positions vm) /\ f = Feedrate (pos_State p)) /\
  (forall p, In p (Positions vm) -> is_nan (Feedrate (pos_State p)) = false ->
             exists f, In f (feedrates (Info vm)) /\ (f =? Feedrate (pos_State p)) = true).
Proof.
  unfold Info. rewrite Info_feedrates. cbn [feedrates].
  destruct (feedrateFold_spec (map (fun p => Feedrate (pos_State p)) (Positions vm)) [] I)
    as [D [_ [S C]]].
  repeat split.
  - exact D.
  - intros f Hf. destruct (S f Hf) as [[] | H].
    apply in_map_iff in H. destruct H as [p [<- Hp]]. exists p. split; [exact Hp | reflexivity].
  - intros p Hp Hn. apply C; [| exact Hn].
    apply in_map_iff. exists p. split; [reflexivity | exact Hp].
Qed.

Lemma LimitFeedrate_not_above (feed : float) (vm : Machine) (p : Position) :
  In p (Positions (LimitFeedrate feed vm)) -> fgt (Feedrate (pos_State p)) feed = false.
Proof.
  unfold LimitFeedrate. cbn [Positions set_Positions].
  intro Hp. apply in_map_iff in Hp. destruct Hp as [m [<- _]].
  destruct (fgt (Feedrate (pos_State m)) feed) eqn:E; [| exact E].
  cbn. unfold fgt. apply flt_irrefl.
Qed.

(** X4: after [LimitFeedrate] no waypoint's feedrate is above the limit, and
    nothing but feedrates has changed. *)
Theorem LimitFeedrate_bounds (feed : float) (vm : Machine) :
  (forall p, In p (Positions (LimitFeedrate feed vm)) ->
             fgt (Feedrate (pos_State p)) feed = false) /\
  map Vector_of (Positions (LimitFeedrate feed vm)) = map Vector_of (Positions vm) /\
  map (fun p => set_Feedrate (pos_State p) 0) (Positions (LimitFeedrate feed vm))
  = map (fun p => set_Feedrate (pos_State p) 0) (Positions vm).
Proof.
  split; [intros p Hp; exact (LimitFeedrate_not_above feed vm p Hp) |].
  unfold LimitFeedrate. cbn [Positions set_Positions]. split.
  - rewrite map_map. apply map_ext. intro m.
    destruct (fgt (Feedrate (pos_State m)) feed); reflexivity.
  - rewrite map_map. apply map_ext. intro m.
    destruct (fgt (Feedrate (pos_State m)) feed); reflexivity.
Qed.

(** X5: limiting the feedrate a second time to the same value changes
    nothing. *)
Theorem LimitFeedrate_idempotent (feed : float) (vm : Machine) :
  LimitFeedrate feed (LimitFeedrate feed vm) = LimitFeedrate feed vm.
Proof.
  unfold LimitFeedrate at 1 3. unfold set_Positions at 1. cbn [vm_State vm_CoordinateSystem
    Imperial AbsoluteMove AbsoluteArc MovePlane MaxArcDeviation MinArcLineLength
    LimitFeedrate set_Positions].
  unfold set_Positions. f_equal.
  transitivity (map (fun m : Position => m) (Positions (LimitFeedrate feed vm))).
  - apply map_ext_in. intros p Hp.
    rewrite (LimitFeedrate_not_above feed vm p Hp). reflexivity.
  - apply map_id.
Qed.

(** X6: of two spindle enforcements in a row the second one stands: the
    result is that of the second alone. *)
Theorem EnforceSpindle_last_wins (e1 c1 e2 c2 : bool) (s1 s2 : float) (vm : Machine) :
  EnforceSpindle e2 c2 s2 (EnforceSpindle e1 c1 s1 vm) = EnforceSpindle e2 c2 s2 vm.
Proof.
  unfold EnforceSpindle, set_Positions. simpl. f_equal.
  rewrite map_map. apply map_ext. intro m. reflexivity.
Qed.

(** ** OptLiftSpeed *)

Lemma liftSpeed_app (pre : list Position) :
  forall lx ly lz a rest,
    liftSpeed lx ly lz (pre ++ a :: rest)
    = liftSpeed lx ly lz (pre ++ [a]) ++ liftSpeed (pos_X a) (pos_Y a) (pos_Z a) rest.
Proof.
  induction pre as [| b pre IH]; intros lx ly lz a rest.
  - reflexivity.
  - cbn [app liftSpeed]. rewrite IH. reflexivity.
Qed.

Lemma liftSpeed_length (ps : list Position) :
  forall lx ly lz, length (liftSpeed lx ly lz ps) = length ps.
Proof.
  induction ps as [| m ps IH]; intros lx ly lz; [reflexivity |].
  cbn [liftSpeed length]. rewrite IH. reflexivity.
Qed.

Lemma liftSpeed_idempotent (ps : list Position) :
  forall lx ly lz,
    liftSpeed lx ly lz (liftSpeed lx ly lz ps) = liftSpeed lx ly lz ps.
Proof.
  induction ps as [| m ps IH]; intros lx ly lz; [reflexivity |].
  cbn [liftSpeed].
  destruct ((pos_X m =? lx) && (pos_Y m =? ly) && fgt (pos_Z m) lz) eqn:E.
  - cbn [liftSpeed pos_X pos_Y pos_Z set_pos_MoveMode set_pos_State]. rewrite E.
    rewrite IH. reflexivity.
  - cbn [liftSpeed]. rewrite E, IH. reflexivity.
Qed.

(** X7: a second run of [OptLiftSpeed] changes nothing. *)
Theorem OptLiftSpeed_idempotent (vm : Machine) :
  OptLiftSpeed (OptLiftSpeed vm) = OptLiftSpeed vm.
Proof.
  unfold OptLiftSpeed, set_Positions. simpl. f_equal. apply liftSpeed_idempotent.
Qed.

(** X8: [OptLiftSpeed] keeps the number of waypoints, and the waypoint that
    follows [prev] in the toolpath comes out in rapid mode if it is a pure
    lift from [prev] (same X and Y, greater Z) and unchanged if it is not. *)
Theorem OptLiftSpeed_promotes_lifts (vm : Machine) (pre post : list Position)
        (prev m : Position) :
  Positions vm = pre ++ prev :: m :: post ->
  length (Positions (OptLiftSpeed vm)) = length (Positions vm) /\
  nth_error (Positions (OptLiftSpeed vm)) (S (length pre))
  = Some (if pureLift prev m then set_pos_MoveMode m MoveModeRapid else m).
Proof.
  intro Hps. unfold OptLiftSpeed. cbn [Positions set_Positions].
  split; [apply liftSpeed_length |].
  rewrite Hps, liftSpeed_app. cbn [liftSpeed].
  rewrite nth_error_app2; rewrite liftSpeed_length, length_app; cbn [length]; [| lia].
  replace (S (length pre) - (length pre + 1))%nat with 0%nat by lia.
  reflexivity.
Qed.

Lemma OptLiftSpeed_promotes_lifts_witness :
  nth_error (Positions (OptLiftSpeed (machineOf reDrill))) 2
  = Some (set_pos_MoveMode (linearTo 0 0 1) MoveModeRapid).
Proof.
  destruct (OptLiftSpeed_promotes_lifts (machineOf reDrill) [origin] [linearTo 0 0 (-3)]
              (linearTo 0 0 (-5)) (linearTo 0 0 1) eq_refl) as [_ H].
  exact H.
Defined.

(** ** SetSafetyHeight *)

(** The plane [SetSafetyHeight] checks against: zero or the Z of a waypoint
    below the top, and at least the Z of every waypoint below the top. *)
Lemma nextLowerZ_greatest (maxz : float) (ps : list Position) :
  forall n0,
    is_nan n0 = false ->
    let r := fold_left (fun nextz m => if (pos_Z m <? maxz) && fgt (pos_Z m) nextz
                                       then pos_Z m else nextz) ps n0 in
    is_nan r = false /\ keyLe (fkey n0) (fkey r) /\
    (forall p, In p ps -> (pos_Z p <? maxz) = true -> keyLe (fkey (pos_Z p)) (fkey r)) /\
    (r = n0 \/ exists p, In p ps /\ r = pos_Z p /\ (pos_Z p <? maxz) = true).
Proof.
  induction ps as [| m ps IH]; intros n0 Hn.
  - cbn. repeat split; auto using keyLe_refl. intros p [].
  - cbn [fold_left].
    destruct (pos_Z m <? maxz) eqn:Hlow; cbn [andb].
    + destruct (flt_not_nan _ _ Hlow) as [Hm _]. unfold fgt.
      destruct (n0 <? pos_Z m) eqn:Hgt.
      * destruct (IH (pos_Z m) Hm) as [N [L [A E]]]. cbv zeta in *.
        assert (K : keyLe (fkey n0) (fkey (pos_Z m)))
          by (apply keyLt_le, (flt_key _ _ Hn Hm), Hgt).
        repeat split; auto.
        -- exact (keyLe_trans _ _ _ K L).
        -- intros p [<- | Hp] Hpl; [exact L | apply A; assumption].
        -- right. destruct E as [E | [p [Hp [E Hpl]]]].
           ++ exists m. repeat split; auto. left. reflexivity.
           ++ exists p. repeat split; auto. right. exact Hp.
      * destruct (IH n0 Hn) as [N [L [A E]]]. cbv zeta in *.
        assert (K : keyLe (fkey (pos_Z m)) (fkey n0)).
        { apply keyLe_total. rewrite <- (flt_key _ _ Hn Hm). congruence. }
        repeat split; auto.
        -- intros p [<- | Hp] Hpl; [exact (keyLe_trans _ _ _ K L) | apply A; assumption].
        -- destruct E as [E | [p [Hp [E Hpl]]]]; [left; exact E |].
           right. exists p. repeat split; auto. right. exact Hp.
    + destruct (IH n0 Hn) as [N [L [A E]]]. cbv zeta in *.
      repeat split; auto.
      * intros p [<- | Hp] Hpl; [congruence | apply A; assumption].
      * destruct E as [E | [p [Hp [E Hpl]]]]; [left; exact E |].
        right. exists p. repeat split; auto. right. exact Hp.
Qed.

Lemma keyLt_total (a b : Z * Z * Z) : ~ keyLe a b -> keyLt b a.
Proof. key_cases. lia. Qed.

Lemma keyLe_lt_trans (a b c : Z * Z * Z) : keyLe a b -> keyLt b c -> keyLt a c.
Proof. key_cases. lia. Qed.

(** X9: when [SetSafetyHeight] accepts a height other than NaN, that height
    is strictly above every waypoint that lies below the old top plane. *)
Theorem SetSafetyHeight_clears_lower_planes (height : float) (vm vm' : Machine) :
  is_nan height = false ->
  SetSafetyHeight height vm = (vm', None) ->
  forall p, In p (Positions vm) ->
            (pos_Z p <? FindSafetyHeight vm) = true -> (pos_Z p <? height) = true.
Proof.
  intros Hh Hset p Hp Hlow. unfold SetSafetyHeight in Hset. cbv zeta in Hset.
  destruct (nextLowerZ_greatest (FindSafetyHeight vm) (Positions vm) 0 eq_refl)
    as [N [_ [A _]]].
  fold (nextLowerZ (FindSafetyHeight vm) (Positions vm)) in N, A.
  destruct (height <=? nextLowerZ (FindSafetyHeight vm) (Positions vm)) eqn:Hle;
    [discriminate |].
  destruct (flt_not_nan _ _ Hlow) as [Hz _].
  apply (flt_key _ _ Hz Hh).
  apply (keyLe_lt_trans _ _ _ (A p Hp Hlow)).
  apply keyLt_total. rewrite <- (fle_key _ _ Hh N). congruence.
Qed.

Lemma SetSafetyHeight_clears_lower_planes_witness :
  (pos_Z (linearTo 3 4 (-1)) <? 10) = true.
Proof.
  apply (SetSafetyHeight_clears_lower_planes 10 (machineOf lowEnd)
           (set_Positions (machineOf lowEnd)
              [origin; set_pos_Z (rapidTo 0 0 5) 10; rapidTo 3 4 5; linearTo 3 4 (-1)])
           eq_refl eq_refl (linearTo 3 4 (-1))).
  - cbn. tauto.
  - reflexivity.
Defined.

(** X10: when [SetSafetyHeight] returns its error the machine is as it was,
    the height is at or below the plane the error names, and that plane is
    zero or the Z of a waypoint below the top plane. *)
Theorem SetSafetyHeight_rejects_collision (height : float) (vm vm' : Machine)
        (err : SafetyHeightError) :
  SetSafetyHeight height vm = (vm', Some err) ->
  vm' = vm /\
  exists nextz,
    err = CollidesWithFeedHeight nextz /\ (height <=? nextz) = true /\
    (nextz = 0 \/
     exists p, In p (Positions vm) /\ nextz = pos_Z p
               /\ (pos_Z p <? FindSafetyHeight vm) = true).
Proof.
  unfold SetSafetyHeight. cbv zeta.
  destruct (nextLowerZ_greatest (FindSafetyHeight vm) (Positions vm) 0 eq_refl)
    as [_ [_ [_ E]]].
  fold (nextLowerZ (FindSafetyHeight vm) (Positions vm)) in E.
  destruct (height <=? nextLowerZ (FindSafetyHeight vm) (Positions vm)) eqn:Hle;
    intro H; [| discriminate].
  injection H as <- <-. split; [reflexivity |].
  exists (nextLowerZ (FindSafetyHeight vm) (Positions vm)). repeat split; auto.
Qed.

(** The spec's case: a feed plane at 5 under a top plane at 8, a request for 5. *)
Lemma SetSafetyHeight_rejects_collision_witness :
  machineOf [origin; rapidTo 0 0 8; rapidTo 0 0 5; rapidTo 1 0 5]
  = machineOf [origin; rapidTo 0 0 8; rapidTo 0 0 5; rapidTo 1 0 5] /\
  exists nextz,
    CollidesWithFeedHeight 5 = CollidesWithFeedHeight nextz /\ (5 <=? nextz) = true /\
    (nextz = 0 \/
     exists p, In p (Positions (machineOf [origin; rapidTo 0 0 8; rapidTo 0 0 5; rapidTo 1 0 5]))
               /\ nextz = pos_Z p
               /\ (pos_Z p <? FindSafetyHeight
                               (machineOf [origin; rapidTo 0 0 8; rapidTo 0 0 5; rapidTo 1 0 5]))
                  = true).
Proof.
  apply (SetSafetyHeight_rejects_collision 5
           (machineOf [origin; rapidTo 0 0 8; rapidTo 0 0 5; rapidTo 1 0 5])).
  reflexivity.
Defined.

Lemma raiseSafetyHeight_app (maxz height : float) (pre : list Position) :
  forall lx ly a rest,
    raiseSafetyHeight maxz height lx ly (pre ++ a :: rest)
    = raiseSafetyHeight maxz height lx ly (pre ++ [a])
      ++ raiseSafetyHeight maxz height (pos_X a) (pos_Y a) rest.
Proof.
  induction pre as [| b pre IH]; intros lx ly a rest.
  - reflexivity.
  - cbn [app raiseSafetyHeight]. rewrite IH. reflexivity.
Qed.

Lemma raiseSafetyHeight_length (maxz height : float) (ps : list Position) :
  forall lx ly, length (raiseSafetyHeight maxz height lx ly ps) = length ps.
Proof.
  induction ps as [| m ps IH]; intros lx ly; [reflexivity |].
  cbn [raiseSafetyHeight length]. rewrite IH. reflexivity.
Qed.

(** X11: an accepted [SetSafetyHeight] keeps the number of waypoints; the
    waypoint that follows [prev] is moved to the new height if it stands at
    the old top plane over the X and Y of [prev], and is left as it is
    otherwise, a waypoint reached sideways at the top plane among them. *)
Theorem SetSafetyHeight_raises_vertical_tops (height : float) (vm vm' : Machine)
        (pre post : list Position) (prev m : Position) :
  SetSafetyHeight height vm = (vm', None) ->
  Positions vm = pre ++ prev :: m :: post ->
  length (Positions vm') = length (Positions vm) /\
  nth_error (Positions vm') (S (length pre))
  = Some (if (pos_X prev =? pos_X m) && (pos_Y prev =? pos_Y m)
             && (pos_Z m =? FindSafetyHeight vm)
          then set_pos_Z m height else m).
Proof.
  unfold SetSafetyHeight. cbv zeta.
  destruct (height <=? nextLowerZ (FindSafetyHeight vm) (Positions vm)); [discriminate |].
  intros H Hps. injection H as <-. cbn [Positions set_Positions].
  split; [apply raiseSafetyHeight_length |].
  rewrite Hps. rewrite raiseSafetyHeight_app. cbn [raiseSafetyHeight].
  rewrite nth_error_app2; rewrite raiseSafetyHeight_length, length_app; cbn [length]; [| lia].
  replace (S (length pre) - (length pre + 1))%nat with 0%nat by lia.
  reflexivity.
Qed.

(** The lateral rapid at the top plane stays at 5 when the top goes to 10. *)
Lemma SetSafetyHeight_raises_vertical_tops_witness :
  nth_error [origin; set_pos_Z (rapidTo 0 0 5) 10; rapidTo 3 4 5; linearTo 3 4 (-1)] 2
  = Some (rapidTo 3 4 5).
Proof.
  destruct (SetSafetyHeight_raises_vertical_tops 10 (machineOf lowEnd)
              (set_Positions (machineOf lowEnd)
                 [origin; set_pos_Z (rapidTo 0 0 5) 10; rapidTo 3 4 5; linearTo 3 4 (-1)])
              [origin] [linearTo 3 4 (-1)] (rapidTo 0 0 5) (rapidTo 3 4 5) eq_refl eq_refl)
    as [_ H].
  exact H.
Defined.

(** ** OptVector *)

Lemma last_snoc {A : Type} (l : list A) (a d : A) : last (l ++ [a]) d = a.
Proof.
  induction l as [| b l IH]; [reflexivity |].
  destruct l as [| c l]; [reflexivity | exact IH].
Qed.

Lemma hd_error_snoc {A : Type} (l l' : list A) (a : A) :
  hd_error l = hd_error l' -> hd_error (l ++ [a]) = hd_error (l' ++ [a]).
Proof. destruct l, l'; cbn; intro H; try discriminate; auto. Qed.

Lemma vectorInv_append (processed : list Position) (st : VectorState) (m : Position)
      (v1 v2 v3 : Vector) (r : Z) (mode : MoveModes) :
  vectorInv processed st ->
  (0 <= r <= 3)%Z ->
  ((1 <= r)%Z -> isMotion m = true /\ ((2 <= r)%Z -> v_npos st <> [])) ->
  (isMotion m = false -> r = 0%Z) ->
  vectorInv (processed ++ [m]) (appendpos (mkVectorState v1 v2 v3 r mode (v_npos st)) m).
Proof.
  intros [Hr [Hlen [Hhd [Hlast [Hfil Hrdy]]]]] Hr' Hm Hnm.
  unfold vectorInv, appendpos. cbn [ready v_npos]. repeat split; try lia.
  - rewrite !length_app. cbn [length]. lia.
  - apply hd_error_snoc, Hhd.
  - intro d. rewrite !last_snoc. reflexivity.
  - rewrite !filter_app, Hfil. reflexivity.
  - intro H1. destruct (Hm H1) as [Hmot Hne]. exists (v_npos st), m. repeat split; auto.
Qed.

Lemma vectorInv_merge (tolerance : float) (processed : list Position)
      (st : VectorState) (m : Position) (v1 v2 v3 : Vector) (mode : MoveModes) :
  vectorInv processed st -> (2 <= ready st)%Z -> isMotion m = true ->
  exists st',
    vectorMerge tolerance (mkVectorState v1 v2 v3 3 mode (v_npos st)) m = Ok st' /\
    vectorInv (processed ++ [m]) st'.
Proof.
  intros Hinv H2 Hmot. pose proof Hinv as [Hr [Hlen [Hhd [Hlast [Hfil Hrdy]]]]].
  destruct Hrdy as [l [q [Hn [Hq Hl]]]]; [lia |]. specialize (Hl H2).
  unfold vectorMerge. cbn [vec1 vec2 vec3 ready lastMoveMode v_npos].
  destruct (_ <? tolerance).
  - rewrite Hn in *.
    assert (Hok : match l ++ [q] with
                  | [] => Panic IndexOutOfRange
                  | _ => Ok (mkVectorState v1 v1 v3 3 mode (removelast (l ++ [q]) ++ [m]))
                  end = Ok (mkVectorState v1 v1 v3 3 mode (l ++ [m]))).
    { rewrite removelast_last. destruct l; [congruence | reflexivity]. }
    rewrite Hok. eexists. split; [reflexivity |].
    assert (Hp : processed <> []).
    { intro Hp. subst processed. destruct l; discriminate. }
    unfold vectorInv. cbn [ready v_npos]. repeat split; try lia.
    + rewrite !length_app in *. cbn [length] in *. lia.
    + destruct l as [| a l]; [congruence |]. destruct processed as [| b pr]; [congruence |].
      cbn in *. exact Hhd.
    + intro d. rewrite !last_snoc. reflexivity.
    + rewrite !filter_app in *. cbn [filter] in *. rewrite Hq in Hfil. rewrite Hmot.
      cbn [negb] in *. rewrite ?app_nil_r in Hfil. rewrite ?app_nil_r. exact Hfil.
    + intros _. exists l, m. repeat split; auto.
  - eexists. split; [reflexivity |].
    apply vectorInv_append; auto; try lia.
    + intros _. split; [exact Hmot |]. intros _. rewrite Hn. destruct l; discriminate.
    + congruence.
Qed.

Lemma vectorStep_inv (tolerance : float) (processed : list Position)
      (st : VectorState) (m : Position) :
  vectorInv processed st ->
  exists st', vectorStep tolerance st m = Ok st' /\ vectorInv (processed ++ [m]) st'.
Proof.
  intro Hinv. unfold vectorStep.
  assert (Hmot : isMotion m
                 = negb (negb (MoveModes_eqb (MoveMode (pos_State m)) MoveModeLinear)
                         && negb (MoveModes_eqb (MoveMode (pos_State m)) MoveModeRapid))).
  { unfold isMotion.
    destruct (MoveModes_eqb (MoveMode (pos_State m)) MoveModeLinear),
             (MoveModes_eqb (MoveMode (pos_State m)) MoveModeRapid); reflexivity. }
  destruct (negb (MoveModes_eqb (MoveMode (pos_State m)) MoveModeLinear)
            && negb (MoveModes_eqb (MoveMode (pos_State m)) MoveModeRapid)).
  - eexists. split; [reflexivity |].
    apply vectorInv_append; auto; lia.
  - cbn [negb] in Hmot.
    set (st1 := if negb (MoveModes_eqb (MoveMode (pos_State m)) (lastMoveMode st))
                then mkVectorState (vec1 st) (vec2 st) (vec3 st) 0
                                   (MoveMode (pos_State m)) (v_npos st)
                else st).
    assert (H1 : v_npos st1 = v_npos st) by (unfold st1; destruct (negb _); reflexivity).
    assert (H2 : ready st1 = 0%Z \/ ready st1 = ready st)
      by (unfold st1; destruct (negb _); auto).
    pose proof Hinv as [Hr [_ [_ [_ [_ Hrdy]]]]].
    destruct (ready st1 =? 0)%Z eqn:E0; [| destruct (ready st1 =? 1)%Z eqn:E1;
                                           [| destruct (ready st1 =? 2)%Z eqn:E2]].
    + eexists. split; [reflexivity |]. rewrite H1.
      apply Z.eqb_eq in E0. rewrite E0. change (0 + 1)%Z with 1%Z.
      apply (vectorInv_append processed st m _ _ _ 1 _ Hinv); [lia | | congruence].
      intros _. split; [exact Hmot | lia].
    + eexists. split; [reflexivity |]. rewrite H1.
      apply Z.eqb_eq in E1. rewrite E1. change (1 + 1)%Z with 2%Z.
      apply (vectorInv_append processed st m _ _ _ 2 _ Hinv); [lia | | congruence].
      intros _. split; [exact Hmot |]. intros _.
      destruct Hrdy as [l [q [Hn _]]]; [lia |]. rewrite Hn. destruct l; discriminate.
    + apply Z.eqb_eq in E2. rewrite E2, H1. change (2 + 1)%Z with 3%Z.
      apply vectorInv_merge; auto. lia.
    + apply Z.eqb_neq in E0, E1, E2.
      assert (E3 : ready st1 = 3%Z) by lia. rewrite E3, H1.
      apply vectorInv_merge; auto. lia.
Qed.

Lemma vectorLoop_inv (tolerance : float) (ps : list Position) :
  forall processed st,
    vectorInv processed st ->
    exists st', foldM (vectorStep tolerance) ps st = Ok st' /\ vectorInv (processed ++ ps) st'.
Proof.
  induction ps as [| m ps IH]; intros processed st Hinv.
  - exists st. rewrite app_nil_r. split; [reflexivity | exact Hinv].
  - destruct (vectorStep_inv tolerance processed st m Hinv) as [st1 [Hstep Hinv1]].
    destruct (IH (processed ++ [m]) st1 Hinv1) as [st' [Hfold Hinv']].
    exists st'. cbn [foldM]. rewrite Hstep. cbn [bind].
    rewrite <- app_assoc in Hinv'. split; assumption.
Qed.

Lemma vectorPositions_inv (mode0 : MoveModes) (tolerance : float) (ps : list Position) :
  exists st,
    foldM (vectorStep tolerance) ps
          (mkVectorState (mkVector 0 0 0) (mkVector 0 0 0) (mkVector 0 0 0) 0 mode0 [])
    = Ok st /\ vectorInv ps st.
Proof.
  apply (vectorLoop_inv tolerance ps []).
  unfold vectorInv. cbn. repeat split; try lia. 
Qed.

(** X12: [OptVector] never panics, the index it overwrites is always there;
    it returns a toolpath no longer than the one it got, with the same
    first and the same last waypoint. *)
Theorem OptVector_keeps_endpoints (tolerance : float) (vm : Machine) :
  exists vm',
    OptVector tolerance vm = Ok vm' /\
    (length (Positions vm') <= length (Positions vm))%nat /\
    hd_error (Positions vm') = hd_error (Positions vm) /\
    forall d, last (Positions vm') d = last (Positions vm) d.
Proof.
  unfold OptVector, vectorPositions.
  destruct (vectorPositions_inv MoveModeNone tolerance (Positions vm))
    as [st [-> [_ [Hlen [Hhd [Hlast _]]]]]].
  cbn [bind]. eexists. split; [reflexivity |]. cbn [Positions set_Positions]. auto.
Qed.

(** X13: [OptVector] keeps every waypoint that is not a rapid or linear
    move, dwells among them, and keeps them in their order. *)
Theorem OptVector_keeps_non_motion (tolerance : float) (vm vm' : Machine) :
  OptVector tolerance vm = Ok vm' ->
  filter (fun p => negb (isMotion p)) (Positions vm')
  = filter (fun p => negb (isMotion p)) (Positions vm).
Proof.
  unfold OptVector, vectorPositions.
  destruct (vectorPositions_inv MoveModeNone tolerance (Positions vm))
    as [st [-> [_ [_ [_ [_ [Hfil _]]]]]]].
  cbn [bind]. intro H. injection H as <-. exact Hfil.
Qed.

Lemma OptVector_keeps_non_motion_witness :
  filter (fun p => negb (isMotion p))
         (Positions (set_Positions (machineOf cutWithDwell) cutWithDwell))
  = filter (fun p => negb (isMotion p)) (Positions (machineOf cutWithDwell)).
Proof.
  apply (OptVector_keeps_non_motion 0.01 (machineOf cutWithDwell)).
  vm_compute. reflexivity.
Defined.

Lemma MoveModes_eqb_eq (a b : MoveModes) : MoveModes_eqb a b = true -> a = b.
Proof. destruct a, b; cbn; intro H; try discriminate; reflexivity. Qed.

(** The value [lastMoveMode] starts from has no part in the result: the
    window is empty until the first move, and the first move sets it. *)
Lemma vectorStep_initial_mode (tolerance : float) (st : VectorState) (mode' : MoveModes)
      (m : Position) :
  ready st = 0%Z ->
  vectorStep tolerance
             (mkVectorState (vec1 st) (vec2 st) (vec3 st) (ready st) mode' (v_npos st)) m
  = vectorStep tolerance st m
  \/ exists st1,
      vectorStep tolerance st m = Ok st1 /\ ready st1 = 0%Z /\
      vectorStep tolerance
                 (mkVectorState (vec1 st) (vec2 st) (vec3 st) (ready st) mode' (v_npos st)) m
      = Ok (mkVectorState (vec1 st1) (vec2 st1) (vec3 st1) (ready st1) mode' (v_npos st1)).
Proof.
  intro Hr. destruct st as [v1 v2 v3 r mode np]. cbn [ready] in Hr. subst r.
  unfold vectorStep. cbn [vec1 vec2 vec3 ready lastMoveMode v_npos].
  destruct (negb (MoveModes_eqb (MoveMode (pos_State m)) MoveModeLinear)
            && negb (MoveModes_eqb (MoveMode (pos_State m)) MoveModeRapid)).
  - right. eexists. split; [reflexivity |]. split; reflexivity.
  - left.
    destruct (MoveModes_eqb (MoveMode (pos_State m)) mode') eqn:E1,
             (MoveModes_eqb (MoveMode (pos_State m)) mode) eqn:E2;
      cbn [negb ready vec1 vec2 vec3 lastMoveMode v_npos Z.eqb];
      try (apply MoveModes_eqb_eq in E1; subst mode');
      try (apply MoveModes_eqb_eq in E2; subst mode); reflexivity.
Qed.

Lemma vectorLoop_initial_mode (tolerance : float) (ps : list Position) :
  forall st mode',
    ready st = 0%Z ->
    match foldM (vectorStep tolerance) ps st,
          foldM (vectorStep tolerance) ps
                (mkVectorState (vec1 st) (vec2 st) (vec3 st) (ready st) mode' (v_npos st))
    with
    | Ok a, Ok b => v_npos a = v_npos b
    | Panic p, Panic q => p = q
    | _, _ => False
    end.
Proof.
  induction ps as [| m ps IH]; intros st mode' Hr.
  - reflexivity.
  - cbn [foldM].
    destruct (vectorStep_initial_mode tolerance st mode' m Hr) as [-> | [st1 [H1 [Hr1 ->]]]].
    + destruct (vectorStep tolerance st m) as [st1 | p]; cbn [bind]; [| reflexivity].
      destruct (foldM (vectorStep tolerance) ps st1); reflexivity.
    + rewrite H1. cbn [bind]. apply IH, Hr1.
Qed.

(** X14: the toolpath [OptVector] returns does not depend on the value the
    variable [lastMoveMode] starts from. *)
Theorem vectorPositions_initial_mode (mode0 mode0' : MoveModes) (tolerance : float)
        (positions : list Position) :
  vectorPositions mode0 tolerance positions = vectorPositions mode0' tolerance positions.
Proof.
  unfold vectorPositions.
  pose proof (vectorLoop_initial_mode tolerance positions
                (mkVectorState (mkVector 0 0 0) (mkVector 0 0 0) (mkVector 0 0 0) 0 mode0 [])
                mode0' eq_refl) as H.
  cbn [vec1 vec2 vec3 ready v_npos] in H.
  destruct (foldM _ positions (mkVectorState _ _ _ 0 mode0 _)) as [a | p],
           (foldM _ positions (mkVectorState _ _ _ 0 mode0' _)) as [b | q];
    cbn [bind]; try contradiction; congruence.
Qed.

(** ** What move, dwell and arc append *)

Lemma last_cons_default {A : Type} (l : list A) :
  forall a d : A, last (a :: l) d = last l a.
Proof.
  induction l as [| b l IH]; intros a d; [reflexivity |].
  change (last (a :: b :: l) d) with (last (b :: l) d).
  rewrite (IH b d), (IH b a). reflexivity.
Qed.

Lemma curPos_In (vm : Machine) (p : Position) : curPos vm = Ok p -> In p (Positions vm).
Proof.
  unfold curPos. destruct (Positions vm) as [| a l] eqn:E; intro H; [discriminate |].
  injection H as <-. rewrite <- (last_cons_default l a a).
  rewrite (app_removelast_last a (l := a :: l)) at 2 by discriminate.
  apply in_or_app. right. left. reflexivity.
Qed.

Lemma move_spec (x y z : float) (vm vm' : Machine) :
  move x y z vm = Ok vm' ->
  exists q, vm' = set_Positions vm (Positions vm ++ [q]) /\
            noNaN q = true /\ pos_State q = vm_State vm /\
            pos_X q = x /\ pos_Y q = y /\ pos_Z q = z.
Proof.
  unfold move. destruct (is_nan x || is_nan y || is_nan z) eqn:E; intro H; [discriminate |].
  injection H as <-. eexists. split; [reflexivity |].
  unfold noNaN. cbn [pos_X pos_Y pos_Z pos_State]. rewrite E. repeat split; reflexivity.
Qed.

Lemma add_spec (plane : Plane) (a b c : float) (vm vm' : Machine) :
  add plane a b c vm = Ok vm' ->
  exists q, vm' = set_Positions vm (Positions vm ++ [q]) /\
            noNaN q = true /\ pos_State q = vm_State vm.
Proof.
  destruct plane; cbn [add]; intro H; apply move_spec in H;
    destruct H as [q [H1 [H2 [H3 _]]]]; exists q; auto.
Qed.

Lemma restore_mode (vm : Machine) (ps0 ps : list Position) :
  let vml := set_vm_State vm (set_MoveMode (vm_State vm) MoveModeLinear) in
  set_vm_State (set_Positions (set_Positions vml ps0) ps)
               (set_MoveMode (vm_State vml) (MoveMode (vm_State vm)))
  = set_Positions vm ps.
Proof. destruct vm as [st cs imp am aa pl dev len ps1]. destruct st. reflexivity. Qed.

Section ArcEmission.

Variable Atan2 : float -> float -> float.
Variables Cos Sin Acos Ceil : float -> float.
Variable int_of_float64 : float -> Z.

Lemma arcLoop_spec (count : nat) :
  forall i plane f theta1 angleDiff steps vm vm',
    arcLoop Cos Sin count i plane f theta1 angleDiff steps vm = Ok vm' ->
    exists pts,
      vm' = set_Positions vm (Positions vm ++ pts) /\ length pts = count /\
      forall q, In q pts -> noNaN q = true /\ pos_State q = vm_State vm.
Proof.
  induction count as [| count IH]; intros i plane f theta1 angleDiff steps vm vm' H.
  - injection H as <-. exists []. rewrite app_nil_r.
    split; [destruct vm; reflexivity |]. split; [reflexivity | intros q' []].
  - cbn [arcLoop] in H. apply bind_Ok in H. destruct H as [vm1 [Hadd Hrest]].
    apply add_spec in Hadd. destruct Hadd as [q [-> [Hq Hs]]].
    apply IH in Hrest. destruct Hrest as [pts [-> [Hlen Hall]]].
    exists (q :: pts). cbn [set_Positions Positions vm_State] in *.
    rewrite <- app_assoc. split; [reflexivity |]. split.
    + cbn [length]. rewrite Hlen. reflexivity.
    + intros q' [<- | H]; [split; assumption | apply Hall, H].
Qed.

(** What a returning [arc] leaves: the machine as it was, with new waypoints
    at the end of the toolpath. *)
Lemma arc_spec (x y z i j k rotations : float) (vm vm' : Machine) :
  arc Atan2 Cos Sin Acos Ceil int_of_float64 x y z i j k rotations vm = Ok vm' ->
  exists sp pts,
    curPos vm = Ok sp /\
    vm' = set_Positions vm (Positions vm ++ pts) /\
    (forall q, In q pts ->
               noNaN q = true /\ pos_State q = set_MoveMode (vm_State vm) MoveModeLinear) /\
    let vml := set_vm_State vm (set_MoveMode (vm_State vm) MoveModeLinear) in
    let f := arcFrame (MovePlane vm) sp x y z i j k in
    let steps :=
      arcStepCount Acos Ceil int_of_float64 vml f
        (arcAngleDiff (MoveModes_eqb (MoveMode (vm_State vm)) MoveModeCWArc)
           (Atan2 (s2 f - c2 f) (s1 f - c1 f)) (Atan2 (e2 f - c2 f) (e1 f - c1 f))
           rotations) in
    length pts = (if (steps >? 0)%Z then Z.to_nat (steps + 1) + 1 else 1)%nat.
Proof.
  unfold arc. intro H.
  apply bind_Ok in H. destruct H as [sp [Hcur H]].
  destruct (is_nan x || is_nan y || is_nan z || is_nan i || is_nan j || is_nan k);
    [discriminate |].
  destruct (rotations <? 1); [discriminate |].
  apply bind_Ok in H. destruct H as [[] [_ H]].
  apply bind_Ok in H. destruct H as [vm2 [Happrox H]].
  injection H as <-.
  unfold arcApproximate in Happrox. cbv zeta in Happrox.
  apply bind_Ok in Happrox. destruct Happrox as [vm1 [Hloop Hend]].
  cbn [MovePlane set_vm_State] in Hloop, Hend.
  apply add_spec in Hend. destruct Hend as [q [-> [Hq Hs]]].
  exists sp. cbv zeta.
  set (vml := set_vm_State vm (set_MoveMode (vm_State vm) MoveModeLinear)) in *.
  set (steps := arcStepCount _ _ _ vml _ _) in *.
  destruct (steps >? 0)%Z.
  - apply arcLoop_spec in Hloop. destruct Hloop as [pts [-> [Hlen Hall]]].
    exists (pts ++ [q]). cbn [Positions set_Positions vm_State] in *.
    split; [exact Hcur |]. split; [| split].
    + rewrite <- app_assoc. exact (restore_mode vm _ _).
    + intros q' Hq'. apply in_app_or in Hq'.
      destruct Hq' as [Hq' | [<- | []]]; [apply Hall, Hq' | split; assumption].
    + rewrite length_app, Hlen. reflexivity.
  - injection Hloop as <-. exists [q].
    cbn [Positions set_Positions vm_State] in *.
    split; [exact Hcur |]. split; [| split; [| reflexivity]].
    + exact (restore_mode vm (Positions vm) _).
    + intros q' [<- | []]. split; assumption.
Qed.

(** X15: a returning [arc] gives the machine back with its modal state as
    before the call, the arc mode included, and with at least one waypoint
    appended; every waypoint it appends is a linear move that carries the
    machine's modal state otherwise. *)
Theorem arc_appends_linear_moves (x y z i j k rotations : float) (vm vm' : Machine) :
  arc Atan2 Cos Sin Acos Ceil int_of_float64 x y z i j k rotations vm = Ok vm' ->
  exists pts,
    vm' = set_Positions vm (Positions vm ++ pts) /\ pts <> [] /\
    forall q, In q pts -> pos_State q = set_MoveMode (vm_State vm) MoveModeLinear.
Proof.
  intro H. destruct (arc_spec _ _ _ _ _ _ _ _ _ H) as [sp [pts [_ [Hvm [Hall Hlen]]]]].
  exists pts. repeat split; try assumption.
  - intro E. subst pts. cbv zeta in Hlen. destruct (_ >? 0)%Z; cbn in Hlen; lia.
  - intros q Hq. apply Hall, Hq.
Qed.

(** X16: [move], [dwell] and [arc] let no NaN into a toolpath: from a
    toolpath without NaN coordinates each of them, when it returns, leaves a
    toolpath without NaN coordinates. *)
Theorem emitters_keep_noNaN (x y z i j k rotations seconds : float) (vm vm' : Machine) :
  (forall p, In p (Positions vm) -> noNaN p = true) ->
  move x y z vm = Ok vm' \/ dwell seconds vm = Ok vm'
  \/ arc Atan2 Cos Sin Acos Ceil int_of_float64 x y z i j k rotations vm = Ok vm' ->
  forall p, In p (Positions vm') -> noNaN p = true.
Proof.
  intros Hwf [H | [H | H]] p Hp.
  - apply move_spec in H. destruct H as [q [-> [Hq _]]]. cbn [Positions set_Positions] in Hp.
    apply in_app_or in Hp. destruct Hp as [Hp | [<- | []]]; [apply Hwf, Hp | exact Hq].
  - unfold dwell in H. apply bind_Ok in H. destruct H as [cur [Hcur H]].
    injection H as <-. cbn [Positions set_Positions] in Hp.
    apply in_app_or in Hp. destruct Hp as [Hp | [<- | []]]; [apply Hwf, Hp |].
    exact (Hwf cur (curPos_In vm cur Hcur)).
  - destruct (arc_spec _ _ _ _ _ _ _ _ _ H) as [sp [pts [_ [-> [Hall _]]]]].
    cbn [Positions set_Positions] in Hp.
    apply in_app_or in Hp. destruct Hp as [Hp | Hp]; [apply Hwf, Hp | apply Hall, Hp].
Qed.

(** X17: a returning [arc] appends one waypoint when the step count is zero
    or negative and [steps + 2] waypoints when it is positive: the points of
    the indices 0 to [steps], and the end point once more. *)
Theorem arc_waypoint_count (x y z i j k rotations : float) (vm vm' : Machine)
        (sp : Position) :
  curPos vm = Ok sp ->
  arc Atan2 Cos Sin Acos Ceil int_of_float64 x y z i j k rotations vm = Ok vm' ->
  let vml := set_vm_State vm (set_MoveMode (vm_State vm) MoveModeLinear) in
  let f := arcFrame (MovePlane vm) sp x y z i j k in
  let steps :=
    arcStepCount Acos Ceil int_of_float64 vml f
      (arcAngleDiff (MoveModes_eqb (MoveMode (vm_State vm)) MoveModeCWArc)
         (Atan2 (s2 f - c2 f) (s1 f - c1 f)) (Atan2 (e2 f - c2 f) (e1 f - c1 f))
         rotations) in
  Z.of_nat (length (Positions vm'))
  = (Z.of_nat (length (Positions vm)) + (if steps >? 0 then steps + 2 else 1))%Z.
Proof.
  intros Hcur H. destruct (arc_spec _ _ _ _ _ _ _ _ _ H) as [sp' [pts [Hcur' [-> [_ Hlen]]]]].
  rewrite Hcur in Hcur'. injection Hcur' as <-. cbv zeta in *.
  cbn [Positions set_Positions]. rewrite length_app, Hlen.
  destruct (_ >? 0)%Z eqn:E; [apply Z.gtb_lt in E |]; lia.
Qed.

End ArcEmission.

Lemma arc_appends_linear_moves_witness :
  exists pts,
    set_Positions arcMachine (Positions arcMachine ++ [linearTo (-10) 0 0])
    = set_Positions arcMachine (Positions arcMachine ++ pts) /\ pts <> [] /\
    forall q, In q pts ->
              pos_State q = set_MoveMode (vm_State arcMachine) MoveModeLinear.
Proof.
  apply (arc_appends_linear_moves axisAtan2 unused unused unused unused truncate
           (-10) 0 0 0 0 0 1 arcMachine).
  vm_compute. reflexivity.
Defined.

Lemma emitters_keep_noNaN_witness :
  arc axisAtan2 unused unused unused unused truncate (-10) 0 0 0 0 0 1 arcMachine
  = Ok (set_Positions arcMachine (Positions arcMachine ++ [linearTo (-10) 0 0])) /\
  Forall (fun p => noNaN p = true) [origin; linearTo 10 0 0; linearTo (-10) 0 0].
Proof.
  assert (H : arc axisAtan2 unused unused unused unused truncate (-10) 0 0 0 0 0 1 arcMachine
              = Ok (set_Positions arcMachine (Positions arcMachine ++ [linearTo (-10) 0 0])))
    by (vm_compute; reflexivity).
  split; [exact H |].
  apply Forall_forall.
  apply (emitters_keep_noNaN axisAtan2 unused unused unused unused truncate
           (-10) 0 0 0 0 0 1 0 arcMachine
           (set_Positions arcMachine (Positions arcMachine ++ [linearTo (-10) 0 0]))).
  - intros p Hp. cbn in Hp. destruct Hp as [<- | [<- | []]]; reflexivity.
  - right. right. exact H.
Defined.

(** One step: the start at angle 0, the end at angle minus pi, and the end
    point once more. *)
Lemma arc_waypoint_count_witness :
  Z.of_nat (length (Positions stepArcMachine ++
                    [linearTo 10 0 0; linearTo (-10) (10 * axisSin 1) 0; linearTo (-10) 0 0]))
  = (Z.of_nat 2 + 3)%Z.
Proof.
  exact (arc_waypoint_count axisAtan2 axisCos axisSin unused unused truncate
           (-10) 0 0 0 0 0 1 stepArcMachine
           (set_Positions stepArcMachine
              (Positions stepArcMachine
               ++ [linearTo 10 0 0; linearTo (-10) (10 * axisSin 1) 0; linearTo (-10) 0 0]))
           (linearTo 10 0 0) eq_refl eq_refl).
Defined.

(** ** Return, once more *)

Lemma disable_idempotent (ds dc : bool) (p : Position) :
  disable ds dc (disable ds dc p) = disable ds dc p.
Proof. destruct ds, dc; reflexivity. Qed.

Lemma Return_from_origin (ds dc : bool) (vm : Machine) (kept : list Position)
      (final : Position) :
  Positions vm = kept ++ [final] -> atOrigin final = true ->
  Return ds dc vm = set_Positions vm (kept ++ [disable ds dc final]).
Proof.
  intros Hps Hor. unfold Return.
  destruct (Positions vm) as [| p ps] eqn:E.
  - destruct kept; discriminate.
  - assert (Hlast : last ps p = final).
    { rewrite <- (last_cons_default ps p p), Hps. apply last_snoc. }
    cbv zeta. rewrite Hlast. unfold atOrigin in Hor. rewrite Hor.
    rewrite Hps, removelast_last. reflexivity.
Qed.

Lemma Return_shape (ds dc : bool) (vm : Machine) (lastPos : Position) :
  curPos vm = Ok lastPos ->
  exists kept final,
    atOrigin final = true /\
    Return ds dc vm = set_Positions vm (kept ++ [disable ds dc final]).
Proof.
  intro Hcur. destruct (curPos_inv vm lastPos Hcur) as [p [ps [Hps Hlast]]].
  unfold Return. rewrite Hps. cbv zeta. rewrite <- Hlast. rewrite <- Hps.
  destruct ((pos_X lastPos =? 0) && (pos_Y lastPos =? 0)) eqn:Hxy;
    [destruct (pos_Z lastPos =? 0) eqn:Hz |]; cbn [andb].
  - exists (removelast (Positions vm)), lastPos. split; [| reflexivity].
    unfold atOrigin. rewrite Hxy, Hz. reflexivity.
  - unfold fne. rewrite Hz. cbn [negb].
    exists (Positions vm), (set_pos_MoveMode (set_pos_Z lastPos 0) MoveModeRapid).
    split; [| reflexivity]. unfold atOrigin. cbn. rewrite Hxy. reflexivity.
  - destruct (pos_Z lastPos =? FindSafetyHeight vm).
    + eexists (Positions vm ++ [_]), _. split; [| reflexivity]. reflexivity.
    + eexists ((Positions vm ++ [_]) ++ [_]), _. split; [| reflexivity]. reflexivity.
Qed.

(** X18: returning to the origin a second time, with the same two flags,
    changes nothing. *)
Theorem Return_idempotent (ds dc : bool) (vm : Machine) :
  Return ds dc (Return ds dc vm) = Return ds dc vm.
Proof.
  destruct (curPos vm) as [lastPos | e] eqn:Hcur.
  - destruct (Return_shape ds dc vm lastPos Hcur) as [kept [final [Hor ->]]].
    rewrite (Return_from_origin ds dc _ kept (disable ds dc final)).
    + rewrite disable_idempotent. destruct vm; reflexivity.
    + reflexivity.
    + rewrite disable_atOrigin. exact Hor.
  - unfold curPos in Hcur. unfold Return.
    destruct (Positions vm) eqn:E; [rewrite E; reflexivity | discriminate].
Qed.

(** ** Facts proved above, at their inputs *)

Lemma FindSafetyHeight_greatest_witness :
  (forall p, In p (Positions (machineOf lowEnd)) -> noNaN p = true) /\
  (0 <=? FindSafetyHeight (machineOf lowEnd)) = true /\
  (forall p, In p (Positions (machineOf lowEnd)) ->
             (pos_Z p <=? FindSafetyHeight (machineOf lowEnd)) = true) /\
  (FindSafetyHeight (machineOf lowEnd) = 0
   \/ exists p, In p (Positions (machineOf lowEnd))
                /\ FindSafetyHeight (machineOf lowEnd) = pos_Z p).
Proof.
  assert (Hwf : forall p, In p (Positions (machineOf lowEnd)) -> noNaN p = true).
  { intros p Hin. cbn in Hin.
    repeat (destruct Hin as [<- | Hin]; [reflexivity |]). destruct Hin. }
  split; [exact Hwf |].
  exact (FindSafetyHeight_greatest (machineOf lowEnd) Hwf).
Defined.

Lemma bogusMoves_output_witness :
  bogusMoves cutWithDwell = Ok [linearTo 1 0 0; linearTo 2 0 0] /\
  forall p, In p [linearTo 1 0 0; linearTo 2 0 0] ->
            In p cutWithDwell /\ isMotion p = true.
Proof.
  split; [reflexivity |].
  exact (bogusMoves_output cutWithDwell [linearTo 1 0 0; linearTo 2 0 0] eq_refl).
Defined.

(** ** What OptRouteGrouping keeps *)

Lemma nth_error_taken_out {A : Type} (l : list A) :
  forall n a, nth_error l n = Some a ->
              Permutation l (a :: firstn n l ++ skipn (S n) l).
Proof.
  induction l as [| b l IH]; intros [| n] a H; try discriminate.
  - injection H as <-. reflexivity.
  - cbn [nth_error] in H. cbn [firstn skipn app].
    eapply perm_trans; [apply perm_skip, (IH n a H) | apply perm_swap].
Qed.

Lemma index_taken_out {A : Type} (l : list A) (k : Z) (a : A) :
  index l k = Ok a ->
  Permutation l (a :: firstn (Z.to_nat k) l ++ skipn (Z.to_nat (k + 1)) l).
Proof.
  unfold index. destruct (k <? 0)%Z eqn:Hk; [discriminate |].
  apply Z.ltb_ge in Hk.
  destruct (nth_error l (Z.to_nat k)) as [b |] eqn:Hn; [| discriminate].
  intro H. injection H as <-.
  replace (Z.to_nat (k + 1)) with (S (Z.to_nat k)) by lia.
  apply nth_error_taken_out, Hn.
Qed.

(** The sort hands back every set it was given, each once. *)
Lemma sortSets_permutation (fuel : nat) :
  forall sets curVec selectedSet sortedSets res,
    sortSets fuel sets curVec selectedSet sortedSets = Ok res ->
    Permutation res (sortedSets ++ sets).
Proof.
  induction fuel as [| fuel IH]; intros sets curVec selectedSet sortedSets res H.
  - destruct sets; [| discriminate]. injection H as <-. rewrite app_nil_r. reflexivity.
  - destruct sets as [| s0 rest].
    + injection H as <-. rewrite app_nil_r. reflexivity.
    + cbn [sortSets] in H.
      apply bind_Ok in H. destruct H as [k [_ H]].
      apply bind_Ok in H. destruct H as [s [Hs H]].
      apply bind_Ok in H. destruct H as [p [_ H]].
      apply IH in H. apply index_taken_out in Hs.
      eapply perm_trans; [exact H |].
      rewrite <- app_assoc. apply Permutation_app_head. cbn [app].
      symmetry. exact Hs.
Qed.

Lemma moveTo_spec (tolerance sh ds : float) (newPos : list Position) (pos : Position)
      (out : list Position) :
  moveTo tolerance sh ds newPos pos = Ok out ->
  exists added q,
    out = newPos ++ added ++ [q] /\ Vector_of q = Vector_of pos.
Proof.
  unfold moveTo. intro H. apply bind_Ok in H. destruct H as [cur [_ H]].
  destruct (_ <? tolerance).
  - destruct (fne (pos_X cur) (pos_X pos) || fne (pos_Y cur) (pos_Y pos));
      injection H as <-.
    + eexists [_], pos. rewrite <- !app_assoc. split; reflexivity.
    + exists [], pos. split; reflexivity.
  - injection H as <-. eexists [_; _], _. rewrite <- !app_assoc. split; reflexivity.
Qed.

Lemma emitSet_spec (tolerance sh ds : float) (newPos : list Position) (m : PSet)
      (out : list Position) :
  emitSet tolerance sh ds newPos m = Ok out ->
  exists added,
    out = newPos ++ added /\
    forall p, In p m -> exists q, In q added /\ Vector_of q = Vector_of p.
Proof.
  unfold emitSet. destruct m as [| p rest]; intro H.
  - injection H as <-. exists []. rewrite app_nil_r. split; [reflexivity | intros p []].
  - apply bind_Ok in H. destruct H as [np [Hmove H]]. injection H as <-.
    apply moveTo_spec in Hmove. destruct Hmove as [added [q [-> Hq]]].
    exists ((added ++ [q]) ++ rest). rewrite <- !app_assoc. split; [reflexivity |].
    intros p' [<- | Hp'].
    + exists q. split; [| exact Hq]. apply in_or_app. right. left. reflexivity.
    + exists p'. split; [| reflexivity]. apply in_or_app. right. right. exact Hp'.
Qed.

Lemma emitSets_spec (tolerance sh ds : float) (sortedSets : list PSet) :
  forall newPos out,
    foldM (emitSet tolerance sh ds) sortedSets newPos = Ok out ->
    exists added,
      out = newPos ++ added /\
      forall s p, In s sortedSets -> In p s ->
                  exists q, In q added /\ Vector_of q = Vector_of p.
Proof.
  induction sortedSets as [| m rest IH]; intros newPos out H.
  - injection H as <-. exists []. rewrite app_nil_r. split; [reflexivity | intros s p []].
  - cbn [foldM] in H. apply bind_Ok in H. destruct H as [np [Hemit H]].
    apply emitSet_spec in Hemit. destruct Hemit as [a1 [-> H1]].
    apply IH in H. destruct H as [a2 [-> H2]].
    exists (a1 ++ a2). rewrite <- app_assoc. split; [reflexivity |].
    intros s p [<- | Hs] Hp.
    + destruct (H1 p Hp) as [q [Hq E]]. exists q. split; [apply in_or_app; left |]; assumption.
    + destruct (H2 s p Hs Hp) as [q [Hq E]]. exists q.
      split; [apply in_or_app; right |]; assumption.
Qed.

(** The waypoints of the sets of the scan are waypoints it has read. *)
Lemma scanStep_members (st st' : ScanState) (m : Position) :
  scanStep st m = Ok st' ->
  forall p, (In p (curSet st') \/ exists s, In s (sets st') /\ In p s) ->
            p = m \/ In p (curSet st) \/ exists s, In s (sets st) /\ In p s.
Proof.
  unfold scanStep, regularMove.
  repeat match goal with
         | |- (if ?c then _ else _) = _ -> _ => destruct c eqn:?
         end;
    intro H; try discriminate; injection H as <-; cbn [curSet sets updateLast];
    intros p [Hp | [s [Hs Hp]]]; auto;
    try (apply in_app_or in Hp; destruct Hp as [Hp | [<- | []]]; auto);
    try (right; right; exists s; split; assumption);
    try (destruct Hp).
  all: destruct (sequenceStarted st);
    [ apply in_app_or in Hs; destruct Hs as [Hs | [<- | []]]; auto | ];
    right; right; exists s; split; assumption.
Qed.

Lemma scan_members (ps : list Position) :
  forall st st',
    foldM scanStep ps st = Ok st' ->
    forall p, (In p (curSet st') \/ exists s, In s (sets st') /\ In p s) ->
              In p ps \/ In p (curSet st) \/ exists s, In s (sets st) /\ In p s.
Proof.
  induction ps as [| m ps IH]; intros st st' H p Hp.
  - injection H as <-. right. exact Hp.
  - cbn [foldM] in H. apply bind_Ok in H. destruct H as [st1 [Hstep H]].
    destruct (IH _ _ H p Hp) as [Hin | Hmem]; [left; right; exact Hin |].
    destruct (scanStep_members _ _ _ Hstep p Hmem) as [-> | Hmem'];
      [left; left; reflexivity | right; exact Hmem'].
Qed.

(** X21: when route grouping succeeds, the new toolpath starts with the
    first waypoint of the old one and passes through the position of every
    waypoint of every group the scan collected; the groups are made of
    waypoints of the old toolpath. *)
Theorem routeGrouping_visits_every_group (tolerance : float) (positions newPos : list Position) :
  routeGrouping tolerance positions = Ok newPos ->
  exists st,
    foldM scanStep positions (mkScanState 0 0 0 [] [] 0 0 false) = Ok st /\
    hd_error newPos = hd_error positions /\
    forall s p, In s (sets st) -> In p s ->
                In p positions /\ exists q, In q newPos /\ Vector_of q = Vector_of p.
Proof.
  unfold routeGrouping. intro H.
  apply bind_Ok in H. destruct H as [st [Hscan H]].
  apply bind_Ok in H. destruct H as [[] [_ H]].
  apply bind_Ok in H. destruct H as [sortedSets [Hsort H]].
  apply bind_Ok in H. destruct H as [first [Hfirst H]].
  apply sortSets_permutation in Hsort. cbn [app] in Hsort.
  apply emitSets_spec in H. destruct H as [added [-> Hall]].
  exists st. split; [exact Hscan |]. split.
  - unfold index in Hfirst. cbn in Hfirst. destruct positions; [discriminate |].
    injection Hfirst as <-. reflexivity.
  - intros s p Hs Hp. split.
    + destruct (scan_members positions _ _ Hscan p) as [H | [[] | [s' [[] _]]]];
        [right; exists s; split; assumption | exact H].
    + assert (Hs' : In s sortedSets)
        by (apply (Permutation_in s (Permutation_sym Hsort)), Hs).
      destruct (Hall s p Hs' Hp) as [q [Hq E]]. exists q.
      split; [right; exact Hq | exact E].
Qed.

(** The drill at (1,0), though visited last, is not left out. *)
Lemma routeGrouping_visits_every_group_witness :
  exists newPos,
    routeGrouping 0.1 twoDrills = Ok newPos /\
    exists q, In q newPos /\ Vector_of q = Vector_of (linearTo 1 0 (-1)).
Proof.
  destruct (routeGrouping 0.1 twoDrills) as [newPos | e] eqn:E;
    [| vm_compute in E; discriminate].
  exists newPos. split; [reflexivity |].
  destruct (routeGrouping_visits_every_group 0.1 twoDrills newPos E) as [st [Hscan [_ Hall]]].
  vm_compute in Hscan. injection Hscan as <-.
  apply (Hall [linearTo 1 0 (-1)] (linearTo 1 0 (-1))); cbn; tauto.
Defined.

Lemma scanStep_safetyHeight (st st' : ScanState) (m : Position) :
  scanStep st m = Ok st' ->
  safetyHeight st' = (if fgt (pos_Z m) (safetyHeight st) then pos_Z m else safetyHeight st).
Proof.
  unfold scanStep, regularMove.
  repeat match goal with
         | |- (if ?c then _ else _) = _ -> _ => destruct c eqn:?
         end;
    intro H; try discriminate; injection H as <-; reflexivity.
Qed.

Lemma scan_safetyHeight (ps : list Position) :
  forall st st',
    foldM scanStep ps st = Ok st' ->
    safetyHeight st'
    = fold_left (fun maxz m => if fgt (pos_Z m) maxz then pos_Z m else maxz)
                ps (safetyHeight st).
Proof.
  induction ps as [| m ps IH]; intros st st' H.
  - injection H as <-. reflexivity.
  - cbn [foldM] in H. apply bind_Ok in H. destruct H as [st1 [Hstep H]].
    cbn [fold_left]. rewrite (IH _ _ H), (scanStep_safetyHeight _ _ _ Hstep). reflexivity.
Qed.

(** X22: a toolpath on which [FindSafetyHeight] finds nothing above zero is
    always turned down by [OptRouteGrouping], whatever the tolerance, and is
    left as it is. *)
Theorem OptRouteGrouping_needs_safety_height (tolerance : float) (vm : Machine) :
  (FindSafetyHeight vm =? 0) = true ->
  exists err, OptRouteGrouping tolerance vm = (vm, Some err).
Proof.
  intro Hflat. rewrite OptRouteGrouping_run. unfold routeGrouping.
  destruct (foldM scanStep (Positions vm) (mkScanState 0 0 0 [] [] 0 0 false))
    as [st | p] eqn:Hscan; cbn [bind].
  - apply scan_safetyHeight in Hscan. cbn [safetyHeight] in Hscan.
    fold (FindSafetyHeight vm) in Hscan.
    unfold scanChecks. rewrite Hscan, Hflat. cbn [bind]. eexists. reflexivity.
  - eexists. reflexivity.
Qed.

Lemma OptRouteGrouping_needs_safety_height_witness :
  exists err,
    OptRouteGrouping 0.1 (machineOf [origin; linearTo 1 0 0])
    = (machineOf [origin; linearTo 1 0 0], Some err).
Proof.
  apply (OptRouteGrouping_needs_safety_height 0.1 (machineOf [origin; linearTo 1 0 0])).
  reflexivity.
Defined.

(** ** What OptDrillSpeed keeps, and where its rapid moves go *)

Lemma fle_refl (x : float) : is_nan x = false -> (x <=? x) = true.
Proof. intro H. apply (fle_key x x H H). apply keyLe_refl. Qed.

Lemma fle_of_not_ge (x y : float) :
  is_nan x = false -> is_nan y = false -> fge x y = false -> (x <=? y) = true.
Proof.
  intros Hx Hy H. unfold fge in H. apply (fle_key x y Hx Hy).
  apply keyLt_le, keyLt_total. rewrite <- (fle_key y x Hy Hx). congruence.
Qed.

(** A depth [fastDrill] has found is the Z of a drill on the stack at the
    spot. *)
Lemma drillDepth_found (pos : Position) (stack : list Position) (depth : float) :
  drillDepth stack pos = (depth, true) ->
  exists e, In e stack /\ sameSpot e pos = true /\ depth = pos_Z e
            /\ is_nan (pos_Z e) = false.
Proof.
  unfold drillDepth.
  assert (G : forall stack d f depth,
             fold_left
               (fun (acc : float * bool) m =>
                  let '(depth, found) := acc in
                  if (pos_X m =? pos_X pos) && (pos_Y m =? pos_Y pos)
                  then if pos_Z m <? depth then (pos_Z m, true) else (depth, found)
                  else (depth, found))
               stack (d, f) = (depth, true) ->
             (f = true /\ depth = d) \/
             exists e, In e stack /\ sameSpot e pos = true /\ depth = pos_Z e
                       /\ is_nan (pos_Z e) = false).
  { clear stack depth.
    induction stack as [| m stack IH]; intros d f depth Hfold.
    - injection Hfold as <- <-. left. split; reflexivity.
    - cbn [fold_left] in Hfold. fold (sameSpot m pos) in Hfold.
      destruct (sameSpot m pos) eqn:Hspot; [destruct (pos_Z m <? d) eqn:Hlt |].
      + right. destruct (IH _ _ _ Hfold) as [[_ ->] | [e [He Hrest]]].
        * exists m. split; [left; reflexivity |]. split; [exact Hspot |].
          split; [reflexivity | exact (proj1 (flt_not_nan _ _ Hlt))].
        * exists e. split; [right; exact He | exact Hrest].
      + destruct (IH _ _ _ Hfold) as [H | [e [He Hrest]]]; [left; exact H |].
        right. exists e. split; [right; exact He | exact Hrest].
      + destruct (IH _ _ _ Hfold) as [H | [e [He Hrest]]]; [left; exact H |].
        right. exists e. split; [right; exact He | exact Hrest]. }
  intro Hfold. destruct (G stack 0 false depth Hfold) as [[H _] | H];
    [discriminate | exact H].
Qed.

(** Where a waypoint of the output comes from: it is a waypoint of the input,
    or the rapid copy of a linear descent [m], at a height [z] between the
    target of [m] and the depth of a linear descent [e] made before at the
    spot. *)
Lemma drillEmit_origin (ps : list Position) :
  forall lx ly lz stack q,
    (forall e, In e stack -> MoveMode (pos_State e) = MoveModeLinear) ->
    In q (drillEmit lx ly lz stack ps) ->
    In q ps \/
    exists pre m post e z,
      ps = pre ++ m :: post /\ In e (stack ++ pre) /\
      q = set_pos_MoveMode (set_pos_Z m z) MoveModeRapid /\
      MoveMode (pos_State m) = MoveModeLinear /\
      MoveMode (pos_State e) = MoveModeLinear /\
      sameSpot e m = true /\
      (pos_Z e <=? z) = true /\ (pos_Z m <=? z) = true.
Proof.
  induction ps as [| m rest IH]; intros lx ly lz stack q Hstack Hq; [destruct Hq |].
  cbn [drillEmit] in Hq.
  assert (Hrest : forall stack',
             (forall e, In e stack' -> MoveMode (pos_State e) = MoveModeLinear) ->
             (forall e, In e stack' -> In e (stack ++ [m])) ->
             In q (drillEmit (pos_X m) (pos_Y m) (pos_Z m) stack' rest) ->
             In q (m :: rest) \/
             exists pre m0 post e z,
               m :: rest = pre ++ m0 :: post /\ In e (stack ++ pre) /\
               q = set_pos_MoveMode (set_pos_Z m0 z) MoveModeRapid /\
               MoveMode (pos_State m0) = MoveModeLinear /\
               MoveMode (pos_State e) = MoveModeLinear /\
               sameSpot e m0 = true /\
               (pos_Z e <=? z) = true /\ (pos_Z m0 <=? z) = true).
  { intros stack' Hlin Hsub H.
    destruct (IH _ _ _ _ _ Hlin H) as [Hin | [pre [m0 [post [e [z [-> [He Hr]]]]]]]].
    - left. right. exact Hin.
    - right. exists (m :: pre), m0, post, e, z. split; [reflexivity |].
      split; [| exact Hr].
      apply in_app_or in He. destruct He as [He | He].
      + apply Hsub in He. apply in_app_or in He. apply in_or_app.
        destruct He as [He | [<- | []]]; [left; exact He | right; left; reflexivity].
      + apply in_or_app. right. right. exact He. }
  destruct (drillEligible lx ly lz m) eqn:Hel.
  - destruct (drillEligible_inv _ _ _ _ Hel) as [_ [_ [HZ HL]]].
    apply MoveModes_eqb_eq in HL.
    assert (Hpush : forall e, In e (stack ++ [m]) -> MoveMode (pos_State e) = MoveModeLinear).
    { intros e He. apply in_app_or in He.
      destruct He as [He | [<- | []]]; [exact (Hstack e He) | exact HL]. }
    unfold fastDrill in Hq.
    destruct (drillDepth stack m) as [depth found] eqn:Hd.
    destruct found.
    + destruct (drillDepth_found _ _ _ Hd) as [e [He [Hs [-> Hn]]]].
      destruct (fge (pos_Z m) (pos_Z e)) eqn:Hge; cbn [app] in Hq.
      * destruct Hq as [Hq | Hq]; [| exact (Hrest _ Hpush (fun _ H => H) Hq)].
        right. exists [], m, rest, e, (pos_Z m). rewrite app_nil_r.
        split; [reflexivity |]. split; [exact He |].
        split; [rewrite <- Hq; destruct m; reflexivity |].
        split; [exact HL |]. split; [exact (Hstack e He) |]. split; [exact Hs |].
        split; [exact Hge | exact (fle_refl _ HZ)].
      * destruct Hq as [Hq | [Hq | Hq]]; [| | exact (Hrest _ Hpush (fun _ H => H) Hq)].
        -- right. exists [], m, rest, e, (pos_Z e). rewrite app_nil_r.
           split; [reflexivity |]. split; [exact He |].
           split; [symmetry; exact Hq |].
           split; [exact HL |]. split; [exact (Hstack e He) |]. split; [exact Hs |].
           split; [exact (fle_refl _ Hn) | exact (fle_of_not_ge _ _ HZ Hn Hge)].
        -- left. left. exact Hq.
    + cbn [app] in Hq.
      destruct Hq as [Hq | Hq]; [| exact (Hrest _ Hpush (fun _ H => H) Hq)].
      left. left. exact Hq.
  - destruct Hq as [Hq | Hq]; [left; left; exact Hq |].
    apply (Hrest stack Hstack); [| exact Hq].
    intros e He. apply in_or_app. left. exact He.
Qed.

(** X23: [OptDrillSpeed] adds nothing but rapid moves down holes that are
    already drilled.  Every waypoint of its output is a waypoint of the
    input, or it is the rapid copy of a linear move [m] of the input, at a
    height [z] not below the target of [m], and not below the depth that an
    earlier linear move [e] of the input reached at the very spot. *)
Theorem OptDrillSpeed_rapids_follow_drills (vm : Machine) (q : Position) :
  In q (Positions (OptDrillSpeed vm)) ->
  In q (Positions vm) \/
  exists pre m post e z,
    Positions vm = pre ++ m :: post /\ In e pre /\
    q = set_pos_MoveMode (set_pos_Z m z) MoveModeRapid /\
    MoveMode (pos_State m) = MoveModeLinear /\
    MoveMode (pos_State e) = MoveModeLinear /\
    sameSpot e m = true /\
    (pos_Z e <=? z) = true /\ (pos_Z m <=? z) = true.
Proof.
  unfold OptDrillSpeed. cbn [Positions set_Positions].
  rewrite drillSpeed_positions_emit. intro Hq.
  apply (drillEmit_origin (Positions vm) 0 0 0 [] q) in Hq; [exact Hq |].
  intros e [].
Qed.

Lemma OptDrillSpeed_rapids_follow_drills_witness :
  In (rapidTo 0 0 (-2)) (Positions (OptDrillSpeed (machineOf peckDrill))) /\
  (In (rapidTo 0 0 (-2)) (Positions (machineOf peckDrill)) \/
   exists pre m post e z,
     Positions (machineOf peckDrill) = pre ++ m :: post /\ In e pre /\
     rapidTo 0 0 (-2) = set_pos_MoveMode (set_pos_Z m z) MoveModeRapid /\
     MoveMode (pos_State m) = MoveModeLinear /\
     MoveMode (pos_State e) = MoveModeLinear /\
     sameSpot e m = true /\
     (pos_Z e <=? z) = true /\ (pos_Z m <=? z) = true).
Proof.
  assert (H : In (rapidTo 0 0 (-2)) (Positions (OptDrillSpeed (machineOf peckDrill)))).
  { vm_compute. tauto. }
  split; [exact H |].
  exact (OptDrillSpeed_rapids_follow_drills (machineOf peckDrill) (rapidTo 0 0 (-2)) H).
Defined.

Lemma fastDrill_poso (stack : list Position) (m : Position) :
  exists stack' posn shouldinsert poso,
    fastDrill stack m = (stack', (posn, poso, shouldinsert)) /\
    (poso = m \/ poso = set_pos_MoveMode m MoveModeRapid).
Proof.
  unfold fastDrill. destruct (drillDepth stack m) as [depth found].
  destruct found; [destruct (fge (pos_Z m) depth) |];
    do 4 eexists; (split; [reflexivity |]); auto.
Qed.

Lemma last_app_nonempty {A : Type} (l l' : list A) (d : A) :
  l' <> [] -> last (l ++ l') d = last l' d.
Proof.
  intro H. induction l as [| a l IH]; [reflexivity |].
  cbn [app]. destruct (l ++ l') as [| b t] eqn:E.
  - destruct l; [cbn in E; congruence | discriminate].
  - exact IH.
Qed.

Lemma drillEmit_targets (ps : list Position) :
  forall lx ly lz stack m,
    In m ps ->
    exists q, In q (drillEmit lx ly lz stack ps) /\
              (q = m \/ q = set_pos_MoveMode m MoveModeRapid).
Proof.
  induction ps as [| m0 rest IH]; intros lx ly lz stack m Hm; [destruct Hm |].
  cbn [drillEmit]. destruct (drillEligible lx ly lz m0).
  - destruct (fastDrill_poso stack m0) as [stack' [posn [ins [poso [-> Hposo]]]]].
    destruct Hm as [<- | Hm].
    + exists poso. split; [| exact Hposo].
      apply in_or_app. right. left. reflexivity.
    + destruct (IH (pos_X m0) (pos_Y m0) (pos_Z m0) stack' m Hm) as [q [Hq Hr]].
      exists q. split; [| exact Hr]. apply in_or_app. right. right. exact Hq.
  - destruct Hm as [<- | Hm].
    + exists m0. split; [left; reflexivity | left; reflexivity].
    + destruct (IH (pos_X m0) (pos_Y m0) (pos_Z m0) stack m Hm) as [q [Hq Hr]].
      exists q. split; [right; exact Hq | exact Hr].
Qed.

Lemma drillEmit_last (ps : list Position) (d : Position) :
  forall lx ly lz stack,
    last (drillEmit lx ly lz stack ps) d = last ps d \/
    last (drillEmit lx ly lz stack ps) d = set_pos_MoveMode (last ps d) MoveModeRapid.
Proof.
  induction ps as [| m rest IH]; intros lx ly lz stack; [left; reflexivity |].
  assert (Hstep : forall stack' pre poso,
             (poso = m \/ poso = set_pos_MoveMode m MoveModeRapid) ->
             last (pre ++ poso :: drillEmit (pos_X m) (pos_Y m) (pos_Z m) stack' rest) d
             = last (m :: rest) d \/
             last (pre ++ poso :: drillEmit (pos_X m) (pos_Y m) (pos_Z m) stack' rest) d
             = set_pos_MoveMode (last (m :: rest) d) MoveModeRapid).
  { intros stack' pre poso Hposo.
    rewrite last_app_nonempty by discriminate.
    destruct rest as [| r rest'].
    - cbn. destruct Hposo as [-> | ->]; auto.
    - specialize (IH (pos_X m) (pos_Y m) (pos_Z m) stack').
      pose proof (drillEmit_length (r :: rest') (pos_X m) (pos_Y m) (pos_Z m) stack') as Hlen.
      destruct (drillEmit (pos_X m) (pos_Y m) (pos_Z m) stack' (r :: rest')) as [| e E] eqn:HE;
        [cbn in Hlen; lia |].
      change (last (poso :: e :: E) d) with (last (e :: E) d).
      change (last (m :: r :: rest') d) with (last (r :: rest') d).
      exact IH. }
  cbn [drillEmit]. destruct (drillEligible lx ly lz m).
  - destruct (fastDrill_poso stack m) as [stack' [posn [ins [poso [-> Hposo]]]]].
    exact (Hstep stack' _ poso Hposo).
  - exact (Hstep stack [] m (or_introl eq_refl)).
Qed.

(** X24: [OptDrillSpeed] drops no target.  Every waypoint of the input is
    still in the output, as it was or turned into a rapid move, the output
    is never shorter than the input, and it ends at the waypoint the input
    ends at. *)
Theorem OptDrillSpeed_keeps_targets (vm : Machine) :
  (forall m, In m (Positions vm) ->
             exists q, In q (Positions (OptDrillSpeed vm)) /\
                       Vector_of q = Vector_of m /\
                       (q = m \/ q = set_pos_MoveMode m MoveModeRapid)) /\
  (length (Positions vm) <= length (Positions (OptDrillSpeed vm)))%nat /\
  (forall d, Vector_of (last (Positions (OptDrillSpeed vm)) d)
             = Vector_of (last (Positions vm) d)).
Proof.
  unfold OptDrillSpeed. cbn [Positions set_Positions].
  rewrite drillSpeed_positions_emit. split; [| split].
  - intros m Hm.
    destruct (drillEmit_targets (Positions vm) 0 0 0 [] m Hm) as [q [Hq Hr]].
    exists q. split; [exact Hq |]. split; [| exact Hr].
    destruct Hr as [-> | ->]; reflexivity.
  - apply drillEmit_length.
  - intro d. destruct (drillEmit_last (Positions vm) d 0 0 0 []) as [-> | ->]; reflexivity.
Qed.

(** ** The errors of OptRouteGrouping *)

Lemma scanStep_panics (st : ScanState) (m : Position) (p : PanicValue) :
  scanStep st m = Panic p ->
  In p [ComplexZMotion; MultipleDrillFeedrates; RapidInStock; MoveAboveStock].
Proof.
  unfold scanStep, regularMove.
  repeat match goal with
         | |- (if ?c then _ else _) = _ -> _ => destruct c
         end;
    intro H; try discriminate; injection H as <-; cbn; tauto.
Qed.

Lemma scan_panics (ps : list Position) :
  forall st p,
    foldM scanStep ps st = Panic p ->
    In p [ComplexZMotion; MultipleDrillFeedrates; RapidInStock; MoveAboveStock].
Proof.
  induction ps as [| m ps IH]; intros st p H; [discriminate |].
  cbn [foldM] in H. destruct (scanStep st m) as [st1 | p1] eqn:Hstep; cbn [bind] in H.
  - exact (IH _ _ H).
  - injection H as <-. exact (scanStep_panics _ _ _ Hstep).
Qed.

Lemma scanChecks_panics (st : ScanState) (p : PanicValue) :
  scanChecks st = Panic p ->
  In p [NoSafetyHeight; NoDrillFeedrate; IncompleteFinalSet].
Proof.
  unfold scanChecks.
  destruct (safetyHeight st =? 0); [intro H; injection H as <-; cbn; tauto |].
  destruct (drillSpeed st =? 0); [intro H; injection H as <-; cbn; tauto |].
  destruct (curSet st) as [| a [| b l]]; [discriminate | |].
  - destruct (_ || _); [intro H; injection H as <-; cbn; tauto | discriminate].
  - intro H; injection H as <-; cbn; tauto.
Qed.

(** [newPos[len(newPos)-1]] is there on a stack that is not empty, and
    [moveTo] leaves the stack not empty. *)
Lemma moveTo_returns (tolerance sh ds : float) (newPos : list Position) (pos : Position) :
  newPos <> [] ->
  exists out, moveTo tolerance sh ds newPos pos = Ok out /\ out <> [].
Proof.
  intro Hne. unfold moveTo.
  destruct (index_in_range newPos (Z.of_nat (length newPos) - 1)) as [cur [-> _]].
  { destruct newPos; [congruence | cbn [length]; lia]. }
  cbn [bind].
  destruct (_ <? tolerance); eexists; (split; [reflexivity |]);
    intro E; apply app_eq_nil in E; destruct E; discriminate.
Qed.

Lemma emitSets_return (tolerance sh ds : float) (sortedSets : list PSet) :
  forall newPos,
    newPos <> [] ->
    exists out, foldM (emitSet tolerance sh ds) sortedSets newPos = Ok out.
Proof.
  induction sortedSets as [| m rest IH]; intros newPos Hne.
  - eexists; reflexivity.
  - cbn [foldM]. unfold emitSet at 1. destruct m as [| p ps].
    + cbn [bind]. exact (IH newPos Hne).
    + destruct (moveTo_returns tolerance sh ds newPos p Hne) as [out [-> Hout]].
      cbn [bind]. apply IH. intro E. apply app_eq_nil in E. destruct E; congruence.
Qed.

(** X25: [OptRouteGrouping] fails for its stated reasons only.  The error it
    returns is one of the seven panics written out in its body; none of the
    slice accesses of the sort and of the reconstruction ([sets[idx][0]],
    [vm.Positions[0]], [newPos[len(newPos)-1]]) is ever out of range. *)
Theorem OptRouteGrouping_errors_are_stated (tolerance : float) (vm vm' : Machine)
        (err : PanicValue) :
  OptRouteGrouping tolerance vm = (vm', Some err) ->
  In err [ComplexZMotion; MultipleDrillFeedrates; RapidInStock; MoveAboveStock;
          NoSafetyHeight; NoDrillFeedrate; IncompleteFinalSet].
Proof.
  rewrite OptRouteGrouping_run.
  destruct (routeGrouping tolerance (Positions vm)) as [newPos | r] eqn:E;
    [discriminate |].
  intro H. injection H as _ <-. revert E. unfold routeGrouping.
  destruct (foldM scanStep (Positions vm) (mkScanState 0 0 0 [] [] 0 0 false))
    as [st | p] eqn:Hscan; cbn [bind].
  - destruct (scanChecks st) as [[] | p] eqn:Hchk; cbn [bind].
    + destruct (routeGrouping_sort_returns _ _ Hscan) as [sortedSets ->]. cbn [bind].
      destruct (Positions vm) as [| o rest] eqn:Hps.
      { injection Hscan as <-. discriminate Hchk. }
      cbn [index bind Z.ltb Z.compare Z.to_nat nth_error].
      destruct (emitSets_return tolerance (safetyHeight st) (drillSpeed st) sortedSets [o])
        as [out ->]; discriminate.
    + intro H. injection H as <-.
      pose proof (scanChecks_panics _ _ Hchk) as Hin. cbn in Hin |- *. tauto.
  - intro H. injection H as <-.
    pose proof (scan_panics _ _ _ Hscan) as Hin. cbn in Hin |- *. tauto.
Qed.

Lemma OptRouteGrouping_errors_are_stated_witness :
  OptRouteGrouping 0.1 (machineOf slantedPlunge)
  = (machineOf slantedPlunge, Some ComplexZMotion) /\
  In ComplexZMotion
     [ComplexZMotion; MultipleDrillFeedrates; RapidInStock; MoveAboveStock;
      NoSafetyHeight; NoDrillFeedrate; IncompleteFinalSet].
Proof.
  assert (H : OptRouteGrouping 0.1 (machineOf slantedPlunge)
              = (machineOf slantedPlunge, Some ComplexZMotion))
    by (vm_compute; reflexivity).
  split; [exact H |].
  exact (OptRouteGrouping_errors_are_stated 0.1 (machineOf slantedPlunge)
                                            (machineOf slantedPlunge) ComplexZMotion H).
Defined.

(** ** The bulk transforms in sequence *)

Ltac map_fusion :=
  unfold FlipXY, MoveMultiplier, FeedrateMultiplier, LimitFeedrate, EnforceSpindle,
    set_Positions;
  simpl; f_equal; rewrite !map_map; apply map_ext; intro m; cbn;
  try match goal with
      | |- context [if ?c then _ else _] => destruct c
      end;
  reflexivity.

(** X26: the transforms of the geometry ([FlipXY], [MoveMultiplier]) and the
    transforms of the feedrate and the spindle ([FeedrateMultiplier],
    [LimitFeedrate], [EnforceSpindle]) can be applied in either order: each
    of the first commutes with each of the second, the two of the geometry
    commute, and the spindle commutes with the two of the feedrate. *)
Theorem bulk_transforms_commute (k f feed speed : float) (enabled clockwise : bool)
        (vm : Machine) :
  FlipXY (MoveMultiplier k vm) = MoveMultiplier k (FlipXY vm) /\
  FeedrateMultiplier f (FlipXY vm) = FlipXY (FeedrateMultiplier f vm) /\
  LimitFeedrate feed (FlipXY vm) = FlipXY (LimitFeedrate feed vm) /\
  EnforceSpindle enabled clockwise speed (FlipXY vm)
  = FlipXY (EnforceSpindle enabled clockwise speed vm) /\
  FeedrateMultiplier f (MoveMultiplier k vm) = MoveMultiplier k (FeedrateMultiplier f vm) /\
  LimitFeedrate feed (MoveMultiplier k vm) = MoveMultiplier k (LimitFeedrate feed vm) /\
  EnforceSpindle enabled clockwise speed (MoveMultiplier k vm)
  = MoveMultiplier k (EnforceSpindle enabled clockwise speed vm) /\
  EnforceSpindle enabled clockwise speed (FeedrateMultiplier f vm)
  = FeedrateMultiplier f (EnforceSpindle enabled clockwise speed vm) /\
  EnforceSpindle enabled clockwise speed (LimitFeedrate feed vm)
  = LimitFeedrate feed (EnforceSpindle enabled clockwise speed vm).
Proof.
  repeat split; map_fusion.
Qed.

(** ** Return, counted by the top plane of the path *)







(** ** OptBogusMoves, waypoint by waypoint *)

Lemma foldM_snoc {S A : Type} (f : S -> A -> result S) (l : list A) (a : A) (s : S) :
  foldM f (l ++ [a]) s = (s' <- foldM f l s ;; f s' a).
Proof.
  revert s. induction l as [| b l IH]; intro s.
  - cbn. destruct (f s a); reflexivity.
  - cbn [app foldM]. destruct (f s b) as [s1 | p]; cbn [bind]; [apply IH | reflexivity].
Qed.

Lemma sameFloat_test (a b v : float) : sameFloat a b -> (a =? v) = (b =? v).
Proof.
  intros [-> | H]; [reflexivity |].
  destruct (a =? v) eqn:E1, (b =? v) eqn:E2; try reflexivity.
  - rewrite (feq_trans b a v (feq_sym _ _ H) E1) in E2. discriminate.
  - rewrite (feq_trans a b v H E2) in E1. discriminate.
Qed.

(** The step of the loop, with its tests read off the toolpath. *)
Lemma bogusStep_read (pre : list Position) (st : BogusState) (m : Position) :
  bogusInv pre st ->
  bogusStep st m
  = (let d := displacement (precedingPoint pre) m in
     if negb (isMotion m)
     then Ok (mkBogusState (pos_X m) (pos_Y m) (pos_Z m) 0 0 0 (npos st))
     else if zeroLength d
     then Ok (mkBogusState (pos_X m) (pos_Y m) (pos_Z m)
                           (lastvecX st) (lastvecY st) (lastvecZ st) (npos st))
     else if sameDirection (trackedDirection pre) (unitVector d)
     then match npos st with
          | [] => Panic IndexOutOfRange
          | _ => Ok (mkBogusState (pos_X m) (pos_Y m) (pos_Z m)
                                  (lastvecX st) (lastvecY st) (lastvecZ st)
                                  (removelast (npos st) ++ [m]))
          end
     else Ok (mkBogusState (pos_X m) (pos_Y m) (pos_Z m)
                           (vec_X (unitVector d)) (vec_Y (unitVector d))
                           (vec_Z (unitVector d)) (npos st ++ [m]))).
Proof.
  intros [Hpt [HX [HY HZ]]]. rewrite <- Hpt. unfold bogusStep, isMotion. cbv zeta.
  rewrite negb_orb.
  unfold zeroLength, sameDirection, unitVector, displacement.
  cbn [vec_X vec_Y vec_Z].
  rewrite (sameFloat_test _ _ _ HX), (sameFloat_test _ _ _ HY), (sameFloat_test _ _ _ HZ).
  reflexivity.
Qed.

Lemma precedingPoint_snoc (pre : list Position) (m : Position) :
  precedingPoint (pre ++ [m]) = Vector_of m.
Proof. unfold precedingPoint. rewrite rev_app_distr. reflexivity. Qed.

Lemma trackedDirection_snoc (pre : list Position) (m : Position) :
  trackedDirection (pre ++ [m])
  = (if isMotion m then
       let d := displacement (precedingPoint pre) m in
       if zeroLength d then trackedDirection pre else unitVector d
     else mkVector 0 0 0).
Proof. unfold trackedDirection, precedingPoint. rewrite rev_app_distr. reflexivity. Qed.

(** The state of the loop follows the toolpath it has read. *)
Lemma bogusStep_inv (pre : list Position) (st st' : BogusState) (m : Position) :
  bogusInv pre st -> bogusStep st m = Ok st' -> bogusInv (pre ++ [m]) st'.
Proof.
  intros Hinv Hstep. rewrite (bogusStep_read pre st m Hinv) in Hstep. cbv zeta in Hstep.
  unfold bogusInv. rewrite precedingPoint_snoc, trackedDirection_snoc. cbv zeta.
  destruct Hinv as [_ [HX [HY HZ]]].
  destruct (isMotion m); cbn [negb] in Hstep.
  - destruct (zeroLength (displacement (precedingPoint pre) m)).
    + injection Hstep as <-. cbn. auto.
    + destruct (sameDirection _ _) eqn:Hsame.
      * destruct (npos st); [discriminate |]. injection Hstep as <-.
        cbn [xstate ystate zstate lastvecX lastvecY lastvecZ].
        unfold sameDirection in Hsame.
        apply andb_true_iff in Hsame. destruct Hsame as [Hsame SZ].
        apply andb_true_iff in Hsame. destruct Hsame as [SX SY].
        rewrite <- (sameFloat_test _ _ _ HX) in SX.
        rewrite <- (sameFloat_test _ _ _ HY) in SY.
        rewrite <- (sameFloat_test _ _ _ HZ) in SZ.
        split; [reflexivity |]. unfold sameFloat. auto.
      * injection Hstep as <-. cbn. unfold sameFloat. auto.
  - injection Hstep as <-. cbn. unfold sameFloat. auto.
Qed.

Lemma bogusLoop_inv (pre : list Position) :
  forall st,
    foldM bogusStep pre (mkBogusState 0 0 0 0 0 0 []) = Ok st -> bogusInv pre st.
Proof.
  induction pre as [| m pre IH] using rev_ind; intros st H.
  - injection H as <-. unfold bogusInv, sameFloat. cbn. auto.
  - rewrite foldM_snoc in H. apply bind_Ok in H. destruct H as [st0 [Hpre Hstep]].
    exact (bogusStep_inv pre st0 st m (IH st0 Hpre) Hstep).
Qed.

(** C7, amended: the output of the pass for a toolpath with one more
    waypoint [m], from its output [out] for the toolpath before.  A waypoint
    that is no move changes none of the waypoints kept and resets the
    tracked direction to zero.  A rapid or linear waypoint with zero
    displacement from the waypoint before it in the toolpath is dropped,
    kept waypoints and tracked direction staying as they are.  A rapid or
    linear move of non-zero displacement whose unit vector equals the
    tracked direction takes the place of the last kept waypoint, which is
    the one discarded (with nothing kept the index is out of range and the
    pass panics).  Any other rapid or linear move is appended.  In both
    cases the direction of the move is the one tracked from then on. *)
Theorem bogusMoves_by_waypoint (pre out : list Position) (m : Position) :
  bogusMoves pre = Ok out ->
  let d := displacement (precedingPoint pre) m in
  (isMotion m = false ->
   bogusMoves (pre ++ [m]) = Ok out /\
   trackedDirection (pre ++ [m]) = mkVector 0 0 0) /\
  (isMotion m = true -> zeroLength d = true ->
   bogusMoves (pre ++ [m]) = Ok out /\
   trackedDirection (pre ++ [m]) = trackedDirection pre) /\
  (isMotion m = true -> zeroLength d = false ->
   sameDirection (trackedDirection pre) (unitVector d) = true ->
   bogusMoves (pre ++ [m])
   = match out with
     | [] => Panic IndexOutOfRange
     | _ => Ok (removelast out ++ [m])
     end /\
   trackedDirection (pre ++ [m]) = unitVector d) /\
  (isMotion m = true -> zeroLength d = false ->
   sameDirection (trackedDirection pre) (unitVector d) = false ->
   bogusMoves (pre ++ [m]) = Ok (out ++ [m]) /\
   trackedDirection (pre ++ [m]) = unitVector d).
Proof.
  intros Hpre d. unfold bogusMoves in Hpre. apply bind_Ok in Hpre.
  destruct Hpre as [st [Hfold Hout]]. injection Hout as <-.
  pose proof (bogusStep_read pre st m (bogusLoop_inv pre st Hfold)) as Hstep.
  cbv zeta in Hstep. fold d in Hstep.
  assert (Hrun : bogusMoves (pre ++ [m]) = (st' <- bogusStep st m ;; Ok (npos st'))).
  { unfold bogusMoves. rewrite foldM_snoc, Hfold. reflexivity. }
  rewrite Hrun, Hstep, trackedDirection_snoc. cbv zeta. fold d.
  split; [| split; [| split]].
  - intros ->. split; reflexivity.
  - intros -> ->. split; reflexivity.
  - intros -> -> ->. cbn [negb]. split; [| reflexivity].
    destruct (npos st); reflexivity.
  - intros -> -> ->. split; reflexivity.
Qed.

(** A second move along +X takes the place of the first. *)
Lemma bogusMoves_by_waypoint_witness :
  bogusMoves [linearTo 1 0 0] = Ok [linearTo 1 0 0] /\
  bogusMoves ([linearTo 1 0 0] ++ [linearTo 2 0 0]) = Ok [linearTo 2 0 0] /\
  trackedDirection ([linearTo 1 0 0] ++ [linearTo 2 0 0]) = mkVector 1 0 0.
Proof.
  split; [reflexivity |].
  destruct (bogusMoves_by_waypoint [linearTo 1 0 0] [linearTo 1 0 0] (linearTo 2 0 0)
              eq_refl) as [_ [_ [H _]]].
  exact (H eq_refl eq_refl eq_refl).
Defined.

(** ** OptRouteGrouping leaves the toolpath alone when it fails *)

(** C4: whenever [OptRouteGrouping] returns an error, the machine it leaves
    is the machine it was given, and the stored waypoint sequence is the one
    from before the call.  The panic behind the error is raised by the scan
    of the waypoints, or by the checks that follow a scan that ran through:
    past the checks nothing panics, neither the sort nor the reconstruction,
    and the assignment of the new stack, the only write to the machine, is
    the last statement of the body. *)
Theorem OptRouteGrouping_error_keeps_toolpath
        (tolerance : float) (vm vm' : Machine) (err : PanicValue) :
  OptRouteGrouping tolerance vm = (vm', Some err) ->
  vm' = vm /\ Positions vm' = Positions vm /\
  routeGrouping tolerance (Positions vm) = Panic err /\
  (foldM scanStep (Positions vm) (mkScanState 0 0 0 [] [] 0 0 false) = Panic err \/
   exists st,
     foldM scanStep (Positions vm) (mkScanState 0 0 0 [] [] 0 0 false) = Ok st /\
     scanChecks st = Panic err).
Proof.
  unfold OptRouteGrouping, recovered, OptRouteGrouping_body, routeGrouping,
    andThen, onLocals, readPositions, writePositions.
  destruct (foldM scanStep (Positions vm) (mkScanState 0 0 0 [] [] 0 0 false))
    as [st | p] eqn:Hscan; cbn [bind].
  - destruct (scanChecks st) as [[] | p] eqn:Hchk; cbn [bind].
    + (* past the checks the body runs to its last statement *)
      destruct (routeGrouping_sort_returns _ _ Hscan) as [sortedSets ->]. cbn [bind].
      destruct (Positions vm) as [| o rest] eqn:Hps.
      { injection Hscan as <-. discriminate Hchk. }
      cbn [index bind Z.ltb Z.compare Z.to_nat nth_error].
      destruct (emitSets_return tolerance (safetyHeight st) (drillSpeed st) sortedSets [o])
        as [out ->]; discriminate.
    + intro H. injection H as <- <-.
      split; [reflexivity |]. split; [reflexivity |]. split; [reflexivity |].
      right. exists st. split; [reflexivity | exact Hchk].
  - intro H. injection H as <- <-.
    split; [reflexivity |]. split; [reflexivity |]. split; [reflexivity |].
    left. reflexivity.
Qed.

(** A path that ends inside a group is turned down by the checks after the
    scan, and the toolpath stays. *)
Lemma OptRouteGrouping_error_keeps_toolpath_witness :
  OptRouteGrouping 0.1 (machineOf [origin; rapidTo 0 0 5; linearTo 0 0 (-1);
                                   linearTo 1 0 (-1)])
  = (machineOf [origin; rapidTo 0 0 5; linearTo 0 0 (-1); linearTo 1 0 (-1)],
     Some IncompleteFinalSet) /\
  Positions (machineOf [origin; rapidTo 0 0 5; linearTo 0 0 (-1); linearTo 1 0 (-1)])
  = [origin; rapidTo 0 0 5; linearTo 0 0 (-1); linearTo 1 0 (-1)] /\
  routeGrouping 0.1 [origin; rapidTo 0 0 5; linearTo 0 0 (-1); linearTo 1 0 (-1)]
  = Panic IncompleteFinalSet.
Proof.
  assert (H : OptRouteGrouping 0.1 (machineOf [origin; rapidTo 0 0 5; linearTo 0 0 (-1);
                                               linearTo 1 0 (-1)])
              = (machineOf [origin; rapidTo 0 0 5; linearTo 0 0 (-1); linearTo 1 0 (-1)],
                 Some IncompleteFinalSet))
    by (vm_compute; reflexivity).
  split; [exact H |].
  destruct (OptRouteGrouping_error_keeps_toolpath 0.1 _ _ _ H) as [_ [Hps [Hrg _]]].
  split; [exact Hps | exact Hrg].
Defined.
